(** * Nimbus router: radix tree, middleware chain and recovery middleware

    A shallow embedding of the routing core of the nimbus HTTP framework:
    the per-method radix tree ([node.insert], [node.search],
    [longestCommonPrefix], [tree.insert], [tree.search],
    [tree.collectRoutes]), the middleware composer [Chain], the recovery
    middlewares [Recovery] and [DetailedRecovery], and, of the other
    middlewares, [Auth], [CORS], the token bucket of the rate limiter and
    the generator of request identifiers.

    Go strings are byte strings; they are modelled by [string] (a list of
    8-bit [ascii] characters).  A [*Route] is modelled by [option Route]
    ([None] is the nil pointer) and the parameter map [map[string]string]
    by [option (gmap string string)] ([None] is the nil map). *)

From Stdlib Require Import String Ascii List Arith Lia.
From stdpp Require Import base option list strings gmap.
From stdpp Require Import pretty.

Local Open Scope string_scope.

(** ** Results of partial computations

    [Done a] is a normal return, [Panic] a Go run-time panic (here only an
    index out of range), [Timeout] the exhaustion of the recursion budget
    of the model (shown below never to happen). *)

Inductive res (A : Type) : Type :=
  | Done (a : A)
  | Panic
  | Timeout.

Arguments Done {A} a.
Arguments Panic {A}.
Arguments Timeout {A}.

Global Instance res_ret : MRet res := fun _ a => Done a.

Global Instance res_bind : MBind res := fun _ _ k m =>
  match m with
  | Done a => k a
  | Panic => Panic
  | Timeout => Timeout
  end.

(** ** Byte-string primitives of the Go standard library

    Slices are taken with indices in range wherever the model uses them
    (an index past the end would panic in Go). *)

Module GoString.

(** [s[n:]] *)
Fixpoint drop (n : nat) (s : string) : string :=
  match n, s with
  | S n', String _ s' => drop n' s'
  | _, _ => s
  end.

(** [s[:n]] *)
Fixpoint take (n : nat) (s : string) : string :=
  match n, s with
  | S n', String c s' => String c (take n' s')
  | _, _ => ""
  end.

(** [strings.IndexByte(s, c)], with [None] for -1. *)
Fixpoint IndexByte (s : string) (c : ascii) : option nat :=
  match s with
  | "" => None
  | String x s' =>
      if Ascii.eqb x c then Some 0
      else match IndexByte s' c with
           | Some i => Some (S i)
           | None => None
           end
  end.

(** [strings.HasPrefix(s, p)] *)
Definition HasPrefix (s p : string) : bool := String.prefix p s.
Global Arguments HasPrefix : simpl never.

(** [strings.TrimPrefix(s, p)] *)
Definition TrimPrefix (s p : string) : string :=
  if HasPrefix s p then drop (String.length p) s else s.

(** First byte [s[0]]; [None] is the index-out-of-range panic. *)
Definition head (s : string) : option ascii :=
  match s with
  | "" => None
  | String c _ => Some c
  end.

End GoString.

Import GoString.

(** ** Routes *)

(** Modelled from the spec: the declaration of the [Route] struct is not
    part of the sources.  A route binds a method and the original pattern
    to a terminal handler; the handler and the compiled chain are
    represented by an identifier. *)
Record Route : Type := mkRoute {
  method : string;
  pattern : string;
  handler : nat;
}.

Global Instance Route_eq_dec : EqDecision Route.
Proof. solve_decision. Defined.

(** ** Radix tree nodes *)

Inductive nodeType : Type := static | param | wildcard.

Global Instance nodeType_eq_dec : EqDecision nodeType.
Proof. solve_decision. Defined.

Definition is_static (t : nodeType) : bool :=
  match t with static => true | _ => false end.

Definition is_param (t : nodeType) : bool :=
  match t with param => true | _ => false end.

#[warnings="-register-all"]
Inductive node : Type := Node {
  nType : nodeType;
  label : ascii;
  prefix : string;
  paramKey : string;
  route : option Route;
  children : list node;
  paramChild : option node;
}.

(** Field updates of a node (assignments [n.f = v]). *)
Definition set_route (n : node) (r : option Route) : node :=
  Node (nType n) (label n) (prefix n) (paramKey n) r (children n) (paramChild n).

Definition set_children (n : node) (cs : list node) : node :=
  Node (nType n) (label n) (prefix n) (paramKey n) (route n) cs (paramChild n).

Definition set_paramChild (n : node) (pc : option node) : node :=
  Node (nType n) (label n) (prefix n) (paramKey n) (route n) (children n) pc.

(** The zero byte, Go's zero value of [label]. *)
Definition zero_byte : ascii := Ascii.zero.

Record tree : Type := Tree { root : node }.

(** [newTree()] *)
Definition newTree : tree :=
  Tree (Node static zero_byte "" "" None [] None).

(** [longestCommonPrefix(a, b)]: the loop over [i] stops at the first
    index where the bytes differ or where the shorter string ends. *)
Fixpoint longestCommonPrefix (a b : string) : nat :=
  match a, b with
  | String x a', String y b' =>
      if Ascii.eqb x y then S (longestCommonPrefix a' b') else 0
  | _, _ => 0
  end.

(** The next segment of a path whose leading slash has been removed:
    [segment, remaining] as computed from [strings.IndexByte(path, '/')]. *)
Definition next_segment (path : string) : string * string :=
  match IndexByte path "/"%char with
  | None => (path, "")
  | Some segmentEnd => (take segmentEnd path, drop segmentEnd path)
  end.

(** The segment kind chosen by [node.insert]. *)
Definition segment_type (segment : string) : nodeType :=
  match head segment with
  | Some c =>
      if Ascii.eqb c ":" then param
      else if Ascii.eqb c "*" then wildcard
      else static
  | None => static
  end.

(** The loop [for _, child := range n.children] of [node.insert]: the
    first static child whose prefix shares a non-empty common prefix with
    the segment, with its index and the length of the common prefix. *)
Fixpoint find_common (segment : string) (cs : list node) (i : nat)
  : option (nat * node * nat) :=
  match cs with
  | [] => None
  | child :: cs' =>
      if negb (is_static (nType child)) then find_common segment cs' (S i)
      else
        let commonLen := longestCommonPrefix segment (prefix child) in
        if Nat.eqb commonLen 0 then find_common segment cs' (S i)
        else Some (i, child, commonLen)
  end.

(** The recursion budget needed for a path: every recursive call of
    [node.insert] and [node.search] is on a path that starts with a slash
    and is strictly shorter than the current one once that one starts with
    a slash. *)
Definition budget (path : string) : nat :=
  S (S (String.length path)).

(** [node.insert].  The receiver is updated in place by the source; the
    function returns the updated receiver.  [Panic] is the index out of
    range of [segment[0]] on an empty static segment. *)
Fixpoint node_insert (fuel : nat) (n : node) (path : string) (rt : Route)
  : res node :=
  match fuel with
  | 0 => Timeout
  | S fuel' =>
    if String.eqb path "/" then Done (set_route n (Some rt))
    else
      let path := TrimPrefix path "/" in
      let '(segment, remaining) := next_segment path in
      if is_param (segment_type segment) then
        let pc :=
          match paramChild n with
          | None => Node param zero_byte segment (drop 1 segment) None [] None
          | Some pc => pc
          end in
        pc' ← (if String.eqb remaining "" then Done (set_route pc (Some rt))
                else node_insert fuel' pc remaining rt);
        Done (set_paramChild n (Some pc'))
      else
        match find_common segment (children n) 0 with
        | Some (i, child, commonLen) =>
            if Nat.eqb commonLen (String.length (prefix child)) then
              child' ← (if Nat.eqb commonLen (String.length segment) then
                           if String.eqb remaining ""
                           then Done (set_route child (Some rt))
                           else node_insert fuel' child remaining rt
                         else
                           let newSegment := drop commonLen segment in
                           node_insert fuel' child
                             ("/" +:+ newSegment +:+ remaining) rt);
              Done (set_children n (<[i := child']> (children n)))
            else
              let rest := drop commonLen (prefix child) in
              match head rest with
              | None => Panic
              | Some c =>
                  let child0 :=
                    Node (nType child) c rest (paramKey child) (route child)
                         (children child) (paramChild child) in
                  let splitNode :=
                    Node static (label child) (take commonLen (prefix child))
                         "" None [child0] None in
                  splitNode' ←
                    (if Nat.eqb commonLen (String.length segment) then
                       if String.eqb remaining ""
                       then Done (set_route splitNode (Some rt))
                       else node_insert fuel' splitNode remaining rt
                     else
                       let newSegment := drop commonLen segment in
                       node_insert fuel' splitNode
                         ("/" +:+ newSegment +:+ remaining) rt);
                  Done (set_children n (<[i := splitNode']> (children n)))
              end
        | None =>
            match head segment with
            | None => Panic
            | Some c =>
                let newChild := Node static c segment "" None [] None in
                newChild' ←
                  (if String.eqb remaining ""
                   then Done (set_route newChild (Some rt))
                   else node_insert fuel' newChild remaining rt);
                Done (set_children n (children n ++ [newChild']))
            end
        end
  end.

(** [tree.insert] *)
Definition normalize (path : string) : string :=
  let path := if String.eqb path "" then "/" else path in
  match head path with
  | Some c => if Ascii.eqb c "/" then path else "/" +:+ path
  | None => "/" +:+ path
  end.

Definition tree_insert (t : tree) (path : string) (rt : Route) : res tree :=
  let path := normalize path in
  r ← node_insert (budget path) (root t) path rt;
  Done (Tree r).

(** The parameter map: [None] is the nil map that has not been allocated. *)
Definition params : Type := option (gmap string string).

(** The assignment of [value] to the entry [key] of the map behind the
    pointer, after the lazy allocation of the map. *)
Definition bind_param (ps : params) (key value : string) : params :=
  Some (<[key := value]> (default ∅ ps)).

(** The loop over the static children in [node.search]: the first static
    child whose prefix is a prefix of the segment. *)
Fixpoint find_static (segment : string) (cs : list node) : option node :=
  match cs with
  | [] => None
  | child :: cs' =>
      if negb (is_static (nType child)) then find_static segment cs'
      else if HasPrefix segment (prefix child)
              && (Nat.eqb (String.length segment) (String.length (prefix child))
                  || Nat.ltb (String.length (prefix child)) (String.length segment))
      then Some child
      else find_static segment cs'
  end.

(** [node.search]: the route found and the parameter map as left by the
    search (the map is written through the pointer [params]). *)
Fixpoint node_search (fuel : nat) (n : node) (path : string) (ps : params)
  : res (option Route * params) :=
  match fuel with
  | 0 => Timeout
  | S fuel' =>
    if String.eqb path "/" || String.eqb path "" then Done (route n, ps)
    else
      let path := TrimPrefix path "/" in
      let '(segment, remaining) := next_segment path in
      match find_static segment (children n) with
      | Some child =>
          if Nat.eqb (String.length segment) (String.length (prefix child)) then
            if String.eqb remaining "" then Done (route child, ps)
            else node_search fuel' child remaining ps
          else
            let newPath :=
              "/" +:+ drop (String.length (prefix child)) segment +:+ remaining in
            node_search fuel' child newPath ps
      | None =>
          match paramChild n with
          | Some pc =>
              let ps' := bind_param ps (paramKey pc) segment in
              if String.eqb remaining "" then Done (route pc, ps')
              else node_search fuel' pc remaining ps'
          | None => Done (None, ps)
          end
      end
  end.

(** [tree.search] *)
Definition tree_search (t : tree) (path : string)
  : res (option Route * params) :=
  let path := if String.eqb path "" then "/" else path in
  '(rt, ps) ← node_search (budget path) (root t) path None;
  match rt with
  | None => Done (None, None)
  | Some r => Done (Some r, ps)
  end.

(** Registration of a list of (pattern, route) pairs, in order. *)
Fixpoint insert_all (t : tree) (ops : list (string * Route)) : res tree :=
  match ops with
  | [] => Done t
  | (p, r) :: ops' => t' ← tree_insert t p r; insert_all t' ops'
  end.

(** * Middleware *)

Module Middleware.

Local Open Scope list_scope.

(** ** [Chain] *)

Section Chain.

(** The handler type; [Chain] does not look inside handlers. *)
Context {HandlerFunc : Type}.

Definition MiddlewareFunc : Type := HandlerFunc -> HandlerFunc.

(** The loop [for i := len(middlewares) - 1; i >= 0; i--], entered with
    [n = i + 1] iterations left.  The index is always in range. *)
Fixpoint chain_loop (middlewares : list MiddlewareFunc) (n : nat)
    (handler : HandlerFunc) : HandlerFunc :=
  match n with
  | 0 => handler
  | S i =>
      match middlewares !! i with
      | Some mw => chain_loop middlewares i (mw handler)
      | None => handler
      end
  end.

Definition Chain (middlewares : list MiddlewareFunc) : MiddlewareFunc :=
  fun handler => chain_loop middlewares (length middlewares) handler.

(** The nesting mw[0](mw[1](... mw[n-1](h) ...)). *)
Definition nested (middlewares : list MiddlewareFunc) (h : HandlerFunc)
  : HandlerFunc :=
  foldr (fun mw acc => mw acc) h middlewares.

End Chain.

(** ** Order-recording middleware

    Handlers that act on a per-request context and append to a log. *)

Section Recording.

Context {Context Response : Type}.

Inductive event : Type :=
  | Pre (name : string)
  | Terminal
  | Post (name : string).

Definition LoggingHandler : Type :=
  Context -> list event -> Response * list event.

(** A middleware that logs, calls the next handler once, and logs. *)
Definition recorder (name : string)
  : @MiddlewareFunc LoggingHandler :=
  fun next ctx log =>
    let '(resp, log') := next ctx (log ++ [Pre name]) in
    (resp, log' ++ [Post name]).

Definition terminal (resp : Response) : LoggingHandler :=
  fun ctx log => (resp, log ++ [Terminal]).

End Recording.

End Middleware.

(** * The recovery middleware *)

Module RecoveryMiddleware.

Local Open Scope list_scope.

(** [APIError] and [NewAPIError] of response.go *)
Record APIError : Type := mkAPIError {
  Code : string;
  Message : string;
}.

Definition NewAPIError (code message : string) : APIError :=
  mkAPIError code message.

(** [http.StatusInternalServerError] *)
Definition StatusInternalServerError : Z := 500.

Section Recovery.

(** Per-request contexts, non-nil Go values, and errors that are not
    an [*APIError]. *)
Context {Context value foreign_error : Type}.

(** An [error]: [None] is nil. *)
Inductive error_value : Type :=
  | api_error (e : APIError)
  | other_error (e : foreign_error).

(** The results [(data any, statusCode int, err error)]. *)
Definition results : Type := option value * Z * option error_value.

(** The zero values of the named results. *)
Definition zero_results : results := (None, 0%Z, None).

(** What [recover] yields for a panic in flight.  The module is built
    with go 1.25: a [panic(nil)] reaches [recover] as a
    [*runtime.PanicNilError], never as nil. *)
Inductive panic_value : Type :=
  | PanicNilError
  | panic_with (v : value).

(** A call either returns its results or panics. *)
Inductive outcome : Type :=
  | Returns (r : results)
  | Panics (v : panic_value).

(** A handler also appends to the process log. *)
Definition Handler : Type := Context -> list string -> outcome * list string.

Definition Middleware : Type := Handler -> Handler.

(** *** A function with named results and one deferred call *)

(** The state seen by the deferred function: the named results, the
    panic in flight, and the log. *)
Record frame : Type := mkFrame {
  named : results;
  panicking : option panic_value;
  output : list string;
}.

(** [recover()]: yields the panic in flight, and stops it. *)
Definition recover (fr : frame) : option panic_value * frame :=
  (panicking fr, mkFrame (named fr) None (output fr)).

(** [defer deferred(); return body]: a returning body assigns the named
    results; a panicking body leaves them at their zero values.  The
    deferred function runs in both cases; the call returns the named
    results unless a panic is still in flight. *)
Definition with_defer (body : outcome * list string)
    (deferred : frame -> frame) : outcome * list string :=
  let fr :=
    match body with
    | (Returns r, out) => mkFrame r None out
    | (Panics v, out) => mkFrame zero_results (Some v) out
    end in
  let fr' := deferred fr in
  match panicking fr' with
  | None => (Returns (named fr'), output fr')
  | Some v => (Panics v, output fr')
  end.

(** The line written by [log.Printf("PANIC: %v\n%s", r, debug.Stack())];
    its text is not modelled. *)
Variable panic_line : panic_value -> string.

(** [Recovery()] *)
Definition Recovery : Middleware :=
  fun next ctx out =>
    with_defer (next ctx out)
      (fun fr =>
         let '(r, fr) := recover fr in
         match r with
         | Some v =>
             mkFrame
               (None, StatusInternalServerError,
                Some (api_error
                        (NewAPIError "internal_server_error"
                           "An unexpected error occurred")))
               (panicking fr)
               (output fr ++ [panic_line v])
         | None => fr
         end).

End Recovery.

(** A handler that returns an error of its own on context 0 and panics
    with nil on every other context. *)
Definition sample_handler : @Handler nat string string :=
  fun ctx out =>
    match ctx with
    | 0 => (Returns (Some "body", 404%Z, Some (other_error "not found")), out)
    | _ => (Panics PanicNilError, out ++ ["working"])
    end.

End RecoveryMiddleware.

(** * The tree as pointers into a store

    [node.insert] has no result: it writes through its receiver.  To state
    what a holder of a [*tree] observes after an insertion, the nodes are
    modelled here as cells of a store, addressed by their index; a
    [*node] is an address, [&node{...}] allocates a cell at the end of the
    store, and an assignment to a field overwrites the cell. *)

Module Heap.

Local Open Scope list_scope.

Abbreviation addr := nat (only parsing).

Record cell : Type := Cell {
  c_nType : nodeType;
  c_label : ascii;
  c_prefix : string;
  c_paramKey : string;
  c_route : option Route;
  c_children : list addr;
  c_paramChild : option addr;
}.

Abbreviation store := (list cell) (only parsing).

Definition with_route (c : cell) (r : option Route) : cell :=
  Cell (c_nType c) (c_label c) (c_prefix c) (c_paramKey c) r
       (c_children c) (c_paramChild c).

Definition with_children (c : cell) (cs : list addr) : cell :=
  Cell (c_nType c) (c_label c) (c_prefix c) (c_paramKey c) (c_route c)
       cs (c_paramChild c).

Definition with_paramChild (c : cell) (pc : option addr) : cell :=
  Cell (c_nType c) (c_label c) (c_prefix c) (c_paramKey c) (c_route c)
       (c_children c) pc.

Definition with_prefix (c : cell) (l : ascii) (p : string) : cell :=
  Cell (c_nType c) l p (c_paramKey c) (c_route c)
       (c_children c) (c_paramChild c).

(** Reading through a pointer; a pointer outside the store is a nil
    dereference. *)
Definition load (h : store) (a : addr) : res cell :=
  match h !! a with
  | Some c => Done c
  | None => Panic
  end.

(** [a.route = route] *)
Definition store_route (h : store) (a : addr) (rt : Route) : res store :=
  c ← load h a; Done (<[a := with_route c (Some rt)]> h).

(** The loop over [n.children] of [node.insert]. *)
Fixpoint find_common (h : store) (segment : string) (cs : list addr) (i : nat)
  : res (option (nat * addr * nat)) :=
  match cs with
  | [] => Done None
  | child :: cs' =>
      c ← load h child;
      if negb (is_static (c_nType c)) then find_common h segment cs' (S i)
      else
        let commonLen := longestCommonPrefix segment (c_prefix c) in
        if Nat.eqb commonLen 0 then find_common h segment cs' (S i)
        else Done (Some (i, child, commonLen))
  end.

(** [for i, c := range n.children { if c == child { n.children[i] =
    splitNode; break } }] *)
Fixpoint replace_first (cs : list addr) (child splitNode : addr) : list addr :=
  match cs with
  | [] => []
  | c :: cs' =>
      if Nat.eqb c child then splitNode :: cs'
      else c :: replace_first cs' child splitNode
  end.

(** [node.insert] on the store. *)
Fixpoint node_insert (fuel : nat) (h : store) (n : addr) (path : string)
    (rt : Route) : res store :=
  match fuel with
  | 0 => Timeout
  | S fuel' =>
    if String.eqb path "/" then store_route h n rt
    else
      let path := TrimPrefix path "/" in
      let '(segment, remaining) := next_segment path in
      c ← load h n;
      if is_param (segment_type segment) then
        let '(h1, pc) :=
          match c_paramChild c with
          | Some pc => (h, pc)
          | None =>
              let pc := length h in
              (<[n := with_paramChild c (Some pc)]>
                 (h ++ [Cell param zero_byte segment (drop 1 segment)
                             None [] None]),
               pc)
          end in
        if String.eqb remaining "" then store_route h1 pc rt
        else node_insert fuel' h1 pc remaining rt
      else
        found ← find_common h segment (c_children c) 0;
        match found with
        | Some (i, child, commonLen) =>
            cc ← load h child;
            if Nat.eqb commonLen (String.length (c_prefix cc)) then
              if Nat.eqb commonLen (String.length segment) then
                if String.eqb remaining "" then store_route h child rt
                else node_insert fuel' h child remaining rt
              else
                let newSegment := drop commonLen segment in
                node_insert fuel' h child
                  ("/" +:+ newSegment +:+ remaining)%string rt
            else
              let splitNode := length h in
              let h1 :=
                h ++ [Cell static (c_label cc) (take commonLen (c_prefix cc))
                           "" None [child] None] in
              let rest := drop commonLen (c_prefix cc) in
              match head rest with
              | None => Panic
              | Some l =>
                  let h2 := <[child := with_prefix cc l rest]> h1 in
                  c2 ← load h2 n;
                  let h3 :=
                    <[n := with_children c2
                             (replace_first (c_children c2) child splitNode)]>
                      h2 in
                  if Nat.eqb commonLen (String.length segment) then
                    if String.eqb remaining "" then store_route h3 splitNode rt
                    else node_insert fuel' h3 splitNode remaining rt
                  else
                    let newSegment := drop commonLen segment in
                    node_insert fuel' h3 splitNode
                      ("/" +:+ newSegment +:+ remaining)%string rt
              end
        | None =>
            match head segment with
            | None => Panic
            | Some l =>
                let newChild := length h in
                let h1 := h ++ [Cell static l segment "" None [] None] in
                h2 ← (if String.eqb remaining "" then store_route h1 newChild rt
                      else node_insert fuel' h1 newChild remaining rt);
                c' ← load h2 n;
                Done (<[n := with_children c' (c_children c' ++ [newChild])]> h2)
            end
        end
  end.

(** A [*tree]: the address of the root node. *)
Record tree : Type := Tree { root : addr }.

(** [newTree()] allocates the root. *)
Definition newTree (h : store) : store * tree :=
  (h ++ [Cell static zero_byte "" "" None [] None], Tree (length h)).

(** [tree.insert] *)
Definition tree_insert (h : store) (t : tree) (path : string) (rt : Route)
  : res store :=
  let path := normalize path in
  node_insert (budget path) h (root t) path rt.

(** The loop over the static children in [node.search]. *)
Fixpoint find_static (h : store) (segment : string) (cs : list addr)
  : res (option (addr * cell)) :=
  match cs with
  | [] => Done None
  | child :: cs' =>
      c ← load h child;
      if negb (is_static (c_nType c)) then find_static h segment cs'
      else if HasPrefix segment (c_prefix c)
              && (Nat.eqb (String.length segment) (String.length (c_prefix c))
                  || Nat.ltb (String.length (c_prefix c)) (String.length segment))
      then Done (Some (child, c))
      else find_static h segment cs'
  end.

(** [node.search] on the store. *)
Fixpoint node_search (fuel : nat) (h : store) (n : addr) (path : string)
    (ps : params) : res (option Route * params) :=
  match fuel with
  | 0 => Timeout
  | S fuel' =>
    c ← load h n;
    if String.eqb path "/" || String.eqb path "" then Done (c_route c, ps)
    else
      let path := TrimPrefix path "/" in
      let '(segment, remaining) := next_segment path in
      found ← find_static h segment (c_children c);
      match found with
      | Some (child, cc) =>
          if Nat.eqb (String.length segment) (String.length (c_prefix cc)) then
            if String.eqb remaining "" then Done (c_route cc, ps)
            else node_search fuel' h child remaining ps
          else
            let newPath :=
              ("/" +:+ drop (String.length (c_prefix cc)) segment
                   +:+ remaining)%string in
            node_search fuel' h child newPath ps
      | None =>
          match c_paramChild c with
          | Some pc =>
              pcc ← load h pc;
              let ps' := bind_param ps (c_paramKey pcc) segment in
              if String.eqb remaining "" then Done (c_route pcc, ps')
              else node_search fuel' h pc remaining ps'
          | None => Done (None, ps)
          end
      end
  end.

(** [tree.search] *)
Definition tree_search (h : store) (t : tree) (path : string)
  : res (option Route * params) :=
  let path := if String.eqb path "" then "/"%string else path in
  '(rt, ps) ← node_search (budget path) h (root t) path None;
  match rt with
  | None => Done (None, None)
  | Some r => Done (Some r, ps)
  end.

(** [reach h n a]: the node at [a] is the node at [n] or lies below it. *)
Inductive reach (h : store) : addr -> addr -> Prop :=
  | reach_refl n : reach h n n
  | reach_step n c m a :
      h !! n = Some c ->
      m ∈ c_children c \/ c_paramChild c = Some m ->
      reach h m a ->
      reach h n a.

(** ** One step of [node.insert] on the store *)

Definition continue_at (fuel : nat) (h : store) (target : addr) (sub : string)
    (rt : Route) : res store :=
  if String.eqb sub "" then store_route h target rt
  else node_insert fuel h target sub rt.

(** The parameter child that receives the route, allocated if absent. *)
Definition param_slot (h : store) (n : addr) (c : cell) (segment : string)
  : store * addr :=
  match c_paramChild c with
  | Some pc => (h, pc)
  | None =>
      (<[n := with_paramChild c (Some (length h))]>
         (h ++ [Cell param zero_byte segment (drop 1 segment) None [] None]),
       length h)
  end.

(** The store after the split of [child]: the split node is allocated, the
    child is cut, and the receiver points to the split node. *)
Definition split_store (h : store) (n child : addr) (cc : cell) (k : nat)
    (l : ascii) : res store :=
  let h1 :=
    h ++ [Cell static (c_label cc) (take k (c_prefix cc)) "" None [child] None] in
  let h2 := <[child := with_prefix cc l (drop k (c_prefix cc))]> h1 in
  c2 ← load h2 n;
  Done (<[n := with_children c2
                 (replace_first (c_children c2) child (length h))]> h2).

(** [h'] extends [h] and agrees with it outside the nodes below [n]. *)
Definition frame_ok (h : store) (n : addr) (h' : store) : Prop :=
  length h <= length h' /\
  forall a, a < length h -> ~ reach h n a -> h' !! a = h !! a.

Definition route_old : Route := mkRoute "GET" "/a" 1.
Definition route_new : Route := mkRoute "GET" "/a" 2.

(** The store holding one tree, rooted at 0, with "/a" registered. *)
Definition store_a_old : list cell :=
  [Cell static zero_byte "" "" None [1] None;
   Cell static "a" "a" "" (Some route_old) [] None].

(** The same store after "/a" has been registered again in that tree. *)
Definition store_a_new : list cell :=
  [Cell static zero_byte "" "" None [1] None;
   Cell static "a" "a" "" (Some route_new) [] None].

Definition route_old_id : Route := mkRoute "GET" "/a/:id" 3.

(** Two trees in one store: the tree rooted at 0 holds "/a" and "/a/:id",
    the tree rooted at 3 is empty. *)
Definition store_two_trees : list cell :=
  [Cell static zero_byte "" "" None [1] None;
   Cell static "a" "a" "" (Some route_old) [] (Some 2);
   Cell param zero_byte ":id" "id" (Some route_old_id) [] None;
   Cell static zero_byte "" "" None [] None].

(** That store after "/a" has been registered in the tree rooted at 3. *)
Definition store_two_trees_after : list cell :=
  [Cell static zero_byte "" "" None [1] None;
   Cell static "a" "a" "" (Some route_old) [] (Some 2);
   Cell param zero_byte ":id" "id" (Some route_old_id) [] None;
   Cell static zero_byte "" "" None [4] None;
   Cell static "a" "a" "" (Some route_new) [] None].

End Heap.

(** * The store holds a tree

    The relation between the two models of the tree: the cells of a store
    below an address hold a node of the first model when they carry its
    fields and their successors hold its children, without sharing. *)

Module Refine.

Local Open Scope list_scope.

(** A cell carries the fields of a node. *)
Definition cell_matches (c : Heap.cell) (n : node) : Prop :=
  Heap.c_nType c = nType n /\ Heap.c_label c = label n /\ Heap.c_prefix c = prefix n /\
  Heap.c_paramKey c = paramKey n /\ Heap.c_route c = route n.

(** A relation between an optional pointer, an optional node and their
    footprint. *)
Inductive opt3 {A B C : Type} (R : A -> B -> C -> Prop) (dflt : C)
  : option A -> option B -> C -> Prop :=
  | opt3_None : opt3 R dflt None None dflt
  | opt3_Some a b c : R a b c -> opt3 R dflt (Some a) (Some b) c.

Definition pairwise_disjoint (Fs : list (gset nat)) : Prop :=
  forall i j Fi Fj, Fs !! i = Some Fi -> Fs !! j = Some Fj -> i <> j -> Fi ## Fj.

(** [repr d h a n F]: the cells of the store [h] below the address [a]
    form a tree of depth at most [d], without sharing, that holds the node
    [n]; [F] is the set of its addresses. *)
Fixpoint repr (d : nat) (h : list Heap.cell) (a : nat) (n : node) (F : gset nat)
  : Prop :=
  match d with
  | 0 => False
  | S d' =>
      exists c Fs Fp,
        h !! a = Some c /\ cell_matches c n /\
        Forall3 (repr d' h) (Heap.c_children c) (children n) Fs /\
        opt3 (repr d' h) ∅ (Heap.c_paramChild c) (paramChild n) Fp /\
        (a ∉ ⋃ Fs ∪ Fp) /\ pairwise_disjoint Fs /\ (⋃ Fs ## Fp) /\
        F = {[a]} ∪ ⋃ Fs ∪ Fp
  end.

(** [h'] extends [h] and agrees with it outside the footprint [G]. *)
Definition ext (h : list Heap.cell) (G : gset nat) (h' : list Heap.cell) : Prop :=
  length h <= length h' /\
  forall x, x < length h -> x ∉ G -> h' !! x = h !! x.

(** The footprint [G'] consists of addresses of [G] and of cells allocated
    after [h]. *)
Definition grows (G : gset nat) (h : list Heap.cell) (G' : gset nat) : Prop :=
  forall x, x ∈ G' -> x ∈ G \/ length h <= x.

(** The outcome [rh] on the store matches the outcome [rf] on the node held
    at [a] with footprint [F]. *)
Definition refines (h : list Heap.cell) (a : nat) (F : gset nat)
    (rf : res node) (rh : res (list Heap.cell)) : Prop :=
  match rf with
  | Done n' =>
      exists h' d' F',
        rh = Done h' /\ repr d' h' a n' F' /\ ext h F h' /\ grows F h F'
  | Panic => rh = Panic
  | Timeout => rh = Timeout
  end.

(** The store [h] holds the tree [t] at the root [th]. *)
Definition holds (h : list Heap.cell) (th : Heap.tree) (t : tree) : Prop :=
  exists d F, repr d h (Heap.root th) (root t) F.

(** Registrations in sequence on the store. *)
Fixpoint store_insert_all (h : list Heap.cell) (th : Heap.tree)
    (ops : list (string * Route)) : res (list Heap.cell) :=
  match ops with
  | [] => Done h
  | (p, r) :: ops' =>
      h' ← Heap.tree_insert h th p r; store_insert_all h' th ops'
  end.

End Refine.

(** * Notions used in the statements and proofs *)

(** The path handed to the target node: [remaining] when the whole segment
    has been consumed, otherwise the unconsumed part of the segment put
    back in front of it. *)
Definition rest_path (k : nat) (segment remaining : string) : string :=
  if Nat.eqb k (String.length segment) then remaining
  else "/" +:+ drop k segment +:+ remaining.

Definition continue_insert (fuel : nat) (target : node) (sub : string)
    (rt : Route) : res node :=
  if String.eqb sub "" then Done (set_route target (Some rt))
  else node_insert fuel target sub rt.

Definition continue_search (fuel : nat) (target : node) (sub : string)
    (ps : params) : res (option Route * params) :=
  if String.eqb sub "" then Done (route target, ps)
  else node_search fuel target sub ps.

(** The parameter child that receives the route: the existing one, or a
    fresh one named after the segment. *)
Definition param_target (n : node) (segment : string) : node :=
  match paramChild n with
  | None => Node param zero_byte segment (drop 1 segment) None [] None
  | Some pc => pc
  end.

(** The existing child with its prefix cut down to what follows the common
    prefix, as re-parented under the split node. *)
Definition cut_child (child : node) (k : nat) (c : ascii) : node :=
  Node (nType child) c (drop k (prefix child)) (paramKey child) (route child)
       (children child) (paramChild child).

Definition split_node (child : node) (k : nat) (c : ascii) : node :=
  Node static (label child) (take k (prefix child)) "" None
       [cut_child child k c] None.

(** The static node in which the insertion continues. *)
Definition static_target (child : node) (k : nat) : option node :=
  if Nat.eqb k (String.length (prefix child)) then Some child
  else match head (drop k (prefix child)) with
       | None => None
       | Some c => Some (split_node child k c)
       end.

Definition new_child (c : ascii) (segment : string) : node :=
  Node static c segment "" None [] None.

(** The measure that decreases along the recursive calls. *)
Definition weight (path : string) : nat :=
  match path with
  | String "/" s => S (String.length s)
  | _ => S (String.length path)
  end.

Definition same_header (n n' : node) : Prop :=
  nType n' = nType n /\ label n' = label n /\
  prefix n' = prefix n /\ paramKey n' = paramKey n.

Definition first_byte (c : node) : option ascii := head (prefix c).

(** Every child in a child list is a static node with a non-empty prefix,
    no two of them start with the same byte, and the same holds below. *)
#[warnings="-register-all"]
Inductive node_inv : node -> Prop :=
  | node_inv_intro n :
      Forall (fun c => nType c = static /\ prefix c <> "") (children n) ->
      NoDup (map first_byte (children n)) ->
      Forall node_inv (children n) ->
      (forall pc, paramChild n = Some pc -> node_inv pc) ->
      node_inv n.

Definition tree_inv (t : tree) : Prop := node_inv (root t).

(** [reachable m n]: the node [m] is [n] or lies below it. *)
Inductive reachable : node -> node -> Prop :=
  | reach_self n : reachable n n
  | reach_child m c n : c ∈ children n -> reachable m c -> reachable m n
  | reach_param m pc n : paramChild n = Some pc -> reachable m pc -> reachable m n.

Fixpoint has_byte (c : ascii) (s : string) : bool :=
  match s with
  | "" => false
  | String x s' => Ascii.eqb x c || has_byte c s'
  end.

(** A path without parameter marker: no ":" occurs in it. *)
Definition colon_free (path : string) : Prop := has_byte ":" path = false.

(** Some segment of the path, after a slash, starts with ":". *)
Fixpoint has_param_segment (path : string) : bool :=
  match path with
  | "" => false
  | String c s =>
      (Ascii.eqb c "/" && is_param (segment_type s)) || has_param_segment s
  end.

(** The path as [tree.search] uses it. *)
Definition search_path (path : string) : string :=
  if String.eqb path "" then "/" else path.

Definition route_ab : Route := mkRoute "GET" "/ab" 1.
Definition route_ac : Route := mkRoute "GET" "/ac" 2.

(** The tree after "/ab" and "/ac": the child "ab" has been split into a
    node "a" with the children "b" and "c". *)
Definition tree_ab_ac : tree :=
  Tree (Node static zero_byte "" "" None
          [Node static "a" "a" "" None
             [Node static "b" "b" "" (Some route_ab) [] None;
              Node static "c" "c" "" (Some route_ac) [] None] None] None).

Definition route_user : Route := mkRoute "GET" "/users/:id" 1.
Definition route_me : Route := mkRoute "GET" "/users/me" 2.
Definition route_usersme : Route := mkRoute "GET" "/usersme" 3.

(** The tree with "/users/:id" and "/users/me" (in either order of
    registration). *)
Definition tree_users : tree :=
  Tree (Node static zero_byte "" "" None
          [Node static "u" "users" "" None
             [Node static "m" "me" "" (Some route_me) [] None]
             (Some (Node param zero_byte ":id" "id" (Some route_user) [] None))]
          None).

(** The pattern of the route has a parameter marker. *)
Definition marked (r : Route) : Prop := has_byte ":" (pattern r) = true.

(** Every route at or below the node is marked. *)
#[warnings="-register-all"]
Inductive all_marked : node -> Prop :=
  | all_marked_intro n :
      (forall r, route n = Some r -> marked r) ->
      Forall all_marked (children n) ->
      (forall pc, paramChild n = Some pc -> all_marked pc) ->
      all_marked n.

(** Every route below a parameter child, anywhere in the tree, is marked. *)
#[warnings="-register-all"]
Inductive params_marked : node -> Prop :=
  | params_marked_intro n :
      Forall params_marked (children n) ->
      (forall pc, paramChild n = Some pc -> all_marked pc) ->
      params_marked n.

(** An allocated parameter map holds at least one binding. *)
Definition bound_params (ps : params) : Prop :=
  match ps with
  | None => True
  | Some m => m <> ∅
  end.

(** A registration stores a route under its own pattern. *)
Definition registration (op : string * Route) : Prop :=
  pattern (snd op) = fst op.

Definition route_ab0 : Route := mkRoute "GET" "/a:b" 10.
Definition route_a : Route := mkRoute "GET" "/a" 11.
Definition route_ab1 : Route := mkRoute "GET" "/a:b" 12.
Definition route_ab2 : Route := mkRoute "GET" "/a:b" 13.

(** The tree after "/a:b" and then "/a": the node "a:b" has been split and
    its route sits in the static child ":b" of "a". *)
Definition tree_a_b : tree :=
  Tree (Node static zero_byte "" "" None
          [Node static "a" "a" "" (Some route_a)
             [Node static ":" ":b" "" (Some route_ab0) [] None] None] None).

Definition route_id : Route := mkRoute "GET" "/a/:id" 1.
Definition route_slug : Route := mkRoute "GET" "/a/:slug" 2.

(** The tree after "/a/:id" and then "/a/:slug". *)
Definition tree_id_slug : tree :=
  Tree (Node static zero_byte "" "" None
          [Node static "a" "a" "" None []
             (Some (Node param zero_byte ":id" "id" (Some route_slug) [] None))]
          None).

(** ** Collecting the routes of a tree *)

(** [node.collectRoutes]: the routes are appended to the slice behind the
    pointer [routes]; the function returns the slice as left there.  The
    order is the node's own route, then the children in order, then the
    parameter child. *)
Fixpoint node_collectRoutes (n : node) (routes : list Route) : list Route :=
  match n with
  | Node _ _ _ _ rt cs pc =>
      let routes :=
        match rt with
        | Some r => (routes ++ [r])%list
        | None => routes
        end in
      let routes :=
        (fix range (cs : list node) (routes : list Route) : list Route :=
           match cs with
           | [] => routes
           | child :: cs' => range cs' (node_collectRoutes child routes)
           end) cs routes in
      match pc with
      | Some p => node_collectRoutes p routes
      | None => routes
      end
  end.

(** [tree.collectRoutes]; the root of a [tree] of the model is never nil. *)
Definition tree_collectRoutes (t : tree) : list Route :=
  node_collectRoutes (root t) [].

(** The routes of a node in the order of [node.collectRoutes], written
    with list operations. *)
Definition own_route (n : node) : list Route :=
  match route n with
  | Some r => [r]
  | None => []
  end.

(** The tree with "/ab" alone. *)
Definition tree_ab : tree :=
  Tree (Node static zero_byte "" "" None
          [Node static "a" "ab" "" (Some route_ab) [] None] None).

(** The list [new] is [old] with [rt] put into one slot: added, or in the
    place of one entry. *)
Definition one_slot (old new : list Route) (rt : Route) : Prop :=
  exists before after,
    new = (before ++ rt :: after)%list /\
    (old = (before ++ after)%list \/
     exists r0, old = (before ++ r0 :: after)%list).

(** A node without children and without parameter child. *)
Definition leaf (n : node) : Prop := children n = [] /\ paramChild n = None.

(** ** Forms of a path *)

(** The last byte of a string, if it has one. *)
Fixpoint last_byte (s : string) : option ascii :=
  match s with
  | "" => None
  | String c "" => Some c
  | String _ s' => last_byte s'
  end.

(** Two slashes in a row occur in the string: some segment before the end
    of the path is empty. *)
Fixpoint double_slash (s : string) : bool :=
  match s with
  | "" => false
  | String a s' =>
      (Ascii.eqb a "/" && match head s' with
                          | Some b => Ascii.eqb b "/"
                          | None => false
                          end)
      || double_slash s'
  end.

(** ** A pattern and a path that it matches *)

(** A segment of a pattern together with the segment of a request path
    that it is meant to match: a literal segment, or a parameter with its
    name and the value in the path. *)
Inductive matched_segment : Type :=
  | Lit (text : string)
  | Par (name value : string).

(** The pattern: "/" and the text of each segment, ":" and the name for a
    parameter. *)
Fixpoint pattern_of (sgs : list matched_segment) : string :=
  match sgs with
  | [] => ""
  | Lit s :: sgs' => "/" +:+ s +:+ pattern_of sgs'
  | Par k _ :: sgs' => "/" +:+ (":" +:+ k) +:+ pattern_of sgs'
  end.

(** The request path: the value stands where the parameter is. *)
Fixpoint path_of (sgs : list matched_segment) : string :=
  match sgs with
  | [] => ""
  | Lit s :: sgs' => "/" +:+ s +:+ path_of sgs'
  | Par _ v :: sgs' => "/" +:+ v +:+ path_of sgs'
  end.

(** The bindings, made in the order of the segments. *)
Fixpoint bindings (sgs : list matched_segment) (ps : params) : params :=
  match sgs with
  | [] => ps
  | Lit _ :: sgs' => bindings sgs' ps
  | Par k v :: sgs' => bindings sgs' (bind_param ps k v)
  end.

(** Literal segments are not empty, hold no slash and do not start with
    ":"; names hold no slash; values are not empty and hold no slash. *)
Definition segment_ok (sg : matched_segment) : Prop :=
  match sg with
  | Lit s => s <> "" /\ has_byte "/" s = false /\ head s <> Some ":"%char
  | Par k v => has_byte "/" k = false /\ v <> "" /\ has_byte "/" v = false
  end.

(** The tree with "/a/b" alone. *)
Definition tree_a_slash_b : tree :=
  Tree (Node static zero_byte "" "" None
          [Node static "a" "a" "" None
             [Node static "b" "b" "" (Some route_ab) [] None] None] None).

(** * The recovery middleware with details *)

Module DetailedRecoveryMiddleware.

Import RecoveryMiddleware.

Local Open Scope list_scope.

Section DetailedRecovery.

Context {Context value foreign_error : Type}.

(** The line written by [log.Printf("PANIC: %v\n%s", r, debug.Stack())]
    and the text that [fmt.Sprintf] puts for [%v]; neither is modelled. *)
Variable panic_line : @panic_value value -> string.
Variable panic_text : @panic_value value -> string.

(** [DetailedRecovery()] *)
Definition DetailedRecovery : @Middleware Context value foreign_error :=
  fun next ctx out =>
    with_defer (next ctx out)
      (fun fr =>
         let '(r, fr) := recover fr in
         match r with
         | Some v =>
             let message := ("Panic recovered: " +:+ panic_text v)%string in
             mkFrame
               (None, StatusInternalServerError,
                Some (api_error (NewAPIError "internal_server_error" message)))
               (panicking fr)
               (output fr ++ [panic_line v])
         | None => fr
         end).

End DetailedRecovery.

(** The method [Error] of [APIError] *)
Definition Error (e : APIError) : string := Message e.

End DetailedRecoveryMiddleware.

(** * The rate limiter *)

Module RateLimit.

Local Open Scope Z_scope.

(** [int] is taken 64 bits wide; additions and subtractions wrap around. *)
Definition min_int : Z := - 2 ^ 63.
Definition max_int : Z := 2 ^ 63 - 1.

Definition wrap (z : Z) : Z := (z + 2 ^ 63) mod 2 ^ 64 - 2 ^ 63.

(** [min(a, b)] of ratelimit.go *)
Definition min (a b : Z) : Z := if a <? b then a else b.

Section Limiter.

(** Readings of the clock. *)
Context {time : Type}.

Record bucket : Type := Bucket {
  tokens : Z;
  lastSeen : time;
}.

(** The fields of [RateLimiter] that [allow] uses; the mutex, which makes
    the calls of [allow] run one after the other, is not a field of the
    model. *)
Record RateLimiter : Type := mkRateLimiter {
  buckets : gmap string bucket;
  rate : Z;
  capacity : Z;
}.

Definition with_buckets (rl : RateLimiter) (bs : gmap string bucket)
  : RateLimiter :=
  mkRateLimiter bs (rate rl) (capacity rl).

(** [int(now.Sub(lastSeen).Seconds() * float64(rate))]: the floating-point
    computation is not modelled; its result is an [int]. *)
Variable refill_of : time -> time -> Z -> Z.

(** [RateLimiter.allow], called when the clock reads [now].  The bucket is
    updated through its pointer; the model writes it back to the map. *)
Definition allow (rl : RateLimiter) (now : time) (key : string)
  : bool * RateLimiter :=
  match buckets rl !! key with
  | None =>
      let b := Bucket (wrap (capacity rl - 1)) now in
      (true, with_buckets rl (<[key := b]> (buckets rl)))
  | Some b =>
      let refill := refill_of now (lastSeen b) (rate rl) in
      let tokens := min (capacity rl) (wrap (tokens b + refill)) in
      if 0 <? tokens then
        (true, with_buckets rl (<[key := Bucket (wrap (tokens - 1)) now]> (buckets rl)))
      else
        (false, with_buckets rl (<[key := Bucket tokens now]> (buckets rl)))
  end.

(** The answers to requests for [key] made at the given clock readings,
    one after the other. *)
Fixpoint requests (rl : RateLimiter) (key : string) (times : list time)
  : list bool * RateLimiter :=
  match times with
  | [] => ([], rl)
  | now :: times' =>
      let '(ok, rl1) := allow rl now key in
      let '(oks, rl2) := requests rl1 key times' in
      (ok :: oks, rl2)
  end.

(** The number of requests let through. *)
Fixpoint allowed (answers : list bool) : nat :=
  match answers with
  | [] => 0
  | ok :: answers' => (if ok then 1 else 0) + allowed answers'
  end.

End Limiter.

(** The refill when the clock counts seconds: [rate] tokens a second. *)
Definition refill_by_seconds (now last : nat) (rate : Z) : Z :=
  Z.of_nat (now - last) * rate.

(** A limiter of two tokens a second and capacity 5 that has seen two
    clients: the first used up its tokens at second 3, the second has 4
    tokens left since second 1. *)
Definition limiter_two_clients : @RateLimiter nat :=
  mkRateLimiter
    (<["10.0.0.1" := Bucket 0 3%nat]> (<["10.0.0.2" := Bucket 4 1%nat]> ∅))
    2 5.

End RateLimit.

(** * Request identifiers *)

Module RequestID.

Local Open Scope Z_scope.

(** The digit that [%x] prints for a value below 16. *)
Definition hex_digit (n : Z) : ascii :=
  match n with
  | 0 => "0" | 1 => "1" | 2 => "2" | 3 => "3" | 4 => "4" | 5 => "5"
  | 6 => "6" | 7 => "7" | 8 => "8" | 9 => "9" | 10 => "a" | 11 => "b"
  | 12 => "c" | 13 => "d" | 14 => "e" | _ => "f"
  end%char.

(** [%x] of a byte slice: two digits for each byte. *)
Fixpoint hex (bs : list Z) : string :=
  match bs with
  | [] => ""
  | b :: bs' =>
      String (hex_digit (b / 16)) (String (hex_digit (b mod 16)) (hex bs'))
  end.

(** [b[i:j]] *)
Definition slice (i j : nat) (b : list Z) : list Z :=
  firstn (j - i) (skipn i b).

(** [generateRequestID()].  [random] is what [rand.Read] has put into the
    16 bytes of [b], [None] if it has failed; [fallback] is the value of
    [mathrand.Int()], which is not negative.  The bytes are values from 0
    to 255. *)
Definition generateRequestID (random : option (list Z)) (fallback : Z)
  : string :=
  match random with
  | None => "req_" +:+ pretty fallback
  | Some b =>
      let b := <[6%nat := Z.lor (Z.land (b !!! 6%nat) 15) 64]> b in
      let b := <[8%nat := Z.lor (Z.land (b !!! 8%nat) 63) 128]> b in
      hex (slice 0 4 b) +:+ "-" +:+ hex (slice 4 6 b) +:+ "-" +:+
      hex (slice 6 8 b) +:+ "-" +:+ hex (slice 8 10 b) +:+ "-" +:+
      hex (slice 10 16 b)
  end.

(** The byte at an index of a string. *)
Fixpoint byte_at (i : nat) (s : string) : option ascii :=
  match s, i with
  | "", _ => None
  | String c _, O => Some c
  | String _ s', S i' => byte_at i' s'
  end.

Definition is_hex_digit (c : ascii) : bool :=
  existsb (Ascii.eqb c) (list_ascii_of_string "0123456789abcdef").

End RequestID.

(** * Middlewares that read and write the request context *)

Module ContextMiddleware.

Import RecoveryMiddleware.

Local Open Scope list_scope.

(** [strings.SplitN(s, sep, 2)] for a separator of one byte: the text
    before the first separator and the text after it, or [s] alone. *)
Definition SplitN2 (s : string) (sep : ascii) : list string :=
  match IndexByte s sep with
  | Some m => [take m s; drop (S m) s]
  | None => [s]
  end.

(** [strings.Join(elems, sep)] *)
Fixpoint Join (elems : list string) (sep : string) : string :=
  match elems with
  | [] => ""
  | [e] => e
  | e :: elems' => e +:+ sep +:+ Join elems' sep
  end.

(** [CORSConfig] *)
Record CORSConfig : Type := mkCORSConfig {
  AllowOrigins : list string;
  AllowMethods : list string;
  AllowHeaders : list string;
  ExposeHeaders : list string;
  AllowCredentials : bool;
  MaxAge : Z;
}.

(** [DefaultCORSConfig()] *)
Definition DefaultCORSConfig : CORSConfig :=
  mkCORSConfig ["*"]
    ["GET"; "POST"; "PUT"; "PATCH"; "DELETE"; "OPTIONS"]
    ["Origin"; "Content-Type"; "Accept"; "Authorization"; "X-Requested-With"]
    [] false 3600.

(** The loop over [config.AllowOrigins] in [CORS]. *)
Fixpoint match_origin (origins : list string) (origin : string) : string :=
  match origins with
  | [] => ""
  | o :: origins' =>
      if String.eqb o origin then origin else match_origin origins' origin
  end.

(** The origin that [CORS] allows for a request. *)
Definition allowed_origin (config : CORSConfig) (origin : string) : string :=
  match AllowOrigins config with
  | [] => ""
  | first :: _ =>
      if String.eqb first "*" then "*"
      else match_origin (AllowOrigins config) origin
  end.

Section Handlers.

(** The request context, the values it stores, and the errors that are
    not an [*APIError].  The context type and its methods are not part of
    the sources: they are kept abstract. *)
Context {Ctx value foreign_error : Type}.

(** [ctx.GetHeader(key)], [ctx.Header(key, value)], [ctx.Set(key, value)]
    (named [SetValue] here) and [ctx.Request.Method]. *)
Variable GetHeader : Ctx -> string -> string.
Variable Header : Ctx -> string -> string -> Ctx.
Variable SetValue : Ctx -> string -> option value -> Ctx.
Variable Method : Ctx -> string.

(** [err.Error()] of an error that is not an [*APIError]. *)
Variable error_text : foreign_error -> string.

Definition error_message (e : @error_value foreign_error) : string :=
  match e with
  | api_error a => Message a
  | other_error f => error_text f
  end.

(** A handler returns its results and leaves the context as it has
    updated it.  The middlewares below defer nothing: a panic of the
    wrapped handler passes through them. *)
Definition CtxHandler : Type :=
  Ctx -> @results value foreign_error * Ctx.

Definition CtxMiddleware : Type := CtxHandler -> CtxHandler.

Definition StatusUnauthorized : Z := 401.
Definition StatusNoContent : Z := 204.

(** [Auth(validateToken)] *)
Definition Auth
    (validateToken : string -> option value * option (@error_value foreign_error))
  : CtxMiddleware :=
  fun next ctx =>
    let authHeader := GetHeader ctx "Authorization" in
    if String.eqb authHeader "" then
      ((None, StatusUnauthorized,
        Some (api_error (NewAPIError "unauthorized"
                           "Missing authorization header"))), ctx)
    else
      let parts := SplitN2 authHeader " " in
      match parts with
      | [scheme; token] =>
          if negb (String.eqb scheme "Bearer") then
            ((None, StatusUnauthorized,
              Some (api_error (NewAPIError "unauthorized"
                                 "Invalid authorization header format"))), ctx)
          else
            match validateToken token with
            | (_, Some err) =>
                ((None, StatusUnauthorized,
                  Some (api_error (NewAPIError "unauthorized"
                                     (error_message err)))), ctx)
            | (user, None) => next (SetValue ctx "user" user)
            end
      | _ =>
          ((None, StatusUnauthorized,
            Some (api_error (NewAPIError "unauthorized"
                               "Invalid authorization header format"))), ctx)
      end.

(** The headers that [CORS] sets on the response, in order. *)
Definition set_if (b : bool) (ctx : Ctx) (key value : string) : Ctx :=
  if b then Header ctx key value else ctx.

(** [CORS(configs...)] *)
Definition CORS (configs : list CORSConfig) : CtxMiddleware :=
  let config :=
    match configs with
    | c :: _ => c
    | [] => DefaultCORSConfig
    end in
  fun next ctx =>
    let origin := GetHeader ctx "Origin" in
    let allowedOrigin := allowed_origin config origin in
    let ctx :=
      set_if (negb (String.eqb allowedOrigin "")) ctx
        "Access-Control-Allow-Origin" allowedOrigin in
    let ctx :=
      set_if (AllowCredentials config) ctx
        "Access-Control-Allow-Credentials" "true" in
    let ctx :=
      set_if (Nat.ltb 0 (length (ExposeHeaders config))) ctx
        "Access-Control-Expose-Headers" (Join (ExposeHeaders config) ", ") in
    if String.eqb (Method ctx) "OPTIONS" then
      let ctx :=
        set_if (Nat.ltb 0 (length (AllowMethods config))) ctx
          "Access-Control-Allow-Methods" (Join (AllowMethods config) ", ") in
      let ctx :=
        set_if (Nat.ltb 0 (length (AllowHeaders config))) ctx
          "Access-Control-Allow-Headers" (Join (AllowHeaders config) ", ") in
      let ctx :=
        set_if (Z.ltb 0 (MaxAge config)) ctx
          "Access-Control-Max-Age" (pretty (MaxAge config)) in
      ((None, StatusNoContent, None), ctx)
    else next ctx.

End Handlers.

End ContextMiddleware.

(** A context for examples: the method and the origin of the request,
    and the headers set on the response. *)
Module SampleContext.

Local Open Scope list_scope.

Record sample_ctx : Type := mkSample {
  s_method : string;
  s_origin : string;
  s_response : list (string * string);
}.

Definition sample_GetHeader (ctx : sample_ctx) (key : string) : string :=
  if String.eqb key "Origin" then s_origin ctx else "".

Definition sample_Header (ctx : sample_ctx) (key value : string) : sample_ctx :=
  mkSample (s_method ctx) (s_origin ctx) (s_response ctx ++ [(key, value)]).

End SampleContext.

(** * Properties of the radix tree *)

(** ** Byte strings *)

Section StringFacts.

Lemma str_length_drop n s : String.length (drop n s) = String.length s - n.
Proof.
  revert s; induction n as [|n IH]; intros [|c s]; simpl; auto with arith.
Qed.

Lemma str_length_take n s : String.length (take n s) = Nat.min n (String.length s).
Proof.
  revert s; induction n as [|n IH]; intros [|c s]; simpl; auto.
Qed.

Lemma append_cons c (a b : string) : String c a +:+ b = String c (a +:+ b).
Proof. reflexivity. Qed.

Lemma append_nil (b : string) : "" +:+ b = b.
Proof. reflexivity. Qed.

Lemma append_nil_r (a : string) : a +:+ "" = a.
Proof.
  induction a as [|c a IH]; [reflexivity|].
  rewrite append_cons; now rewrite IH.
Qed.

Lemma str_take_drop n s : take n s +:+ drop n s = s.
Proof.
  revert s; induction n as [|n IH]; intros [|c s]; simpl; auto.
  rewrite append_cons; f_equal; apply IH.
Qed.

Lemma str_length_app (a b : string) :
  String.length (a +:+ b) = String.length a + String.length b.
Proof.
  induction a as [|c a IH]; [reflexivity|].
  rewrite append_cons; simpl; now rewrite IH.
Qed.

Lemma str_drop_all s n : String.length s <= n -> drop n s = "".
Proof.
  revert s; induction n as [|n IH]; intros [|c s]; simpl; auto; try lia.
  intros; apply IH; lia.
Qed.

Lemma str_length_zero s : String.length s = 0 -> s = "".
Proof. destruct s; simpl; congruence. Qed.

Lemma str_head_take n s : 0 < n -> head (take n s) = head s.
Proof. destruct n, s; simpl; auto; lia. Qed.

Lemma head_None s : head s = None -> s = "".
Proof. destruct s; simpl; congruence. Qed.

Lemma head_Some_nonempty s c : head s = Some c -> s <> "".
Proof. destruct s; simpl; congruence. Qed.

Lemma lcp_le_l a b : longestCommonPrefix a b <= String.length a.
Proof.
  revert b; induction a as [|x a IH]; intros [|y b]; simpl; try lia.
  destruct (Ascii.eqb x y); [specialize (IH b)|]; lia.
Qed.

Lemma lcp_le_r a b : longestCommonPrefix a b <= String.length b.
Proof.
  revert b; induction a as [|x a IH]; intros [|y b]; simpl; try lia.
  destruct (Ascii.eqb x y); [specialize (IH b)|]; lia.
Qed.

Lemma lcp_pos_head a b :
  0 < longestCommonPrefix a b ->
  exists c, head a = Some c /\ head b = Some c.
Proof.
  destruct a as [|x a], b as [|y b]; simpl; try lia.
  destruct (Ascii.eqb_spec x y); [subst; eauto | lia].
Qed.

Lemma lcp_zero_head a b c :
  longestCommonPrefix a b = 0 -> head a = Some c -> head b <> Some c.
Proof.
  destruct a as [|x a], b as [|y b]; simpl; try congruence.
  destruct (Ascii.eqb_spec x y); [lia | congruence].
Qed.

Lemma HasPrefix_cons x s y p :
  HasPrefix (String x s) (String y p) = Ascii.eqb x y && HasPrefix s p.
Proof.
  unfold HasPrefix; simpl.
  destruct (ascii_dec y x) as [->|Hne].
  - now rewrite Ascii.eqb_refl.
  - destruct (Ascii.eqb_spec x y); [congruence | reflexivity].
Qed.

Lemma HasPrefix_nil s : HasPrefix s "" = true.
Proof. destruct s; reflexivity. Qed.

Lemma lcp_full_prefix s p :
  longestCommonPrefix s p = String.length p -> HasPrefix s p = true.
Proof.
  revert p; induction s as [|x s IH]; intros [|y p]; simpl; auto;
    try discriminate.
  rewrite HasPrefix_cons.
  destruct (Ascii.eqb x y); [|discriminate].
  intros H; apply IH; lia.
Qed.

Lemma prefix_lcp s p :
  HasPrefix s p = true -> longestCommonPrefix s p = String.length p.
Proof.
  revert p; induction s as [|x s IH]; intros [|y p]; simpl; auto;
    try discriminate.
  rewrite HasPrefix_cons.
  destruct (Ascii.eqb x y); simpl; [|discriminate].
  intros H; now rewrite IH.
Qed.

Lemma prefix_length s p :
  HasPrefix s p = true -> String.length p <= String.length s.
Proof.
  intros H; rewrite <- (prefix_lcp _ _ H); apply lcp_le_l.
Qed.

Lemma lcp_zero_not_prefix s p :
  longestCommonPrefix s p = 0 -> p <> "" -> HasPrefix s p = false.
Proof.
  intros H Hp.
  destruct (HasPrefix s p) eqn:E; [|reflexivity].
  apply prefix_lcp in E. destruct p; [congruence | simpl in E; lia].
Qed.

(** Past the longest common prefix the two strings differ in their next
    byte. *)
Lemma lcp_drop_differ a b :
  longestCommonPrefix (drop (longestCommonPrefix a b) a)
                      (drop (longestCommonPrefix a b) b) = 0.
Proof.
  revert b; induction a as [|x a IH]; intros [|y b]; simpl; auto.
  destruct (Ascii.eqb x y) eqn:E; simpl; [apply IH | now rewrite E].
Qed.

Lemma HasPrefix_take_lcp a b :
  HasPrefix a (take (longestCommonPrefix a b) b) = true.
Proof.
  revert b; induction a as [|x a IH]; intros [|y b]; simpl; auto.
  destruct (Ascii.eqb x y) eqn:E; simpl; [|reflexivity].
  rewrite HasPrefix_cons, E; simpl; apply IH.
Qed.

Lemma string_eqb_eq (a b : string) : String.eqb a b = true <-> a = b.
Proof. apply String.eqb_eq. Qed.

(** *** Segments *)

Lemma IndexByte_Some s c i :
  IndexByte s c = Some i ->
  i < String.length s /\ head (drop i s) = Some c.
Proof.
  revert i; induction s as [|x s IH]; simpl; intros i; [discriminate|].
  destruct (Ascii.eqb_spec x c) as [->|Hne].
  - intros [= <-]; simpl; split; [lia | reflexivity].
  - destruct (IndexByte s c) as [j|]; [|discriminate].
    intros [= <-]. destruct (IH j eq_refl); simpl; split; [lia | assumption].
Qed.

Lemma next_segment_app path segment remaining :
  next_segment path = (segment, remaining) ->
  path = segment +:+ remaining.
Proof.
  unfold next_segment.
  destruct (IndexByte path "/") as [i|]; intros [= <- <-].
  - now rewrite str_take_drop.
  - now rewrite append_nil_r.
Qed.

Lemma next_segment_remaining path segment remaining :
  next_segment path = (segment, remaining) ->
  remaining = "" \/ head remaining = Some "/"%char.
Proof.
  unfold next_segment.
  destruct (IndexByte path "/") as [i|] eqn:E; intros [= <- <-]; auto.
  right; now apply IndexByte_Some in E.
Qed.

Lemma next_segment_length path segment remaining :
  next_segment path = (segment, remaining) ->
  String.length path = String.length segment + String.length remaining.
Proof.
  intros H; rewrite (next_segment_app _ _ _ H) at 1; apply str_length_app.
Qed.

Lemma TrimPrefix_slash path :
  TrimPrefix path "/" =
    match path with
    | String "/" s => s
    | _ => path
    end.
Proof.
  destruct path as [|c s]; [reflexivity|].
  unfold TrimPrefix. rewrite HasPrefix_cons, HasPrefix_nil, andb_true_r.
  destruct (Ascii.eqb_spec c "/") as [->|Hne]; [reflexivity|].
  destruct c as [[] [] [] [] [] [] [] []]; try reflexivity; congruence.
Qed.

End StringFacts.

(** ** The shape of one step of [node.insert] and [node.search]

    After the segment has been split off, both functions continue in one
    target node with the rest of the path: the parameter child, the static
    child found by the loop (or the node that splits it), or a new leaf.
    The equations below state the two function bodies in that form. *)

Lemma node_insert_unfold fuel n path rt :
  node_insert (S fuel) n path rt =
    if String.eqb path "/" then Done (set_route n (Some rt))
    else
      let '(segment, remaining) := next_segment (TrimPrefix path "/") in
      if is_param (segment_type segment) then
        pc' ← continue_insert fuel (param_target n segment) remaining rt;
        Done (set_paramChild n (Some pc'))
      else
        match find_common segment (children n) 0 with
        | Some (i, child, k) =>
            match static_target child k with
            | None => Panic
            | Some target =>
                target' ← continue_insert fuel target
                            (rest_path k segment remaining) rt;
                Done (set_children n (<[i := target']> (children n)))
            end
        | None =>
            match head segment with
            | None => Panic
            | Some c =>
                target' ← continue_insert fuel (new_child c segment)
                            remaining rt;
                Done (set_children n (children n ++ [target']))
            end
        end.
Proof.
  cbn [node_insert].
  destruct (String.eqb path "/"); [reflexivity|].
  destruct (next_segment (TrimPrefix path "/")) as [segment remaining].
  destruct (is_param (segment_type segment)); [reflexivity|].
  destruct (find_common segment (children n) 0) as [[[i child] k]|];
    [|reflexivity].
  unfold static_target, rest_path, continue_insert.
  destruct (Nat.eqb k (String.length (prefix child))).
  - destruct (Nat.eqb k (String.length segment)); [reflexivity|].
    reflexivity.
  - destruct (head (drop k (prefix child))); [|reflexivity].
    destruct (Nat.eqb k (String.length segment)); reflexivity.
Qed.

Lemma node_search_unfold fuel n path ps :
  node_search (S fuel) n path ps =
    if String.eqb path "/" || String.eqb path "" then Done (route n, ps)
    else
      let '(segment, remaining) := next_segment (TrimPrefix path "/") in
      match find_static segment (children n) with
      | Some child =>
          continue_search fuel child
            (rest_path (String.length (prefix child)) segment remaining) ps
      | None =>
          match paramChild n with
          | Some pc =>
              continue_search fuel pc remaining
                (bind_param ps (paramKey pc) segment)
          | None => Done (None, ps)
          end
      end.
Proof.
  cbn [node_search].
  destruct (String.eqb path "/" || String.eqb path ""); [reflexivity|].
  destruct (next_segment (TrimPrefix path "/")) as [segment remaining].
  destruct (find_static segment (children n)) as [child|]; [|reflexivity].
  unfold rest_path, continue_search.
  rewrite (Nat.eqb_sym (String.length (prefix child))).
  destruct (Nat.eqb (String.length segment) (String.length (prefix child)));
    reflexivity.
Qed.

(** ** Termination: the recursion budget is never exhausted *)

Lemma weight_budget path : weight path < budget path.
Proof.
  unfold weight, budget.
  destruct path as [|c s]; simpl; [lia|].
  destruct c as [[] [] [] [] [] [] [] []]; simpl; lia.
Qed.

Lemma weight_slash s : weight ("/" +:+ s) = S (String.length s).
Proof. reflexivity. Qed.

Lemma weight_head_slash s :
  head s = Some "/"%char -> weight s = String.length s.
Proof. destruct s as [|c s]; simpl; [discriminate|]. now intros [= ->]. Qed.

Lemma weight_trim path :
  path <> "/" -> path <> "" ->
  String.length (TrimPrefix path "/") < weight path.
Proof.
  intros H1 H2. rewrite TrimPrefix_slash. unfold weight.
  destruct path as [|c s]; [congruence|].
  destruct c as [[] [] [] [] [] [] [] []]; simpl; lia.
Qed.

Lemma weight_remaining path segment remaining :
  path <> "" ->
  next_segment (TrimPrefix path "/") = (segment, remaining) ->
  remaining <> "" ->
  weight remaining < weight path.
Proof.
  intros Hne Hseg Hrem.
  destruct (decide (path = "/")) as [->|Hp].
  { cbn in Hseg. injection Hseg as <- <-. congruence. }
  pose proof (weight_trim path Hp Hne) as Hw.
  pose proof (next_segment_length _ _ _ Hseg) as Hl.
  destruct (next_segment_remaining _ _ _ Hseg) as [->|Hh]; [congruence|].
  rewrite (weight_head_slash _ Hh).
  destruct (decide (segment = "")) as [->|Hs].
  - (* the path starts with two slashes, or with none and a slash *)
    simpl in Hl.
    assert (TrimPrefix path "/" = remaining) as Ht.
    { apply next_segment_app in Hseg. now rewrite append_nil in Hseg. }
    rewrite TrimPrefix_slash in Ht.
    destruct path as [|c s]; [congruence|].
    destruct (Ascii.eqb_spec c "/") as [->|Hc].
    + subst s. simpl. lia.
    + assert (String c s = remaining) as <-.
      { destruct c as [[] [] [] [] [] [] [] []]; try exact Ht; congruence. }
      simpl in Hh. congruence.
  - assert (0 < String.length segment).
    { destruct segment; simpl; [congruence | lia]. }
    lia.
Qed.

Lemma weight_rest path segment remaining k :
  path <> "" -> path <> "/" ->
  next_segment (TrimPrefix path "/") = (segment, remaining) ->
  0 < k -> k <= String.length segment ->
  rest_path k segment remaining <> "" ->
  weight (rest_path k segment remaining) < weight path.
Proof.
  intros Hne Hp Hseg Hk Hkl. unfold rest_path.
  destruct (Nat.eqb_spec k (String.length segment)) as [->|Hks].
  - intros Hrem. eapply weight_remaining; eauto.
  - intros _. rewrite weight_slash, str_length_app, str_length_drop.
    pose proof (weight_trim path Hp Hne) as Hw.
    pose proof (next_segment_length _ _ _ Hseg) as Hl.
    lia.
Qed.

(** ** The two loops over the children *)

Lemma find_common_Some segment cs i0 i child k :
  find_common segment cs i0 = Some (i, child, k) ->
  i0 <= i /\ cs !! (i - i0) = Some child /\
  is_static (nType child) = true /\
  k = longestCommonPrefix segment (prefix child) /\ 0 < k /\
  forall j c, j < i - i0 -> cs !! j = Some c ->
              is_static (nType c) = true ->
              longestCommonPrefix segment (prefix c) = 0.
Proof.
  revert i0; induction cs as [|c0 cs IH]; intros i0; simpl; [discriminate|].
  destruct (is_static (nType c0)) eqn:Est; simpl.
  - destruct (Nat.eqb_spec (longestCommonPrefix segment (prefix c0)) 0)
      as [E0|E0].
    + intros H. destruct (IH _ H) as (Hle & Hlk & Hs & Hk & Hpos & Hbefore).
      split; [lia|]. replace (i - i0) with (S (i - S i0)) by lia.
      split; [exact Hlk|]. split; [exact Hs|]. split; [exact Hk|].
      split; [exact Hpos|].
      intros [|j] c Hj; simpl.
      * now intros [= <-] _.
      * intros Hc Hst. apply (Hbefore j c); auto; lia.
    + intros [= <- <- <-]. rewrite Nat.sub_diag. simpl.
      repeat split; auto; try lia.
  - intros H. destruct (IH _ H) as (Hle & Hlk & Hs & Hk & Hpos & Hbefore).
    split; [lia|]. replace (i - i0) with (S (i - S i0)) by lia.
    split; [exact Hlk|]. split; [exact Hs|]. split; [exact Hk|].
    split; [exact Hpos|].
    intros [|j] c Hj; simpl.
    * intros [= <-]. congruence.
    * intros Hc Hst. apply (Hbefore j c); auto; lia.
Qed.

Lemma find_common_None segment cs i0 :
  find_common segment cs i0 = None ->
  forall c, c ∈ cs -> is_static (nType c) = true ->
            longestCommonPrefix segment (prefix c) = 0.
Proof.
  revert i0; induction cs as [|c0 cs IH]; intros i0; simpl.
  - intros _ c Hc. inversion Hc.
  - destruct (is_static (nType c0)) eqn:Est; simpl.
    + destruct (Nat.eqb_spec (longestCommonPrefix segment (prefix c0)) 0)
        as [E0|E0]; [|discriminate].
      intros H c Hc. apply elem_of_cons in Hc as [->|Hc]; [auto|].
      eapply IH; eauto.
    + intros H c Hc. apply elem_of_cons in Hc as [->|Hc]; [congruence|].
      eapply IH; eauto.
Qed.

Lemma find_static_Some segment cs child :
  find_static segment cs = Some child ->
  child ∈ cs /\ is_static (nType child) = true /\
  HasPrefix segment (prefix child) = true.
Proof.
  induction cs as [|c0 cs IH]; simpl; [discriminate|].
  destruct (is_static (nType c0)) eqn:Est; simpl.
  - destruct (HasPrefix segment (prefix c0)) eqn:Ep; simpl.
    + destruct (_ || _).
      * intros [= <-]. split; [left|]; auto.
      * intros H. destruct (IH H) as (? & ? & ?). split; [now right|]; auto.
    + intros H. destruct (IH H) as (? & ? & ?). split; [now right|]; auto.
  - intros H. destruct (IH H) as (? & ? & ?). split; [now right|]; auto.
Qed.

(** A static child whose prefix is a prefix of the segment is found by the
    search loop when no earlier static child has a byte in common with the
    segment. *)
Lemma find_static_at segment cs i child :
  cs !! i = Some child ->
  is_static (nType child) = true ->
  HasPrefix segment (prefix child) = true ->
  (forall j c, j < i -> cs !! j = Some c -> is_static (nType c) = true ->
               HasPrefix segment (prefix c) = false) ->
  find_static segment cs = Some child.
Proof.
  revert i; induction cs as [|c0 cs IH]; intros [|i]; simpl; try discriminate.
  - intros [= ->] Hs Hp _. rewrite Hs, Hp. simpl.
    pose proof (prefix_length _ _ Hp) as Hl.
    destruct (Nat.eqb_spec (String.length segment) (String.length (prefix child)));
      simpl; [reflexivity|].
    destruct (Nat.ltb_spec (String.length (prefix child)) (String.length segment));
      [reflexivity | lia].
  - intros Hi Hs Hp Hbefore.
    destruct (is_static (nType c0)) eqn:Est; simpl.
    + rewrite (Hbefore 0 c0); [simpl| lia | reflexivity | exact Est].
      apply (IH i); auto. intros j c Hj. apply (Hbefore (S j)). lia.
    + apply (IH i); auto. intros j c Hj. apply (Hbefore (S j)). lia.
Qed.

(** ** What an insertion leaves alone in the receiver

    An insertion writes the route, the child list and the parameter child
    of its receiver, never its kind, label, prefix or parameter name. *)

Lemma same_header_refl n : same_header n n.
Proof. repeat split. Qed.

Lemma node_insert_header fuel n path rt n' :
  node_insert fuel n path rt = Done n' -> same_header n n'.
Proof.
  destruct fuel as [|fuel]; [discriminate|].
  rewrite node_insert_unfold.
  destruct (String.eqb path "/"); [intros [= <-]; repeat split|].
  destruct (next_segment (TrimPrefix path "/")) as [segment remaining].
  destruct (is_param (segment_type segment)).
  { destruct (continue_insert _ _ _ _); simpl; try discriminate.
    intros [= <-]; repeat split. }
  destruct (find_common _ _ _) as [[[i child] k]|].
  - destruct (static_target child k); [|discriminate].
    destruct (continue_insert _ _ _ _); simpl; try discriminate.
    intros [= <-]; repeat split.
  - destruct (head segment); [|discriminate].
    destruct (continue_insert _ _ _ _); simpl; try discriminate.
    intros [= <-]; repeat split.
Qed.

Lemma continue_insert_header fuel target sub rt target' :
  continue_insert fuel target sub rt = Done target' ->
  same_header target target'.
Proof.
  unfold continue_insert. destruct (String.eqb sub "").
  - intros [= <-]; repeat split.
  - apply node_insert_header.
Qed.

(** ** The structural invariant of the tree *)

Lemma node_inv_set_route n r : node_inv n -> node_inv (set_route n r).
Proof. intros [m H1 H2 H3 H4]. now constructor. Qed.

Lemma node_inv_leaf t c p k r : node_inv (Node t c p k r [] None).
Proof.
  constructor; simpl; [constructor | constructor | constructor | discriminate].
Qed.

Lemma node_inv_newTree : node_inv (root newTree).
Proof. apply node_inv_leaf. Qed.

Lemma static_target_facts child k segment target :
  is_static (nType child) = true ->
  k = longestCommonPrefix segment (prefix child) -> 0 < k ->
  static_target child k = Some target ->
  nType target = static /\ first_byte target = first_byte child /\
  prefix target <> "" /\
  HasPrefix segment (prefix target) = true /\
  String.length (prefix target) = k.
Proof.
  intros Hs Hk Hpos. unfold static_target.
  destruct (Nat.eqb_spec k (String.length (prefix child))) as [E|E].
  - intros [= <-]. split; [destruct (nType child); auto; discriminate|].
    split; [reflexivity|]. split.
    + intros Hp. rewrite Hp in E. simpl in E. lia.
    + split; [apply lcp_full_prefix; congruence | congruence].
  - destruct (head (drop k (prefix child))) as [c|]; [|discriminate].
    intros [= <-]. simpl. split; [reflexivity|].
    split; [unfold first_byte; simpl; now apply str_head_take|].
    destruct (lcp_pos_head segment (prefix child)) as (c0 & _ & Hc0);
      [lia|].
    split.
    + intros Hp. pose proof (str_head_take k (prefix child) Hpos) as Hh.
      rewrite Hp, Hc0 in Hh. discriminate.
    + subst k. split; [apply HasPrefix_take_lcp|].
      rewrite str_length_take. pose proof (lcp_le_r segment (prefix child)). lia.
Qed.

Lemma static_target_inv child k target :
  node_inv child -> static_target child k = Some target ->
  is_static (nType child) = true ->
  node_inv target.
Proof.
  intros Hinv. unfold static_target.
  destruct (Nat.eqb k (String.length (prefix child))); [now intros [= <-]|].
  destruct (head (drop k (prefix child))) as [c|] eqn:Eh; [|discriminate].
  intros [= <-] Hs. inversion Hinv as [m H1 H2 H3 H4]; subst m.
  constructor; simpl.
  - constructor; [|constructor]. simpl. split.
    + destruct (nType child); auto; discriminate.
    + eapply head_Some_nonempty; eauto.
  - constructor; [intros Hin; inversion Hin | constructor].
  - constructor; [|constructor]. now constructor.
  - discriminate.
Qed.

Lemma node_insert_inv fuel : forall n path rt n',
  node_inv n -> node_insert fuel n path rt = Done n' -> node_inv n'.
Proof.
  induction fuel as [|fuel IH]; intros n path rt n' Hinv; [discriminate|].
  assert (Hcont : forall target sub target',
             node_inv target ->
             continue_insert fuel target sub rt = Done target' ->
             node_inv target').
  { intros target sub target' Ht. unfold continue_insert.
    destruct (String.eqb sub "").
    - intros [= <-]. now apply node_inv_set_route.
    - now apply IH. }
  rewrite node_insert_unfold.
  destruct (String.eqb path "/");
    [intros [= <-]; now apply node_inv_set_route|].
  destruct (next_segment (TrimPrefix path "/")) as [segment remaining].
  inversion Hinv as [m H1 H2 H3 H4]; subst m.
  destruct (is_param (segment_type segment)).
  { destruct (continue_insert _ _ _ _) as [pc'| |] eqn:Ec; simpl;
      try discriminate.
    intros [= <-]. constructor; simpl; auto.
    intros pc [= <-]. eapply Hcont; [|exact Ec].
    unfold param_target. destruct (paramChild n) as [pc|] eqn:Epc; auto.
    apply node_inv_leaf. }
  destruct (find_common _ _ _) as [[[i child] k]|] eqn:Ef.
  - apply find_common_Some in Ef
      as (_ & Hi & Hs & Hk & Hpos & _).
    rewrite Nat.sub_0_r in Hi.
    destruct (static_target child k) as [target|] eqn:Et; [|discriminate].
    destruct (continue_insert _ _ _ _) as [target'| |] eqn:Ec; simpl;
      try discriminate.
    intros [= <-].
    destruct (static_target_facts _ _ _ _ Hs Hk Hpos Et)
      as (Hty & Hfb & Hne & _).
    destruct (continue_insert_header _ _ _ _ _ Ec) as (Hty' & _ & Hpre' & _).
    assert (node_inv child) as Hchild.
    { rewrite Forall_lookup in H3. eapply H3; eauto. }
    constructor; simpl; auto.
    + apply Forall_insert; auto. rewrite Hty', Hpre'. auto.
    + rewrite list_fmap_insert.
      rewrite list_insert_id; auto.
      rewrite list_lookup_fmap, Hi. simpl. f_equal.
      unfold first_byte in *. now rewrite Hpre', Hfb.
    + apply Forall_insert; auto. eapply Hcont; [|exact Ec].
      eapply static_target_inv; eauto.
  - destruct (head segment) as [c|] eqn:Eh; [|discriminate].
    destruct (continue_insert _ _ _ _) as [target'| |] eqn:Ec; simpl;
      try discriminate.
    intros [= <-].
    destruct (continue_insert_header _ _ _ _ _ Ec) as (Hty' & _ & Hpre' & _).
    simpl in Hty', Hpre'.
    constructor; simpl; auto.
    + apply Forall_app; split; auto. constructor; [|constructor].
      rewrite Hty', Hpre'. split; auto. eapply head_Some_nonempty; eauto.
    + rewrite fmap_app. simpl. apply NoDup_app. split; [auto|]. split.
      * intros b Hb Hb'. apply list_elem_of_singleton in Hb'. subst b.
        apply list_elem_of_fmap in Hb as (c0 & Hc0 & Hin).
        unfold first_byte in Hc0. rewrite Hpre', Eh in Hc0.
        rewrite Forall_forall in H1. destruct (H1 _ Hin) as [Hst _].
        eapply (lcp_zero_head segment (prefix c0) c); eauto.
        eapply find_common_None; eauto. now rewrite Hst.
      * apply NoDup_singleton.
    + apply Forall_app; split; auto. constructor; [|constructor].
      eapply Hcont; [|exact Ec]. apply node_inv_leaf.
Qed.

(** ** The budget suffices for [node.insert] *)

Lemma segment_nonempty_path path segment remaining :
  next_segment (TrimPrefix path "/") = (segment, remaining) ->
  segment <> "" -> path <> "".
Proof.
  intros Hseg Hs ->. vm_compute in Hseg. injection Hseg as <- <-. congruence.
Qed.

Lemma is_param_nonempty segment :
  is_param (segment_type segment) = true -> segment <> "".
Proof. destruct segment; [discriminate | congruence]. Qed.

Lemma is_param_head segment :
  is_param (segment_type segment) = true <-> head segment = Some ":"%char.
Proof.
  unfold segment_type. destruct (head segment) as [c|]; [|split; discriminate].
  destruct (Ascii.eqb_spec c ":") as [->|Hc]; [split; reflexivity|].
  split; [|congruence]. destruct (Ascii.eqb c "*"); discriminate.
Qed.

Lemma bind_Done_fuel {A B : Type} (m1 m2 : res A) (g : A -> B) :
  m1 = m2 /\ m1 <> Timeout ->
  (x ← m1; Done (g x)) = (x ← m2; Done (g x)) /\
  (x ← m1; Done (g x)) <> Timeout.
Proof.
  intros [<- Hne]. split; [reflexivity|].
  destruct m1; simpl; congruence.
Qed.

Lemma node_insert_fuel f1 : forall f2 n path rt,
  weight path < f1 -> weight path < f2 ->
  node_insert f1 n path rt = node_insert f2 n path rt /\
  node_insert f1 n path rt <> Timeout.
Proof.
  induction f1 as [|f1 IH]; intros [|f2] n path rt H1 H2; try lia.
  assert (Hcont : forall target sub,
             (sub <> "" -> weight sub < weight path) ->
             continue_insert f1 target sub rt = continue_insert f2 target sub rt
             /\ continue_insert f1 target sub rt <> Timeout).
  { intros target sub Hw. unfold continue_insert.
    destruct (String.eqb_spec sub ""); [split; [reflexivity | discriminate]|].
    apply IH; specialize (Hw n0); lia. }
  rewrite !node_insert_unfold.
  destruct (String.eqb_spec path "/") as [Hp|Hp]; [split; [reflexivity | discriminate]|].
  destruct (next_segment (TrimPrefix path "/")) as [segment remaining] eqn:Hseg.
  destruct (is_param (segment_type segment)) eqn:Epar.
  { apply bind_Done_fuel, Hcont. intros Hrem.
    eapply weight_remaining; eauto.
    eapply segment_nonempty_path; eauto using is_param_nonempty. }
  destruct (find_common _ _ _) as [[[i child] k]|] eqn:Ef.
  - apply find_common_Some in Ef as (_ & _ & _ & Hk & Hpos & _).
    destruct (static_target child k); [|split; [reflexivity | discriminate]].
    apply bind_Done_fuel, Hcont. intros Hrest.
    assert (segment <> "") as Hs.
    { intros ->. simpl in Hk. lia. }
    eapply weight_rest; eauto using segment_nonempty_path.
    subst k; apply lcp_le_l.
  - destruct (head segment) as [c|] eqn:Eh; [|split; [reflexivity | discriminate]].
    apply bind_Done_fuel, Hcont. intros Hrem.
    eapply weight_remaining; eauto.
    eapply segment_nonempty_path; eauto using head_Some_nonempty.
Qed.

(** [node.insert] returns or panics; the model never runs out of budget. *)
Lemma node_insert_budget n path rt :
  node_insert (budget path) n path rt <> Timeout.
Proof.
  apply (node_insert_fuel _ (budget path)); apply weight_budget.
Qed.

Lemma weight_normalize path :
  head (normalize path) = Some "/"%char.
Proof.
  unfold normalize. destruct (String.eqb path ""); [reflexivity|].
  destruct (head path) as [c|] eqn:E; [|reflexivity].
  destruct (Ascii.eqb_spec c "/") as [->|Hne]; [exact E | reflexivity].
Qed.

(** ** Trees reachable from the empty tree *)

Lemma tree_insert_inv t path rt t' :
  tree_inv t -> tree_insert t path rt = Done t' -> tree_inv t'.
Proof.
  unfold tree_insert, tree_inv. intros Hinv.
  destruct (node_insert _ _ _ _) as [r| |] eqn:E; simpl; try discriminate.
  intros [= <-]. simpl. eapply node_insert_inv; eauto.
Qed.

Lemma insert_all_inv ops : forall t t',
  tree_inv t -> insert_all t ops = Done t' -> tree_inv t'.
Proof.
  induction ops as [|[p r] ops IH]; intros t t' Hinv; simpl.
  - now intros [= <-].
  - destruct (tree_insert t p r) as [t1| |] eqn:E; simpl; try discriminate.
    apply IH. eapply tree_insert_inv; eauto.
Qed.

Lemma node_inv_reachable m n : reachable m n -> node_inv n -> node_inv m.
Proof.
  induction 1 as [n | m c n Hc _ IH | m pc n Hpc _ IH]; intros Hinv; auto.
  - apply IH. inversion Hinv as [x H1 H2 H3 H4]; subst x.
    rewrite Forall_forall in H3. auto.
  - apply IH. inversion Hinv as [x H1 H2 H3 H4]; subst x. auto.
Qed.

Lemma node_inv_distinct n i j ci cj :
  node_inv n ->
  children n !! i = Some ci -> children n !! j = Some cj -> i <> j ->
  nType ci = static /\ nType cj = static /\
  exists bi bj, head (prefix ci) = Some bi /\ head (prefix cj) = Some bj /\
                bi <> bj.
Proof.
  intros Hinv Hi Hj Hij. inversion Hinv as [x H1 H2 H3 H4]; subst x.
  rewrite Forall_lookup in H1.
  destruct (H1 _ _ Hi) as [Hti Hpi], (H1 _ _ Hj) as [Htj Hpj].
  split; [auto|]. split; [auto|].
  destruct (head (prefix ci)) as [bi|] eqn:Ebi;
    [|apply head_None in Ebi; congruence].
  destruct (head (prefix cj)) as [bj|] eqn:Ebj;
    [|apply head_None in Ebj; congruence].
  exists bi, bj. repeat split. intros ->.
  apply Hij. eapply NoDup_lookup; [exact H2| |].
  - rewrite list_lookup_fmap, Hi. simpl. unfold first_byte. now rewrite Ebi.
  - rewrite list_lookup_fmap, Hj. simpl. unfold first_byte. now rewrite Ebj.
Qed.

(** ** The budget suffices for [node.search] on a tree with the invariant

    On an arbitrary node value a static child with an empty prefix would
    make [node.search] call itself on the same path for ever; the
    invariant excludes such children. *)

Lemma node_inv_child n c :
  node_inv n -> c ∈ children n ->
  nType c = static /\ prefix c <> "" /\ node_inv c.
Proof.
  intros Hinv Hc. inversion Hinv as [x H1 H2 H3 H4]; subst x.
  rewrite Forall_forall in H1, H3. destruct (H1 _ Hc). auto.
Qed.

Lemma node_inv_lookup n i c :
  node_inv n -> children n !! i = Some c -> node_inv c.
Proof.
  intros Hinv Hi. eapply node_inv_child; eauto using list_elem_of_lookup_2.
Qed.

Lemma node_inv_param n pc :
  node_inv n -> paramChild n = Some pc -> node_inv pc.
Proof. intros Hinv Hpc. inversion Hinv; auto. Qed.

Lemma nonempty_length s : s <> "" -> 0 < String.length s.
Proof. destruct s; simpl; [congruence | lia]. Qed.

Lemma search_path_cases path :
  String.eqb path "/" || String.eqb path "" = false ->
  path <> "/" /\ path <> "".
Proof.
  destruct (String.eqb_spec path "/"), (String.eqb_spec path "");
    simpl; try discriminate; auto.
Qed.

Lemma node_search_fuel f1 : forall f2 n path ps,
  node_inv n -> weight path < f1 -> weight path < f2 ->
  node_search f1 n path ps = node_search f2 n path ps /\
  node_search f1 n path ps <> Timeout.
Proof.
  induction f1 as [|f1 IH]; intros [|f2] n path ps Hinv H1 H2; try lia.
  assert (Hcont : forall target sub ps',
             node_inv target ->
             (sub <> "" -> weight sub < weight path) ->
             continue_search f1 target sub ps' = continue_search f2 target sub ps'
             /\ continue_search f1 target sub ps' <> Timeout).
  { intros target sub ps' Ht Hw. unfold continue_search.
    destruct (String.eqb_spec sub ""); [split; [reflexivity | discriminate]|].
    apply IH; auto; specialize (Hw n0); lia. }
  rewrite !node_search_unfold.
  destruct (String.eqb path "/" || String.eqb path "") eqn:Ep;
    [split; [reflexivity | discriminate]|].
  apply search_path_cases in Ep as [Hp1 Hp2].
  destruct (next_segment (TrimPrefix path "/")) as [segment remaining] eqn:Hseg.
  destruct (find_static segment (children n)) as [child|] eqn:Ef.
  - apply find_static_Some in Ef as (Hin & _ & Hpre).
    destruct (node_inv_child _ _ Hinv Hin) as (_ & Hne & Hc).
    apply Hcont; auto. intros Hrest.
    eapply weight_rest; eauto using nonempty_length, prefix_length.
  - destruct (paramChild n) as [pc|] eqn:Epc;
      [|split; [reflexivity | discriminate]].
    apply Hcont; eauto using node_inv_param.
    intros Hrem. eapply weight_remaining; eauto.
Qed.

(** Under the invariant at most one child can match a segment, so the
    search loop finds a matching child wherever it stands in the list. *)
Lemma find_static_unique segment cs c :
  Forall (fun c => nType c = static /\ prefix c <> "") cs ->
  NoDup (map first_byte cs) ->
  c ∈ cs -> HasPrefix segment (prefix c) = true ->
  find_static segment cs = Some c.
Proof.
  induction cs as [|c0 cs IH]; intros HF HN Hin Hp; [inversion Hin|].
  apply Forall_cons in HF as [[Hst0 Hne0] HF].
  simpl in HN. apply NoDup_cons in HN as [Hnot HN].
  simpl. rewrite Hst0. simpl.
  apply elem_of_cons in Hin as [<-|Hin].
  - rewrite Hp. simpl. pose proof (prefix_length _ _ Hp) as Hl.
    destruct (Nat.eqb_spec (String.length segment) (String.length (prefix c)));
      simpl; [reflexivity|].
    destruct (Nat.ltb_spec (String.length (prefix c)) (String.length segment));
      [reflexivity | lia].
  - destruct (HasPrefix segment (prefix c0)) eqn:Ep0; simpl; [|apply IH; auto].
    exfalso. apply Hnot. apply list_elem_of_fmap. exists c. split; [|exact Hin].
    rewrite Forall_forall in HF. destruct (HF _ Hin) as [_ Hne].
    apply prefix_lcp in Hp, Ep0.
    destruct (lcp_pos_head segment (prefix c)) as (b & Hb1 & Hb2).
    { rewrite Hp. now apply nonempty_length. }
    destruct (lcp_pos_head segment (prefix c0)) as (b0 & Hb3 & Hb4).
    { rewrite Ep0. now apply nonempty_length. }
    unfold first_byte. congruence.
Qed.

Lemma find_static_inv n segment c :
  node_inv n -> c ∈ children n -> HasPrefix segment (prefix c) = true ->
  find_static segment (children n) = Some c.
Proof.
  intros Hinv. inversion Hinv as [x H1 H2 H3 H4]; subst x.
  now apply find_static_unique.
Qed.

(** ** Bytes occurring in a path *)

Lemma has_byte_app c a b :
  has_byte c (a +:+ b) = has_byte c a || has_byte c b.
Proof.
  induction a as [|x a IH]; [reflexivity|].
  rewrite append_cons. simpl. rewrite IH. now rewrite orb_assoc.
Qed.

Lemma has_byte_drop c k s : has_byte c s = false -> has_byte c (drop k s) = false.
Proof.
  revert s; induction k as [|k IH]; intros [|x s]; simpl; auto.
  intros H. apply orb_false_iff in H as [_ H]. auto.
Qed.

Lemma has_byte_trim c path :
  has_byte c path = false -> has_byte c (TrimPrefix path "/") = false.
Proof.
  unfold TrimPrefix. destruct (HasPrefix path "/"); auto.
  apply has_byte_drop.
Qed.

Lemma colon_free_segment path segment remaining :
  colon_free path ->
  next_segment (TrimPrefix path "/") = (segment, remaining) ->
  colon_free segment /\ colon_free remaining.
Proof.
  unfold colon_free. intros Hp Hseg.
  apply (has_byte_trim ":") in Hp.
  rewrite (next_segment_app _ _ _ Hseg), has_byte_app in Hp.
  now apply orb_false_iff in Hp.
Qed.

Lemma colon_free_rest k segment remaining :
  colon_free segment -> colon_free remaining ->
  colon_free (rest_path k segment remaining).
Proof.
  unfold colon_free, rest_path. intros Hs Hr.
  destruct (Nat.eqb k (String.length segment)); [exact Hr|].
  rewrite !has_byte_app, Hr, (has_byte_drop _ _ _ Hs). reflexivity.
Qed.

Lemma colon_free_not_param segment :
  colon_free segment -> is_param (segment_type segment) = false.
Proof.
  unfold colon_free, segment_type.
  destruct segment as [|c s]; [reflexivity|]. simpl.
  intros H. apply orb_false_iff in H as [-> _].
  now destruct (Ascii.eqb c "*").
Qed.

Lemma HasPrefix_refl s : HasPrefix s s = true.
Proof.
  induction s as [|c s IH]; [reflexivity|].
  rewrite HasPrefix_cons, Ascii.eqb_refl. exact IH.
Qed.

(** ** Searching a literal path that has just been inserted *)

Lemma rest_path_refl segment remaining :
  rest_path (String.length segment) segment remaining = remaining.
Proof. unfold rest_path. now rewrite Nat.eqb_refl. Qed.

Lemma node_search_inserted fi : forall n path rt n',
  node_inv n -> colon_free path ->
  node_insert fi n path rt = Done n' ->
  forall fs ps, weight path < fs ->
    node_search fs n' path ps = Done (Some rt, ps).
Proof.
  induction fi as [|fi IH]; intros n path rt n' Hinv Hcf Hins fs ps Hfs;
    [discriminate|].
  pose proof (node_insert_inv _ _ _ _ _ Hinv Hins) as Hinv'.
  destruct fs as [|fs]; [lia|].
  assert (Hcont : forall target sub target',
             node_inv target -> colon_free sub ->
             (sub <> "" -> weight sub < weight path) ->
             continue_insert fi target sub rt = Done target' ->
             continue_search fs target' sub ps = Done (Some rt, ps)).
  { intros target sub target' Ht Hsub Hw.
    unfold continue_insert, continue_search.
    destruct (String.eqb_spec sub "") as [->|Hne].
    - now intros [= <-].
    - intros Hi. eapply IH; eauto. specialize (Hw Hne). lia. }
  rewrite node_insert_unfold in Hins. rewrite node_search_unfold.
  destruct (String.eqb_spec path "/") as [->|Hp].
  { injection Hins as <-. reflexivity. }
  destruct (next_segment (TrimPrefix path "/")) as [segment remaining] eqn:Hseg.
  destruct (colon_free_segment _ _ _ Hcf Hseg) as [Hcs Hcr].
  rewrite (colon_free_not_param _ Hcs) in Hins.
  destruct (find_common _ _ _) as [[[i child] k]|] eqn:Ef.
  - apply find_common_Some in Ef as (_ & Hi & Hs & Hk & Hpos & _).
    rewrite Nat.sub_0_r in Hi.
    destruct (static_target child k) as [target|] eqn:Et; [|discriminate].
    destruct (continue_insert _ _ _ _) as [target'| |] eqn:Ec; simpl in Hins;
      try discriminate.
    injection Hins as <-.
    destruct (static_target_facts _ _ _ _ Hs Hk Hpos Et)
      as (Hty & Hfb & Hne & Hpre & Hlen).
    destruct (continue_insert_header _ _ _ _ _ Ec) as (Hty' & _ & Hpre' & _).
    assert (segment <> "") as Hsne.
    { intros ->. simpl in Hk. lia. }
    assert (path <> "") as Hpne by eauto using segment_nonempty_path.
    destruct (String.eqb_spec path "") as [?|_]; [congruence|]. simpl.
    pose proof (find_static_inv _ segment target' Hinv') as Hfind.
    simpl in Hfind. rewrite Hfind.
    + rewrite Hpre', Hlen. eapply Hcont; [| | |exact Ec].
      * apply (static_target_inv child k target); eauto using node_inv_lookup.
      * now apply colon_free_rest.
      * intros Hrest. eapply weight_rest; eauto. subst k. apply lcp_le_l.
    + simpl. apply list_elem_of_lookup. exists i.
      apply list_lookup_insert_eq. eapply lookup_lt_Some; eauto.
    + now rewrite Hpre'.
  - destruct (head segment) as [c|] eqn:Eh; [|discriminate].
    destruct (continue_insert _ _ _ _) as [target'| |] eqn:Ec; simpl in Hins;
      try discriminate.
    injection Hins as <-.
    destruct (continue_insert_header _ _ _ _ _ Ec) as (Hty' & _ & Hpre' & _).
    simpl in Hty', Hpre'.
    assert (path <> "") as Hpne
      by eauto using segment_nonempty_path, head_Some_nonempty.
    destruct (String.eqb_spec path "") as [?|_]; [congruence|]. simpl.
    pose proof (find_static_inv _ segment target' Hinv') as Hfind.
    simpl in Hfind. rewrite Hfind.
    + rewrite Hpre', rest_path_refl. eapply Hcont; [| | |exact Ec]; auto.
      * apply node_inv_leaf.
      * intros Hrem. eapply weight_remaining; eauto.
    + simpl. apply elem_of_app. right. now left.
    + rewrite Hpre'. apply HasPrefix_refl.
Qed.

(** ** Patterns with a parameter segment *)

Lemma IndexByte_None s c : IndexByte s c = None -> has_byte c s = false.
Proof.
  induction s as [|x s IH]; simpl; [reflexivity|].
  destruct (Ascii.eqb x c); [discriminate|].
  destruct (IndexByte s c); [discriminate|]. auto.
Qed.

Lemma IndexByte_take s c i : IndexByte s c = Some i -> has_byte c (take i s) = false.
Proof.
  revert i; induction s as [|x s IH]; simpl; intros i; [discriminate|].
  destruct (Ascii.eqb x c) eqn:E; [now intros [= <-]|].
  destruct (IndexByte s c) as [j|]; [|discriminate].
  intros [= <-]. simpl. rewrite E. simpl. now apply IH.
Qed.

Lemma next_segment_noslash path segment remaining :
  next_segment path = (segment, remaining) -> has_byte "/" segment = false.
Proof.
  unfold next_segment. destruct (IndexByte path "/") as [i|] eqn:E;
    intros [= <- <-]; eauto using IndexByte_take, IndexByte_None.
Qed.

Lemma next_segment_parts a remaining :
  has_byte "/" a = false ->
  remaining = "" \/ head remaining = Some "/"%char ->
  next_segment (a +:+ remaining) = (a, remaining).
Proof.
  intros Ha Hrem. unfold next_segment.
  assert (IndexByte (a +:+ remaining) "/" =
          if String.eqb remaining "" then None else Some (String.length a)) as ->.
  { induction a as [|x a IH].
    - rewrite append_nil. destruct Hrem as [->|Hh]; [reflexivity|].
      destruct remaining as [|y s]; [discriminate|]. simpl in *.
      injection Hh as ->. reflexivity.
    - rewrite append_cons. simpl in *.
      apply orb_false_iff in Ha as [Hx Ha]. rewrite Hx, (IH Ha).
      now destruct (String.eqb remaining ""). }
  destruct (String.eqb_spec remaining "") as [->|Hne].
  - now rewrite append_nil_r.
  - f_equal.
    + clear. induction a as [|x a IH].
      * destruct remaining; reflexivity.
      * rewrite append_cons. cbn [String.length take]. now rewrite IH.
    + clear. induction a as [|x a IH]; [reflexivity|].
      rewrite append_cons. cbn [String.length drop]. exact IH.
Qed.

Lemma hps_app_r a b :
  has_param_segment b = true -> has_param_segment (a +:+ b) = true.
Proof.
  intros Hb. induction a as [|x a IH]; [exact Hb|].
  rewrite append_cons. simpl. rewrite IH. apply orb_true_r.
Qed.

Lemma hps_app_noslash a b :
  has_byte "/" a = false ->
  has_param_segment (a +:+ b) = true -> has_param_segment b = true.
Proof.
  induction a as [|x a IH]; [auto|].
  rewrite append_cons. simpl. intros Ha.
  apply orb_false_iff in Ha as [Hx Ha]. rewrite Hx. simpl. auto.
Qed.

Lemma segment_type_app a b :
  a <> "" -> segment_type (a +:+ b) = segment_type a.
Proof. destruct a as [|x a]; [congruence | reflexivity]. Qed.

Lemma hps_step path segment remaining :
  has_param_segment path = true ->
  next_segment (TrimPrefix path "/") = (segment, remaining) ->
  is_param (segment_type segment) = false ->
  has_param_segment remaining = true.
Proof.
  intros Hps Hseg Hst.
  pose proof (next_segment_noslash _ _ _ Hseg) as Hns.
  pose proof (next_segment_app _ _ _ Hseg) as Happ.
  rewrite TrimPrefix_slash in Happ.
  destruct path as [|c s]; [discriminate|]. simpl in Hps.
  destruct (Ascii.eqb_spec c "/") as [->|Hc].
  - subst s. simpl in Hps. apply orb_true_iff in Hps as [Hpar|Hps].
    + destruct (decide (segment = "")) as [->|Hne].
      * rewrite append_nil in Hpar.
        destruct (next_segment_remaining _ _ _ Hseg) as [->|Hh];
          [discriminate|].
        apply is_param_head in Hpar. congruence.
      * rewrite segment_type_app in Hpar by exact Hne. congruence.
    + eapply hps_app_noslash; eauto.
  - assert (String c s = segment +:+ remaining) as Heq.
    { destruct c as [[] [] [] [] [] [] [] []]; try exact Happ; congruence. }
    simpl in Hps.
    assert (has_param_segment (String c s) = true) as Hps'.
    { simpl. rewrite Hps. apply orb_true_r. }
    rewrite Heq in Hps'. eapply hps_app_noslash; eauto.
Qed.

Lemma hps_rest k segment remaining :
  has_param_segment remaining = true ->
  has_param_segment (rest_path k segment remaining) = true /\
  rest_path k segment remaining <> "".
Proof.
  intros H. unfold rest_path.
  destruct (Nat.eqb k (String.length segment)).
  - split; [exact H|]. intros ->. discriminate.
  - split; [|discriminate].
    change ("/" +:+ drop k segment +:+ remaining)
      with (("/" +:+ drop k segment) +:+ remaining).
    replace ("/" +:+ drop k segment +:+ remaining)
      with (("/" +:+ drop k segment) +:+ remaining).
    + now apply hps_app_r.
    + clear. generalize (drop k segment). intros a.
      rewrite !append_cons, !append_nil. reflexivity.
Qed.

(** An insertion along a path other than "/" does not touch the route of
    its receiver. *)
Lemma node_insert_route fuel n path rt n' :
  path <> "/" -> node_insert fuel n path rt = Done n' -> route n' = route n.
Proof.
  intros Hp. destruct fuel as [|fuel]; [discriminate|].
  rewrite node_insert_unfold.
  destruct (String.eqb_spec path "/"); [congruence|].
  destruct (next_segment (TrimPrefix path "/")) as [segment remaining].
  destruct (is_param (segment_type segment)).
  { destruct (continue_insert _ _ _ _); simpl; try discriminate.
    now intros [= <-]. }
  destruct (find_common _ _ _) as [[[i child] k]|].
  - destruct (static_target child k); [|discriminate].
    destruct (continue_insert _ _ _ _); simpl; try discriminate.
    now intros [= <-].
  - destruct (head segment); [|discriminate].
    destruct (continue_insert _ _ _ _); simpl; try discriminate.
    now intros [= <-].
Qed.

Lemma hps_not_root path : has_param_segment path = true -> path <> "/".
Proof. intros H ->. discriminate. Qed.

(** ** The parameter map during a search *)

(** Once allocated, the map stays allocated. *)
Lemma node_search_allocated fuel : forall n path m rt ps',
  node_search fuel n path (Some m) = Done (rt, ps') -> ps' <> None.
Proof.
  induction fuel as [|fuel IH]; intros n path m rt ps'; [discriminate|].
  assert (Hcont : forall target sub m0,
             continue_search fuel target sub (Some m0) = Done (rt, ps') ->
             ps' <> None).
  { intros target sub m0. unfold continue_search.
    destruct (String.eqb sub ""); [now intros [= _ <-] | apply IH]. }
  rewrite node_search_unfold.
  destruct (_ || _); [now intros [= _ <-]|].
  destruct (next_segment _) as [segment remaining].
  destruct (find_static _ _) as [child|]; [apply Hcont|].
  destruct (paramChild n) as [pc|]; [apply Hcont | now intros [= _ <-]].
Qed.

Lemma continue_search_allocated fuel target sub m rt ps' :
  continue_search fuel target sub (Some m) = Done (rt, ps') -> ps' <> None.
Proof.
  unfold continue_search. destruct (String.eqb sub "").
  - now intros [= _ <-].
  - apply node_search_allocated.
Qed.

(** The search below a node reads its route and its children only. *)
Lemma node_search_ext fuel n1 n2 path ps :
  route n1 = route n2 -> children n1 = children n2 ->
  paramChild n1 = paramChild n2 ->
  node_search fuel n1 path ps = node_search fuel n2 path ps.
Proof.
  intros Hr Hc Hp. destruct fuel as [|fuel]; [reflexivity|].
  rewrite !node_search_unfold. now rewrite Hr, Hc, Hp.
Qed.

Lemma HasPrefix_take s p k :
  HasPrefix s p = true -> HasPrefix s (take k p) = true.
Proof.
  revert s p; induction k as [|k IH]; intros s [|y p]; simpl; auto;
    try (intros; apply HasPrefix_nil).
  destruct s as [|x s]; [discriminate|].
  rewrite !HasPrefix_cons. intros H. apply andb_true_iff in H as [-> H].
  simpl. auto.
Qed.

Lemma HasPrefix_drop s p k :
  HasPrefix s p = true -> HasPrefix (drop k s) (drop k p) = true.
Proof.
  revert s p; induction k as [|k IH]; intros s [|y p]; simpl; auto;
    try (intros; apply HasPrefix_nil).
  destruct s as [|x s]; [discriminate|].
  rewrite HasPrefix_cons. intros H. apply andb_true_iff in H as [_ H].
  simpl. auto.
Qed.

Lemma str_drop_drop a b s : drop a (drop b s) = drop (b + a) s.
Proof.
  revert s; induction b as [|b IH]; intros s; [reflexivity|].
  destruct s as [|x s]; simpl; [now destruct a | apply IH].
Qed.

(** Below a split node the search continues in the cut child exactly as it
    did in the original child. *)
Lemma rest_path_cut k p segment remaining :
  k <= String.length p -> String.length p <= String.length segment ->
  rest_path (String.length (drop k p)) (drop k segment) remaining =
  rest_path (String.length p) segment remaining.
Proof.
  intros Hk Hp. unfold rest_path. rewrite !str_length_drop, str_drop_drop.
  destruct (Nat.eqb_spec (String.length p - k) (String.length segment - k)),
           (Nat.eqb_spec (String.length p) (String.length segment));
    try lia; auto.
  repeat f_equal. lia.
Qed.

Lemma trim_slash_app s : TrimPrefix ("/" +:+ s) "/" = s.
Proof. rewrite TrimPrefix_slash. reflexivity. Qed.

Lemma bind_param_allocated ps key value : bind_param ps key value <> None.
Proof. discriminate. Qed.

(** ** A literal match survives the registration of a parameterized pattern

    When a search succeeds without allocating the parameter map it has
    followed static children only.  Registering a pattern that has a
    parameter segment rewrites static nodes on its way down (it may split
    them) and ends below a parameter child, so such a search finds the same
    route afterwards. *)

Lemma rest_long_not_root k segment remaining :
  k < String.length segment -> "/" +:+ drop k segment +:+ remaining <> "/".
Proof.
  intros Hk E. apply (f_equal String.length) in E.
  rewrite !str_length_app, str_length_drop in E. simpl in E. lia.
Qed.

Lemma search_in_split fs child k c segment remaining r :
  node_inv child -> prefix child <> "" ->
  0 < k -> k < String.length (prefix child) ->
  HasPrefix segment (prefix child) = true ->
  has_byte "/" segment = false ->
  remaining = "" \/ head remaining = Some "/"%char ->
  head (drop k (prefix child)) = Some c ->
  is_static (nType child) = true ->
  weight ("/" +:+ drop k segment +:+ remaining) < fs ->
  continue_search fs child
    (rest_path (String.length (prefix child)) segment remaining) None
    = Done (Some r, None) ->
  node_search fs (split_node child k c)
    ("/" +:+ drop k segment +:+ remaining) None = Done (Some r, None).
Proof.
  intros Hinv Hne Hk Hkp Hpre Hns Hrem Hc Hst Hfs Hsearch.
  pose proof (prefix_length _ _ Hpre) as Hlen.
  destruct fs as [|fs]; [lia|].
  rewrite node_search_unfold.
  change (String.eqb ("/" +:+ drop k segment +:+ remaining) "/"
          || String.eqb ("/" +:+ drop k segment +:+ remaining) "")
    with (String.eqb (drop k segment +:+ remaining) "" || false).
  destruct (String.eqb_spec (drop k segment +:+ remaining) "") as [E|_].
  { apply (f_equal String.length) in E.
    rewrite str_length_app, str_length_drop in E. simpl in E. lia. }
  simpl orb. cbv iota.
  rewrite trim_slash_app.
  rewrite next_segment_parts by eauto using has_byte_drop.
  cbn [children split_node paramChild].
  rewrite (find_static_unique _ _ (cut_child child k c)).
  - cbn [prefix cut_child]. rewrite rest_path_cut by lia.
    revert Hsearch. unfold continue_search.
    destruct (String.eqb_spec
                (rest_path (String.length (prefix child)) segment remaining) "")
      as [_|Hsub]; [auto|].
    intros Hsearch.
    rewrite (node_search_ext _ _ child) by reflexivity.
    assert (weight (rest_path (String.length (prefix child)) segment remaining)
            < weight ("/" +:+ drop k segment +:+ remaining)) as Hw.
    { rewrite <- (rest_path_cut k (prefix child)) by lia.
      eapply weight_rest.
      - discriminate.
      - apply rest_long_not_root. lia.
      - rewrite trim_slash_app.
        apply next_segment_parts; eauto using has_byte_drop.
      - rewrite str_length_drop. lia.
      - rewrite !str_length_drop. lia.
      - rewrite rest_path_cut by lia. exact Hsub. }
    rewrite <- Hsearch.
    apply node_search_fuel; auto; lia.
  - constructor; [|constructor]. cbn [nType prefix cut_child]. split.
    + destruct (nType child); auto; discriminate.
    + eapply head_Some_nonempty; eauto.
  - simpl. constructor; [intros Hin; inversion Hin | constructor].
  - now left.
  - cbn [prefix cut_child]. now apply HasPrefix_drop.
Qed.

Lemma static_hit_preserved fq : forall n q rq n',
  node_inv n -> has_param_segment q = true ->
  node_insert fq n q rq = Done n' ->
  forall fs path r, weight path < fs ->
    node_search fs n path None = Done (Some r, None) ->
    node_search fs n' path None = Done (Some r, None).
Proof.
  induction fq as [|fq IH]; intros n q rq n' Hinv Hq Hins fs path r Hfs Hsearch;
    [discriminate|].
  pose proof (node_insert_inv _ _ _ _ _ Hinv Hins) as Hinv'.
  pose proof (node_insert_route _ _ _ _ _ (hps_not_root _ Hq) Hins) as Hroute.
  destruct fs as [|fs]; [lia|].
  rewrite node_search_unfold in Hsearch. rewrite node_search_unfold.
  rewrite Hroute.
  destruct (String.eqb path "/" || String.eqb path "") eqn:Ep; [exact Hsearch|].
  apply search_path_cases in Ep as [Hp1 Hp2].
  destruct (next_segment (TrimPrefix path "/")) as [segment remaining] eqn:Hseg.
  destruct (find_static segment (children n)) as [c|] eqn:Ef.
  2:{ destruct (paramChild n) as [pc|]; [|discriminate].
      apply continue_search_allocated in Hsearch. congruence. }
  apply find_static_Some in Ef as (Hin & Hst & Hpre).
  destruct (node_inv_child _ _ Hinv Hin) as (_ & Hne & Hc).
  pose proof (prefix_length _ _ Hpre) as Hlen.
  assert (Hsame : c ∈ children n' ->
                  continue_search fs c
                    (rest_path (String.length (prefix c)) segment remaining) None
                  = Done (Some r, None) /\
                  find_static segment (children n') = Some c).
  { intros Hin'. split; [exact Hsearch|]. now apply find_static_inv. }
  rewrite node_insert_unfold in Hins.
  destruct (String.eqb_spec q "/") as [->|Hq1]; [discriminate|].
  destruct (next_segment (TrimPrefix q "/")) as [qseg qrem] eqn:Hqseg.
  destruct (is_param (segment_type qseg)) eqn:Epar.
  { destruct (continue_insert _ _ _ _) as [pc'| |]; simpl in Hins;
      try discriminate.
    injection Hins as <-. simpl in *.
    destruct Hsame as [_ ->]; auto. }
  pose proof (hps_step _ _ _ Hq Hqseg Epar) as Hqrem.
  destruct (find_common _ _ _) as [[[i child] k]|] eqn:Efc.
  - apply find_common_Some in Efc as (_ & Hi & Hs & Hk & Hpos & _).
    rewrite Nat.sub_0_r in Hi.
    destruct (static_target child k) as [target|] eqn:Et; [|discriminate].
    destruct (continue_insert _ _ _ _) as [target'| |] eqn:Ec; simpl in Hins;
      try discriminate.
    injection Hins as <-. cbn [children set_children] in *.
    destruct (hps_rest k qseg qrem Hqrem) as [Hsubq Hsubne].
    unfold continue_insert in Ec.
    destruct (String.eqb_spec (rest_path k qseg qrem) "") as [?|_];
      [congruence|].
    destruct (continue_insert_header fq target (rest_path k qseg qrem) rq target')
      as (Hty' & _ & Hpre' & _).
    { unfold continue_insert.
      destruct (String.eqb_spec (rest_path k qseg qrem) ""); [congruence|auto]. }
    destruct (static_target_facts _ _ _ _ Hs Hk Hpos Et)
      as (Hty & Hfb & Htne & _ & Htlen).
    apply list_elem_of_lookup_1 in Hin as [j Hj].
    destruct (decide (j = i)) as [->|Hji].
    + (* the search goes through the child that the insertion rewrites *)
      assert (c = child) as -> by congruence.
      assert (HasPrefix segment (prefix target') = true) as Hpre2.
      { rewrite Hpre'. revert Et. unfold static_target.
        destruct (Nat.eqb k (String.length (prefix child)));
          [now intros [= <-]|].
        destruct (head (drop k (prefix child))); [|discriminate].
        intros [= <-]. simpl. now apply HasPrefix_take. }
      pose proof (find_static_inv _ segment target' Hinv') as Hfind.
      cbn [children set_children] in Hfind. rewrite Hfind; [| |exact Hpre2].
      2:{ apply list_elem_of_lookup. exists i.
          apply list_lookup_insert_eq. eapply lookup_lt_Some; eauto. }
      rewrite Hpre', Htlen.
      revert Et. unfold static_target.
      destruct (Nat.eqb_spec k (String.length (prefix child))) as [Ek|Ek].
      * intros [= <-]. rewrite Ek. revert Hsearch. unfold continue_search.
        destruct (String.eqb_spec
                    (rest_path (String.length (prefix child)) segment remaining)
                    "") as [_|Hsub].
        -- rewrite (node_insert_route _ _ _ _ _ (hps_not_root _ Hsubq) Ec).
           auto.
        -- intros Hsearch. eapply IH; eauto.
           assert (weight (rest_path (String.length (prefix child))
                             segment remaining) < weight path);
             [|lia].
           eapply weight_rest; eauto using nonempty_length.
      * destruct (head (drop k (prefix child))) as [c0|] eqn:Ehd;
          [|discriminate].
        intros [= <-].
        assert (k < String.length (prefix child)) as Hklt.
        { pose proof (lcp_le_r qseg (prefix child)). lia. }
        assert (rest_path k segment remaining
                = "/" +:+ drop k segment +:+ remaining) as Hrest.
        { unfold rest_path.
          destruct (Nat.eqb_spec k (String.length segment)); [lia|reflexivity]. }
        assert (weight (rest_path k segment remaining) < weight path) as Hw.
        { eapply weight_rest; eauto; [lia|]. rewrite Hrest. discriminate. }
        unfold continue_search. rewrite Hrest in *.
        change (String.eqb ("/" +:+ drop k segment +:+ remaining) "")
          with false. cbv iota.
        eapply IH; [ | exact Hsubq | exact Ec | lia | ].
        -- eapply static_target_inv with (child := child) (k := k); auto.
           unfold static_target.
           destruct (Nat.eqb_spec k (String.length (prefix child))); [lia|].
           now rewrite Ehd.
        -- apply search_in_split; auto; try lia.
           ++ eapply next_segment_noslash; eauto.
           ++ eapply next_segment_remaining; eauto.
    + destruct Hsame as [_ ->]; auto.
      apply list_elem_of_lookup. exists j.
      rewrite list_lookup_insert_ne; auto.
  - destruct (head qseg) as [c0|]; [|discriminate].
    destruct (continue_insert _ _ _ _) as [target'| |]; simpl in Hins;
      try discriminate.
    injection Hins as <-. cbn [children set_children] in *.
    destruct Hsame as [_ ->]; auto.
    apply elem_of_app. now left.
Qed.

(** ** Tree-level statements *)

Lemma normalize_cases path :
  (path = "" /\ normalize path = "/") \/
  (head path = Some "/"%char /\ normalize path = path) \/
  (exists c s, path = String c s /\ c <> "/"%char /\
               normalize path = "/" +:+ path).
Proof.
  destruct path as [|c s]; [left; split; reflexivity|]. right.
  unfold normalize. cbn [String.eqb head].
  destruct (Ascii.eqb_spec c "/") as [->|Hc]; [left; split; reflexivity|].
  right. exists c, s. auto.
Qed.

Lemma node_search_normalize fuel n path ps :
  node_search (S fuel) n (normalize path) ps =
  node_search (S fuel) n (search_path path) ps.
Proof.
  destruct (normalize_cases path)
    as [[-> ->] | [[Hh ->] | (c & s & -> & Hc & ->)]]; try reflexivity.
  - destruct path; [discriminate | reflexivity].
  - unfold search_path. cbn [String.eqb].
    rewrite !node_search_unfold.
    rewrite trim_slash_app.
    assert (TrimPrefix (String c s) "/" = String c s) as ->.
    { unfold TrimPrefix. rewrite HasPrefix_cons.
      now destruct (Ascii.eqb_spec c "/"). }
    assert (String.eqb (String c s) "/" = false) as ->.
    { apply String.eqb_neq. congruence. }
    reflexivity.
Qed.

Lemma tree_insert_Done t path rt t' :
  tree_insert t path rt = Done t' ->
  node_insert (budget (normalize path)) (root t) (normalize path) rt
  = Done (root t').
Proof.
  unfold tree_insert.
  destruct (node_insert _ _ _ _) as [r| |]; simpl; try discriminate.
  now intros [= <-].
Qed.

Lemma weight_search_path path :
  weight (normalize path) <= S (weight (search_path path)).
Proof.
  destruct (normalize_cases path)
    as [[-> ->] | [[Hh ->] | (c & s & -> & Hc & ->)]].
  - simpl; lia.
  - destruct path; [discriminate|]. unfold search_path. simpl String.eqb. lia.
  - unfold search_path. cbn [String.eqb]. rewrite weight_slash. unfold weight.
    destruct c as [[] [] [] [] [] [] [] []]; simpl; lia.
Qed.

(** [tree.search] on a tree with the invariant, from a node-level result
    for the normalized path. *)
Lemma tree_search_from_node t path r ps :
  tree_inv t ->
  (forall fs, weight (normalize path) < fs ->
     node_search fs (root t) (normalize path) None = Done (Some r, ps)) ->
  tree_search t path = Done (Some r, ps).
Proof.
  intros Hinv H. unfold tree_search. fold (search_path path).
  assert (node_search (budget (search_path path)) (root t) (search_path path)
            None = Done (Some r, ps)) as ->; [|reflexivity].
  pose proof (weight_budget (search_path path)) as Hb.
  destruct (node_search_fuel (budget (search_path path))
              (S (budget (search_path path))) (root t) (search_path path) None
              Hinv Hb) as [-> _]; [lia|].
  rewrite <- node_search_normalize. apply H.
  pose proof (weight_search_path path). lia.
Qed.

Lemma tree_search_to_node t path r ps :
  tree_inv t ->
  tree_search t path = Done (Some r, ps) ->
  forall fs, weight (normalize path) < fs ->
    node_search fs (root t) (normalize path) None = Done (Some r, ps).
Proof.
  intros Hinv. unfold tree_search. fold (search_path path).
  destruct (node_search _ _ _ _) as [[rt ps']| |] eqn:E; simpl;
    try discriminate.
  destruct rt as [r'|]; [|discriminate]. intros [= -> ->] fs Hfs.
  pose proof (weight_budget (search_path path)) as Hb.
  pose proof (weight_search_path path) as Hw.
  destruct (node_search_fuel fs (S (budget (search_path path))) (root t)
              (normalize path) None Hinv Hfs) as [-> _]; [lia|].
  rewrite node_search_normalize. rewrite <- E.
  apply node_search_fuel; auto; lia.
Qed.

Lemma colon_free_normalize path : colon_free path -> colon_free (normalize path).
Proof.
  unfold colon_free. intros H.
  destruct (normalize_cases path)
    as [[-> ->] | [[Hh ->] | (c & s & -> & Hc & ->)]]; auto;
    now rewrite has_byte_app, H.
Qed.

(** [node.search] never panics. *)
Lemma node_search_no_panic fuel : forall n path ps,
  node_search fuel n path ps <> Panic.
Proof.
  induction fuel as [|fuel IH]; intros n path ps; [discriminate|].
  rewrite node_search_unfold. destruct (_ || _); [discriminate|].
  destruct (next_segment _) as [segment remaining].
  unfold continue_search.
  destruct (find_static _ _) as [child|].
  - destruct (String.eqb _ ""); [discriminate | apply IH].
  - destruct (paramChild n) as [pc|]; [|discriminate].
    destruct (String.eqb _ ""); [discriminate | apply IH].
Qed.

(** [tree.search] returns on every tree with the invariant. *)
Lemma tree_search_total t path :
  tree_inv t -> exists rt ps, tree_search t path = Done (rt, ps).
Proof.
  intros Hinv. unfold tree_search. fold (search_path path).
  destruct (node_search_fuel (budget (search_path path))
              (budget (search_path path)) (root t) (search_path path) None Hinv)
    as [_ Hne]; try apply weight_budget.
  pose proof (node_search_no_panic (budget (search_path path)) (root t)
                (search_path path) None) as Hnp.
  destruct (node_search _ _ _ _) as [[rt ps]| |] eqn:E; simpl;
    try congruence.
  destruct rt; eauto.
Qed.

(** * The radix tree: invariant, priority and registration *)

Lemma insert_all_newTree_inv ops t :
  insert_all newTree ops = Done t -> tree_inv t.
Proof. apply insert_all_inv. exact node_inv_newTree. Qed.

(** C8 — Sibling first-byte disjointness.  In every tree obtained from the
    empty tree by a sequence of insertions, any two distinct entries of the
    child list of any node are static nodes with non-empty prefixes that
    start with different bytes.  (A partially overlapping insertion keeps
    this by replacing the overlapped child by a split node that holds the
    common prefix and has the cut child as its first child.) *)
Theorem sibling_first_bytes_disjoint
    (ops : list (string * Route)) (t : tree) (m : node) (i j : nat)
    (ci cj : node) :
  insert_all newTree ops = Done t ->
  reachable m (root t) ->
  children m !! i = Some ci -> children m !! j = Some cj -> i <> j ->
  nType ci = static /\ nType cj = static /\
  exists bi bj, head (prefix ci) = Some bi /\ head (prefix cj) = Some bj /\
                bi <> bj.
Proof.
  intros Hops Hm. apply node_inv_distinct.
  eapply node_inv_reachable; [exact Hm|].
  eapply insert_all_newTree_inv; eauto.
Qed.

Lemma sibling_first_bytes_disjoint_witness :
  insert_all newTree [("/ab", route_ab); ("/ac", route_ac)] = Done tree_ab_ac /\
  exists bi bj, head "b" = Some bi /\ head "c" = Some bj /\ bi <> bj.
Proof.
  split; [reflexivity|].
  refine (proj2 (proj2 (sibling_first_bytes_disjoint
            [("/ab", route_ab); ("/ac", route_ac)] tree_ab_ac
            (Node static "a" "a" "" None
               [Node static "b" "b" "" (Some route_ab) [] None;
                Node static "c" "c" "" (Some route_ac) [] None] None)
            0 1 _ _ eq_refl _ eq_refl eq_refl _))).
  - eapply reach_child; [left | apply reach_self].
  - discriminate.
Defined.

(** X26 — Static over parameter, for the last two registrations.  On any
    tree built by registrations, take a literal pattern [p] (no parameter
    marker ":" in it) and a pattern [q] with a parameter segment, registered
    one after the other in either order.  A search for the path [p] then
    returns the route of [p], with no parameter bound, whatever [q] would
    match. *)
Theorem static_route_has_priority
    (ops : list (string * Route)) (t : tree) (p q : string) (rs rq : Route) :
  insert_all newTree ops = Done t ->
  colon_free p ->
  has_param_segment (normalize q) = true ->
  (forall t1 t2,
      tree_insert t p rs = Done t1 -> tree_insert t1 q rq = Done t2 ->
      tree_search t2 p = Done (Some rs, None)) /\
  (forall t1 t2,
      tree_insert t q rq = Done t1 -> tree_insert t1 p rs = Done t2 ->
      tree_search t2 p = Done (Some rs, None)).
Proof.
  intros Hops Hp Hq. apply insert_all_newTree_inv in Hops.
  apply colon_free_normalize in Hp.
  split; intros t1 t2 H1 H2.
  - pose proof (tree_insert_inv _ _ _ _ Hops H1) as Hinv1.
    pose proof (tree_insert_inv _ _ _ _ Hinv1 H2) as Hinv2.
    apply tree_insert_Done in H1, H2.
    apply tree_search_from_node; [exact Hinv2|]. intros fs Hfs.
    eapply (static_hit_preserved _ (root t1)); eauto.
    eapply (node_search_inserted _ (root t)); eauto.
  - pose proof (tree_insert_inv _ _ _ _ Hops H1) as Hinv1.
    pose proof (tree_insert_inv _ _ _ _ Hinv1 H2) as Hinv2.
    apply tree_insert_Done in H1, H2.
    apply tree_search_from_node; [exact Hinv2|]. intros fs Hfs.
    eapply (node_search_inserted _ (root t1)); eauto.
Qed.

Lemma static_route_has_priority_witness :
  insert_all newTree [("/users/:id", route_user); ("/users/me", route_me)]
    = Done tree_users /\
  insert_all newTree [("/users/me", route_me); ("/users/:id", route_user)]
    = Done tree_users /\
  tree_search tree_users "/users/me" = Done (Some route_me, None).
Proof.
  split; [reflexivity|]. split; [reflexivity|].
  refine (proj1 (static_route_has_priority [] newTree "/users/me" "/users/:id"
                   route_me route_user eq_refl eq_refl eq_refl) _ tree_users
                eq_refl eq_refl).
Defined.

(** C2 — Static-over-parameter priority, evaluated where it fails.  With
    "/users/me" and "/users/:id" registered, in either order, the
    registration of "/usersme" finds the child "users" contained in its
    segment and hands the rest on as the path "/me": it ends in the node
    of "/users/me" and replaces the route there.  A search for "/users/me",
    which the static pattern and the parameterized pattern both match,
    returns the route of "/usersme", not the route of "/users/me"; the
    parameterized route still answers the other paths. *)
Theorem static_route_displaced :
  (exists t,
     insert_all newTree [("/users/me", route_me); ("/users/:id", route_user);
                         ("/usersme", route_usersme)] = Done t /\
     tree_search t "/users/me" = Done (Some route_usersme, None) /\
     tree_search t "/users/me" <> Done (Some route_me, None) /\
     tree_search t "/users/7" = Done (Some route_user, Some {["id" := "7"]})) /\
  (exists t,
     insert_all newTree [("/users/:id", route_user); ("/users/me", route_me);
                         ("/usersme", route_usersme)] = Done t /\
     tree_search t "/users/me" = Done (Some route_usersme, None) /\
     tree_search t "/users/me" <> Done (Some route_me, None)).
Proof.
  split; eexists; (split; [reflexivity|]);
    repeat split; try reflexivity; discriminate.
Qed.

(** ** Routes below parameter children *)

Lemma all_marked_leaf t c p k : all_marked (Node t c p k None [] None).
Proof. constructor; simpl; [discriminate | constructor | discriminate]. Qed.

Lemma params_marked_leaf t c p k r : params_marked (Node t c p k r [] None).
Proof. constructor; simpl; [constructor | discriminate]. Qed.

Lemma all_marked_set_route n rt :
  all_marked n -> marked rt -> all_marked (set_route n (Some rt)).
Proof.
  intros [m H1 H2 H3] Hrt. constructor; simpl; auto. now intros r [= <-].
Qed.

Lemma params_marked_set_route n r :
  params_marked n -> params_marked (set_route n r).
Proof. intros [m H1 H2]. now constructor. Qed.

Lemma all_marked_target child k target :
  all_marked child -> static_target child k = Some target -> all_marked target.
Proof.
  unfold static_target.
  destruct (Nat.eqb k (String.length (prefix child))); [now intros ? [= <-]|].
  destruct (head (drop k (prefix child))) as [c|]; [|discriminate].
  intros [m H1 H2 H3] [= <-].
  constructor; simpl; [discriminate | | discriminate].
  constructor; [|constructor]. now constructor.
Qed.

Lemma params_marked_target child k target :
  params_marked child -> static_target child k = Some target ->
  params_marked target.
Proof.
  unfold static_target.
  destruct (Nat.eqb k (String.length (prefix child))); [now intros ? [= <-]|].
  destruct (head (drop k (prefix child))) as [c|]; [|discriminate].
  intros [m H1 H2] [= <-].
  constructor; simpl; [|discriminate].
  constructor; [|constructor]. now constructor.
Qed.

Lemma all_marked_insert fuel : forall n path rt n',
  all_marked n -> marked rt ->
  node_insert fuel n path rt = Done n' -> all_marked n'.
Proof.
  induction fuel as [|fuel IH]; intros n path rt n' Hn Hrt; [discriminate|].
  assert (Hcont : forall target sub target',
             all_marked target ->
             continue_insert fuel target sub rt = Done target' ->
             all_marked target').
  { intros target sub target' Ht. unfold continue_insert.
    destruct (String.eqb sub "").
    - intros [= <-]. now apply all_marked_set_route.
    - now apply IH. }
  rewrite node_insert_unfold.
  destruct (String.eqb path "/");
    [intros [= <-]; now apply all_marked_set_route|].
  destruct (next_segment (TrimPrefix path "/")) as [segment remaining].
  inversion Hn as [m H1 H2 H3]; subst m.
  destruct (is_param (segment_type segment)).
  { destruct (continue_insert _ _ _ _) as [pc'| |] eqn:Ec; simpl;
      try discriminate.
    intros [= <-]. constructor; simpl; auto.
    intros pc [= <-]. eapply Hcont; [|exact Ec].
    unfold param_target. destruct (paramChild n) as [pc|]; auto.
    apply all_marked_leaf. }
  destruct (find_common _ _ _) as [[[i child] k]|] eqn:Ef.
  - apply find_common_Some in Ef as (_ & Hi & _).
    rewrite Nat.sub_0_r in Hi.
    destruct (static_target child k) as [target|] eqn:Et; [|discriminate].
    destruct (continue_insert _ _ _ _) as [target'| |] eqn:Ec; simpl;
      try discriminate.
    intros [= <-]. constructor; simpl; auto.
    apply Forall_insert; auto. eapply Hcont; [|exact Ec].
    apply (all_marked_target child k); auto.
    rewrite Forall_lookup in H2. eauto.
  - destruct (head segment) as [c|]; [|discriminate].
    destruct (continue_insert _ _ _ _) as [target'| |] eqn:Ec; simpl;
      try discriminate.
    intros [= <-]. constructor; simpl; auto.
    apply Forall_app; split; auto. constructor; [|constructor].
    eapply Hcont; [|exact Ec]. apply all_marked_leaf.
Qed.

Lemma has_byte_trim_inv c path :
  has_byte c (TrimPrefix path "/") = true -> has_byte c path = true.
Proof.
  rewrite TrimPrefix_slash. destruct path as [|x s]; auto.
  intros H. simpl.
  destruct x as [[] [] [] [] [] [] [] []]; simpl in *;
    try exact H; try (rewrite H; apply orb_true_r).
Qed.

Lemma has_byte_drop_inv c k s :
  has_byte c (drop k s) = true -> has_byte c s = true.
Proof.
  destruct (has_byte c s) eqn:E; [reflexivity|].
  now rewrite (has_byte_drop _ k _ E).
Qed.

Lemma colon_rest k segment remaining :
  has_byte ":" (rest_path k segment remaining) = true ->
  has_byte ":" (segment +:+ remaining) = true.
Proof.
  unfold rest_path. rewrite has_byte_app.
  destruct (Nat.eqb k (String.length segment)).
  - intros ->. apply orb_true_r.
  - rewrite !has_byte_app. simpl.
    intros H. apply orb_true_iff in H as [H| ->]; [|apply orb_true_r].
    now rewrite (has_byte_drop_inv _ _ _ H).
Qed.

Lemma params_marked_insert fuel : forall n path rt n',
  params_marked n ->
  (has_byte ":" path = true -> marked rt) ->
  node_insert fuel n path rt = Done n' -> params_marked n'.
Proof.
  induction fuel as [|fuel IH]; intros n path rt n' Hn Hrt; [discriminate|].
  assert (Hcont : forall target sub target',
             params_marked target ->
             (has_byte ":" sub = true -> has_byte ":" path = true) ->
             continue_insert fuel target sub rt = Done target' ->
             params_marked target').
  { intros target sub target' Ht Hsub. unfold continue_insert.
    destruct (String.eqb sub "").
    - intros [= <-]. now apply params_marked_set_route.
    - apply IH; auto. }
  rewrite node_insert_unfold.
  destruct (String.eqb path "/");
    [intros [= <-]; now apply params_marked_set_route|].
  destruct (next_segment (TrimPrefix path "/")) as [segment remaining] eqn:Hseg.
  pose proof (next_segment_app _ _ _ Hseg) as Happ.
  assert (Hparts : has_byte ":" (segment +:+ remaining) = true ->
                   has_byte ":" path = true).
  { rewrite <- Happ. apply has_byte_trim_inv. }
  inversion Hn as [m H1 H2]; subst m.
  destruct (is_param (segment_type segment)) eqn:Epar.
  { assert (marked rt) as Hm.
    { apply Hrt, Hparts. rewrite has_byte_app.
      apply is_param_head in Epar. destruct segment as [|c s]; [discriminate|].
      injection Epar as ->. reflexivity. }
    unfold continue_insert.
    destruct (String.eqb remaining "").
    - simpl. intros [= <-]. constructor; simpl; auto.
      intros pc [= <-]. apply all_marked_set_route; auto.
      unfold param_target. destruct (paramChild n) as [pc|]; auto.
      apply all_marked_leaf.
    - destruct (node_insert _ _ _ _) as [pc'| |] eqn:Ec; simpl;
        try discriminate.
      intros [= <-]. constructor; simpl; auto.
      intros pc [= <-]. eapply all_marked_insert; [| |exact Ec]; auto.
      unfold param_target. destruct (paramChild n) as [pc|]; auto.
      apply all_marked_leaf. }
  destruct (find_common _ _ _) as [[[i child] k]|] eqn:Ef.
  - apply find_common_Some in Ef as (_ & Hi & _).
    rewrite Nat.sub_0_r in Hi.
    destruct (static_target child k) as [target|] eqn:Et; [|discriminate].
    destruct (continue_insert _ _ _ _) as [target'| |] eqn:Ec; simpl;
      try discriminate.
    intros [= <-]. constructor; simpl; auto.
    apply Forall_insert; auto. eapply Hcont; [| |exact Ec].
    + apply (params_marked_target child k); auto.
      rewrite Forall_lookup in H1. eauto.
    + intros H. apply Hparts. now apply colon_rest in H.
  - destruct (head segment) as [c|]; [|discriminate].
    destruct (continue_insert _ _ _ _) as [target'| |] eqn:Ec; simpl;
      try discriminate.
    intros [= <-]. constructor; simpl; auto.
    apply Forall_app; split; auto. constructor; [|constructor].
    eapply Hcont; [| |exact Ec].
    + apply params_marked_leaf.
    + intros H. apply Hparts. rewrite has_byte_app, H. apply orb_true_r.
Qed.

Lemma all_marked_search fuel : forall n path ps r ps',
  all_marked n -> node_search fuel n path ps = Done (Some r, ps') -> marked r.
Proof.
  induction fuel as [|fuel IH]; intros n path ps r ps' Hn; [discriminate|].
  assert (Hcont : forall target sub ps0,
             all_marked target ->
             continue_search fuel target sub ps0 = Done (Some r, ps') ->
             marked r).
  { intros target sub ps0 Ht. unfold continue_search.
    destruct (String.eqb sub "").
    - intros [= Hr _]. inversion Ht; auto.
    - now apply IH. }
  inversion Hn as [m H1 H2 H3]; subst m.
  rewrite node_search_unfold.
  destruct (_ || _); [intros [= Hr _]; auto|].
  destruct (next_segment _) as [segment remaining].
  destruct (find_static _ _) as [child|] eqn:Ef.
  - apply find_static_Some in Ef as (Hin & _).
    apply Hcont. rewrite Forall_forall in H2. auto.
  - destruct (paramChild n) as [pc|]; [|discriminate]. apply Hcont; auto.
Qed.

(** A search that returns a route has either left the parameter map alone
    or found the route below a parameter child. *)
Lemma params_marked_search fuel : forall n path ps r ps',
  params_marked n ->
  node_search fuel n path ps = Done (Some r, ps') ->
  ps' = ps \/ marked r.
Proof.
  induction fuel as [|fuel IH]; intros n path ps r ps' Hn; [discriminate|].
  inversion Hn as [m H1 H2]; subst m.
  rewrite node_search_unfold.
  destruct (_ || _); [intros [= _ <-]; auto|].
  destruct (next_segment _) as [segment remaining].
  destruct (find_static _ _) as [child|] eqn:Ef.
  - apply find_static_Some in Ef as (Hin & _).
    unfold continue_search. destruct (String.eqb _ "").
    + intros [= _ <-]; auto.
    + apply IH. rewrite Forall_forall in H1. auto.
  - destruct (paramChild n) as [pc|] eqn:Epc; [|discriminate].
    intros H. right. specialize (H2 _ eq_refl).
    revert H. unfold continue_search. destruct (String.eqb _ "").
    + intros [= Hr _]. inversion H2; auto.
    + apply all_marked_search; auto.
Qed.

Lemma node_search_bound fuel : forall n path ps rt ps',
  bound_params ps ->
  node_search fuel n path ps = Done (rt, ps') -> bound_params ps'.
Proof.
  induction fuel as [|fuel IH]; intros n path ps rt ps' Hps; [discriminate|].
  assert (Hcont : forall target sub ps0,
             bound_params ps0 ->
             continue_search fuel target sub ps0 = Done (rt, ps') ->
             bound_params ps').
  { intros target sub ps0 H0. unfold continue_search.
    destruct (String.eqb sub ""); [now intros [= _ <-] | now apply IH]. }
  rewrite node_search_unfold.
  destruct (_ || _); [now intros [= _ <-]|].
  destruct (next_segment _) as [segment remaining].
  destruct (find_static _ _) as [child|]; [now apply Hcont|].
  destruct (paramChild n) as [pc|]; [|now intros [= _ <-]].
  apply Hcont. simpl. apply insert_non_empty.
Qed.

Lemma has_byte_normalize c path :
  c <> "/"%char ->
  has_byte c (normalize path) = true -> has_byte c path = true.
Proof.
  intros Hc.
  destruct (normalize_cases path)
    as [[-> ->] | [[Hh ->] | (x & s & -> & Hx & ->)]]; auto.
  - cbn [has_byte]. destruct (Ascii.eqb_spec "/" c); [congruence | auto].
  - rewrite has_byte_app. cbn [has_byte].
    destruct (Ascii.eqb_spec "/" c); [congruence | auto].
Qed.

Lemma insert_all_params_marked ops : forall t t',
  Forall registration ops -> params_marked (root t) ->
  insert_all t ops = Done t' -> params_marked (root t').
Proof.
  induction ops as [|[p r] ops IH]; intros t t' Hreg Ht; simpl.
  - now intros [= <-].
  - apply Forall_cons in Hreg as [Hr Hreg]. unfold registration in Hr.
    simpl in Hr.
    destruct (tree_insert t p r) as [t1| |] eqn:E; simpl; try discriminate.
    apply IH; auto. apply tree_insert_Done in E.
    eapply params_marked_insert; [exact Ht| |exact E].
    unfold marked. rewrite Hr. now apply has_byte_normalize.
Qed.

Lemma tree_search_node t path r ps :
  tree_search t path = Done (Some r, ps) ->
  node_search (budget (search_path path)) (root t) (search_path path) None
  = Done (Some r, ps).
Proof.
  unfold tree_search. fold (search_path path).
  destruct (node_search _ _ _ _) as [[rt ps']| |]; simpl; try discriminate.
  destruct rt; [|discriminate]. now intros [= -> ->].
Qed.

(** X27 — Lazy parameter allocation, for patterns without ":".  On any
    tree built by registrations, whenever the search returns a route whose
    pattern holds no ":" at all the returned parameter map is nil; and a
    map that is returned holds at least one binding and comes with a route
    whose pattern holds a ":". *)
Theorem params_allocated_lazily
    (ops : list (string * Route)) (t : tree) (path : string) (r : Route)
    (ps : params) :
  Forall registration ops ->
  insert_all newTree ops = Done t ->
  tree_search t path = Done (Some r, ps) ->
  (colon_free (pattern r) -> ps = None) /\
  (forall m, ps = Some m -> m <> ∅ /\ marked r).
Proof.
  intros Hreg Hops Hsearch.
  assert (params_marked (root t)) as Hpm.
  { eapply insert_all_params_marked; eauto. apply params_marked_leaf. }
  apply tree_search_node in Hsearch.
  pose proof (params_marked_search _ _ _ _ _ _ Hpm Hsearch) as Hcase.
  pose proof (node_search_bound _ _ _ None _ _ I Hsearch) as Hbound.
  split.
  - unfold colon_free, marked in *. destruct Hcase; [auto | congruence].
  - intros m ->. split; [exact Hbound|].
    destruct Hcase; [discriminate | auto].
Qed.

Lemma params_allocated_lazily_witness :
  tree_search tree_users "/users/me" = Done (Some route_me, None) /\
  ((colon_free (pattern route_me) -> @None (gmap string string) = None) /\
   (forall m : gmap string string,
       None = Some m -> m <> ∅ /\ marked route_me)).
Proof.
  split; [reflexivity|].
  apply (params_allocated_lazily
           [("/users/:id", route_user); ("/users/me", route_me)]
           tree_users "/users/me" route_me None).
  - repeat constructor.
  - reflexivity.
  - reflexivity.
Defined.

(** C9 — Lazy parameter allocation, evaluated where it fails.  The
    pattern "/a:b" has no parameter segment: its one segment starts with
    "a".  Registered after "/a", it finds the child "a" contained in its
    segment and hands ":b" on as a path of its own, where it is read as a
    parameter segment and stored in the parameter child of "a".  The
    search for "/a:b" then returns the route of "/a:b" together with an
    allocated map that binds "b" to ":b". *)
Theorem params_allocated_for_literal_route :
  has_param_segment (pattern route_ab0) = false /\
  exists t,
    insert_all newTree [("/a", route_a); ("/a:b", route_ab0)] = Done t /\
    tree_search t "/a:b" = Done (Some route_ab0, Some {["b" := ":b"]}) /\
    tree_search t "/a:b" <> Done (Some route_ab0, None).
Proof.
  split; [reflexivity|]. eexists. split; [reflexivity|].
  split; [reflexivity|discriminate].
Qed.

(** * Concrete registrations *)

(** C6 — Parameter extraction.  After the registration of
    "/posts/:postId/comments/:commentId" in the empty tree, the search for
    "/posts/123/comments/456" returns that route and a parameter map that
    is exactly postId = "123", commentId = "456". *)
Theorem two_parameters_extracted (r : Route) :
  exists t,
    tree_insert newTree "/posts/:postId/comments/:commentId" r = Done t /\
    tree_search t "/posts/123/comments/456"
    = Done (Some r, Some (<["commentId" := "456"]> {["postId" := "123"]})).
Proof.
  eexists. split; reflexivity.
Qed.

(** C3 — Parameter fallback, evaluated where it fails.  With "/users/me"
    and "/users/:id" registered (in either order), the search for
    "/users/mexico" enters the static child "me", whose prefix is a prefix
    of the segment, and returns what is found below it: no route.  The
    parameter child of "users" is not tried. *)
Theorem mexico_not_routed :
  insert_all newTree [("/users/me", route_me); ("/users/:id", route_user)]
    = Done tree_users /\
  insert_all newTree [("/users/:id", route_user); ("/users/me", route_me)]
    = Done tree_users /\
  tree_search tree_users "/users/mexico" = Done (None, None) /\
  tree_search tree_users "/users/max"
    = Done (Some route_user, Some {["id" := "max"]}).
Proof. repeat split; reflexivity. Qed.

(** Re-registration does replace the route of a literal pattern: on any
    tree built by registrations, after two registrations of a pattern
    without ":" the search for it returns the second route. *)
Lemma reregistration_literal_wins
    (ops : list (string * Route)) (t t1 t2 : tree) (p : string)
    (ra rb : Route) :
  insert_all newTree ops = Done t ->
  colon_free p ->
  tree_insert t p ra = Done t1 -> tree_insert t1 p rb = Done t2 ->
  tree_search t2 p = Done (Some rb, None).
Proof.
  intros Hops Hp H1 H2. apply insert_all_newTree_inv in Hops.
  apply colon_free_normalize in Hp.
  pose proof (tree_insert_inv _ _ _ _ Hops H1) as Hinv1.
  pose proof (tree_insert_inv _ _ _ _ Hinv1 H2) as Hinv2.
  apply tree_insert_Done in H2.
  apply tree_search_from_node; [exact Hinv2|]. intros fs Hfs.
  eapply (node_search_inserted _ (root t1)); eauto.
Qed.

(** C7 — Re-registration, evaluated where it fails.  In the tree above,
    registering "/a:b" twice more hands ":b" to the node "a" as a path of
    its own, where it is taken for a parameter segment: both routes go to
    the parameter child of "a", and the search for "/a:b" still returns the
    route of the first registration. *)
Theorem reregistration_lost :
  insert_all newTree [("/a:b", route_ab0); ("/a", route_a)] = Done tree_a_b /\
  exists t,
    insert_all tree_a_b [("/a:b", route_ab1); ("/a:b", route_ab2)] = Done t /\
    tree_search t "/a:b" = Done (Some route_ab0, None) /\
    tree_search t "/a:b" <> Done (Some route_ab2, None).
Proof.
  split; [reflexivity|]. eexists. split; [reflexivity|].
  split; [reflexivity | discriminate].
Qed.

(** C4, as stated, fails: after "/a/:id" and "/a/:slug" the search for
    "/a/x" does not bind "x" under the name "slug". *)
Lemma later_name_not_bound :
  insert_all newTree [("/a/:id", route_id); ("/a/:slug", route_slug)]
    = Done tree_id_slug /\
  tree_search tree_id_slug "/a/x"
    <> Done (Some route_slug, Some {["slug" := "x"]}).
Proof.
  split; [reflexivity|].
  intros H. vm_compute in H. discriminate.
Qed.

Lemma next_segment_single a :
  has_byte "/" a = false -> next_segment a = (a, "").
Proof.
  intros Ha.
  pose proof (next_segment_parts a "" Ha (or_introl eq_refl)) as H.
  now rewrite append_nil_r in H.
Qed.

(** C4, amended — Parameter-name collision.  Registering a parameter
    segment at a node that already has a parameter child re-uses that
    child without error: the child keeps its parameter name and only its
    route is replaced.  A search for a segment that no static child
    matches then returns the later route with the segment bound under the
    earlier name; after "/a/:id" and "/a/:slug" the search for "/a/x"
    returns the second route with "x" bound under "id". *)
Theorem param_child_reused
    (f : nat) (n pc : node) (key segment : string) (rt : Route) (ps : params) :
  paramChild n = Some pc ->
  has_byte "/" key = false ->
  has_byte "/" segment = false -> segment <> "" ->
  find_static segment (children n) = None ->
  (node_insert (S f) n ("/:" +:+ key) rt
     = Done (set_paramChild n (Some (set_route pc (Some rt)))) /\
   node_search (S f) (set_paramChild n (Some (set_route pc (Some rt))))
     ("/" +:+ segment) ps
     = Done (Some rt, bind_param ps (paramKey pc) segment)) /\
  tree_search tree_id_slug "/a/x"
    = Done (Some route_slug, Some {["id" := "x"]}).
Proof.
  intros Hpc Hkey Hseg Hne Hfind. split; [|reflexivity]. split.
  - rewrite node_insert_unfold.
    change (String.eqb ("/:" +:+ key) "/") with false. cbv iota.
    change ("/:" +:+ key) with ("/" +:+ (":" +:+ key)).
    rewrite trim_slash_app.
    rewrite (next_segment_single (":" +:+ key)) by exact Hkey.
    change (is_param (segment_type (":" +:+ key))) with true. cbv iota.
    unfold continue_insert, param_target. rewrite Hpc. reflexivity.
  - rewrite node_search_unfold.
    assert (String.eqb ("/" +:+ segment) "/" = false) as ->.
    { apply String.eqb_neq. change ("/" +:+ segment) with (String "/" segment).
      congruence. }
    change (String.eqb ("/" +:+ segment) "") with false. cbv iota.
    cbn [orb]. rewrite trim_slash_app.
    rewrite (next_segment_single segment) by exact Hseg.
    cbn [children set_paramChild paramChild]. rewrite Hfind.
    unfold continue_search. reflexivity.
Qed.

Lemma param_child_reused_witness :
  (node_insert 9
     (Node static "a" "a" "" None []
        (Some (Node param zero_byte ":id" "id" (Some route_id) [] None)))
     "/:slug" route_slug
   = Done (Node static "a" "a" "" None []
             (Some (Node param zero_byte ":id" "id" (Some route_slug) [] None)))
   /\
   node_search 9
     (Node static "a" "a" "" None []
        (Some (Node param zero_byte ":id" "id" (Some route_slug) [] None)))
     "/x" None
   = Done (Some route_slug, Some {["id" := "x"]})) /\
  tree_search tree_id_slug "/a/x"
    = Done (Some route_slug, Some {["id" := "x"]}).
Proof.
  apply (param_child_reused 8
           (Node static "a" "a" "" None []
              (Some (Node param zero_byte ":id" "id" (Some route_id) [] None)))
           (Node param zero_byte ":id" "id" (Some route_id) [] None)
           "slug" "x" route_slug None);
    [reflexivity | reflexivity | reflexivity | discriminate | reflexivity].
Defined.

(** * Properties of the middleware chain *)

Module MiddlewareProps.

Import Middleware.

Local Open Scope list_scope.

Section ChainProps.

Context {HandlerFunc : Type}.

Lemma chain_loop_prefix :
  forall (l1 l2 : list (@MiddlewareFunc HandlerFunc)) (h : HandlerFunc),
  chain_loop (l1 ++ l2) (length l1) h = nested l1 h.
Proof.
  induction l1 as [|mw l1 IH] using rev_ind; intros l2 h; [reflexivity|].
  rewrite length_app, Nat.add_1_r. simpl chain_loop.
  rewrite <- app_assoc. change ([mw] ++ l2)%list with (mw :: l2).
  rewrite list_lookup_middle by reflexivity.
  rewrite IH. unfold nested. now rewrite foldr_app.
Qed.

Lemma Chain_nested (middlewares : list (@MiddlewareFunc HandlerFunc))
    (h : HandlerFunc) :
  Chain middlewares h = nested middlewares h.
Proof.
  unfold Chain. rewrite <- (app_nil_r middlewares) at 1.
  apply chain_loop_prefix.
Qed.

End ChainProps.

Section RecordingProps.

Context {Context Response : Type}.

Lemma nested_recorders (names : list string) (resp : Response)
    (ctx : Context) (log : list event) :
  nested (recorder <$> names) (terminal resp) ctx log
  = (resp, log ++ (Pre <$> names) ++ [Terminal] ++ (Post <$> reverse names)).
Proof.
  revert log; induction names as [|a names IH]; intros log; [reflexivity|].
  change (nested (recorder <$> a :: names) (terminal resp) ctx log)
    with (recorder a (nested (recorder <$> names) (terminal resp)) ctx log).
  unfold recorder at 1. rewrite IH.
  rewrite reverse_cons, fmap_app. simpl.
  f_equal. rewrite <- !app_assoc. reflexivity.
Qed.

End RecordingProps.

(** C5 — Middleware chain composition order.  For every handler type,
    terminal handler [h] and middleware list, [Chain] nests the list
    around [h] with the first middleware outermost; the empty chain is
    the identity; and with order-recording middleware the log reads: the
    pre-logic of each middleware in list order, the terminal handler, the
    post-logic in reverse order. *)
Theorem Chain_composition_order :
  (forall (H : Type) (middlewares : list (@MiddlewareFunc H)) (h : H),
      Chain middlewares h = foldr (fun mw acc => mw acc) h middlewares) /\
  (forall (H : Type) (h : H), Chain [] h = h) /\
  (forall (H : Type) (a b : @MiddlewareFunc H) (h : H),
      Chain [a; b] h = a (b h)) /\
  (forall (Context Response : Type) (names : list string)
          (resp : Response) (ctx : Context) (log : list event),
      Chain (recorder <$> names) (terminal resp) ctx log
      = (resp,
         log ++ (Pre <$> names) ++ [Terminal] ++ (Post <$> reverse names))).
Proof.
  split; [intros; apply Chain_nested|].
  split; [reflexivity|]. split; [reflexivity|].
  intros. rewrite Chain_nested. apply nested_recorders.
Qed.

End MiddlewareProps.

(** * Properties of the recovery middleware *)

Module RecoveryProps.

Import RecoveryMiddleware.

Local Open Scope list_scope.

Section Containment.

Context {Context value foreign_error : Type}.

Variable panic_line : @panic_value value -> string.

(** C10 — Recovery: pass-through and containment.  If the wrapped
    handler returns (data, status, err), the recovery handler returns
    the same triple, the error untouched, and writes nothing to the
    log; if the handler panics with any value, the recovery handler
    returns (nil, 500, an APIError with code "internal_server_error")
    and the panic does not escape. *)
Theorem Recovery_contains_panics
    (next : @Handler Context value foreign_error) (ctx : Context)
    (out : list string) :
  (forall data status err out',
      next ctx out = (Returns (data, status, err), out') ->
      Recovery panic_line next ctx out = (Returns (data, status, err), out')) /\
  (forall v out',
      next ctx out = (Panics v, out') ->
      exists e,
        Recovery panic_line next ctx out
        = (Returns (None, 500%Z, Some (api_error e)),
           out' ++ [panic_line v]) /\
        Code e = "internal_server_error").
Proof.
  split.
  - intros data status err out' H. unfold Recovery. now rewrite H.
  - intros v out' H. unfold Recovery. rewrite H.
    eexists. split; reflexivity.
Qed.

End Containment.

Lemma Recovery_contains_panics_witness :
  Recovery (fun _ => "PANIC") sample_handler 0 []
    = (Returns (Some "body", 404%Z, Some (other_error "not found")), []) /\
  exists e,
    Recovery (fun _ => "PANIC") sample_handler 1 []
      = (Returns (None, 500%Z, Some (api_error e)), ["working"; "PANIC"]) /\
    Code e = "internal_server_error".
Proof.
  split.
  - apply (proj1 (Recovery_contains_panics (fun _ => "PANIC")
                    sample_handler 0 [])).
    reflexivity.
  - apply (proj2 (Recovery_contains_panics (fun _ => "PANIC")
                    sample_handler 1 []) PanicNilError ["working"]).
    reflexivity.
Defined.

End RecoveryProps.

(** * Properties of the tree in the store *)

Module HeapProps.

Import Heap.

Local Open Scope list_scope.

(** ** One step of [node.insert] on the store *)

Lemma store_insert_unfold fuel h n path rt :
  node_insert (S fuel) h n path rt =
    if String.eqb path "/" then store_route h n rt
    else
      let '(segment, remaining) := next_segment (TrimPrefix path "/") in
      c ← load h n;
      if is_param (segment_type segment) then
        let '(h1, pc) := param_slot h n c segment in
        continue_at fuel h1 pc remaining rt
      else
        found ← find_common h segment (c_children c) 0;
        match found with
        | Some (i, child, k) =>
            cc ← load h child;
            if Nat.eqb k (String.length (c_prefix cc)) then
              continue_at fuel h child (rest_path k segment remaining) rt
            else
              match head (drop k (c_prefix cc)) with
              | None => Panic
              | Some l =>
                  h3 ← split_store h n child cc k l;
                  continue_at fuel h3 (length h)
                    (rest_path k segment remaining) rt
              end
        | None =>
            match head segment with
            | None => Panic
            | Some l =>
                h2 ← continue_at fuel
                       (h ++ [Cell static l segment "" None [] None])
                       (length h) remaining rt;
                c' ← load h2 n;
                Done (<[n := with_children c'
                               (c_children c' ++ [length h])]> h2)
            end
        end.
Proof.
  cbn [node_insert].
  destruct (String.eqb path "/"); [reflexivity|].
  destruct (next_segment (TrimPrefix path "/")) as [segment remaining].
  destruct (load h n) as [c| |]; [|reflexivity|reflexivity].
  cbn [mbind res_bind].
  destruct (is_param (segment_type segment)).
  { unfold param_slot, continue_at. destruct (c_paramChild c); reflexivity. }
  destruct (find_common h segment (c_children c) 0) as [[[[i child] k]|]| |];
    try reflexivity.
  cbn [mbind res_bind].
  destruct (load h child) as [cc| |]; [|reflexivity|reflexivity].
  cbn [mbind res_bind]. unfold rest_path, continue_at, split_store.
  destruct (Nat.eqb k (String.length (c_prefix cc))).
  - destruct (Nat.eqb k (String.length segment)); reflexivity.
  - destruct (head (drop k (c_prefix cc))); [|reflexivity].
    destruct (load _ n) as [c2| |]; [|reflexivity|reflexivity].
    cbn [mbind res_bind].
    destruct (Nat.eqb k (String.length segment)); reflexivity.
Qed.

(** ** Reachability *)

Lemma load_Done h a c : load h a = Done c <-> h !! a = Some c.
Proof.
  unfold load. destruct (h !! a); split; intros H; try discriminate; congruence.
Qed.

Lemma reach_snoc h n x c m :
  reach h n x -> h !! x = Some c ->
  m ∈ c_children c \/ c_paramChild c = Some m ->
  reach h n m.
Proof.
  induction 1 as [n | n c0 m0 a H0 He _ IH]; intros Hx Hm.
  - eapply reach_step; eauto. apply reach_refl.
  - eapply reach_step; eauto.
Qed.

Lemma reach_trans h n x a : reach h n x -> reach h x a -> reach h n a.
Proof.
  induction 1 as [n | n c0 m0 x H0 He _ IH]; intros Hxa; auto.
  eapply reach_step; eauto.
Qed.

(** A set of addresses that holds the start and is closed under the edges
    of the store holds everything reachable. *)
Lemma reach_closed (P : addr -> Prop) h s a :
  P s ->
  (forall x c m, P x -> h !! x = Some c ->
                 m ∈ c_children c \/ c_paramChild c = Some m -> P m) ->
  reach h s a -> P a.
Proof.
  intros Hs Hstep Hr. induction Hr as [n | n c m a Hn He _ IH]; auto.
  apply IH. eapply Hstep; eauto.
Qed.

Lemma reach_leaf h n c a :
  h !! n = Some c -> c_children c = [] -> c_paramChild c = None ->
  reach h n a -> a = n.
Proof.
  intros Hn Hc Hp Hr. inversion Hr as [|x c0 m y H0 He Hm]; subst; auto.
  assert (c0 = c) as -> by congruence.
  rewrite Hc, Hp in He. destruct He as [He|He]; [inversion He | discriminate].
Qed.

Lemma find_common_elem h segment cs : forall i0 i child k,
  find_common h segment cs i0 = Done (Some (i, child, k)) -> child ∈ cs.
Proof.
  induction cs as [|c0 cs IH]; intros i0 i child k; simpl; [discriminate|].
  destruct (load h c0) as [c| |]; simpl; try discriminate.
  destruct (negb (is_static (c_nType c))).
  - intros H. right. eauto.
  - destruct (Nat.eqb _ 0).
    + intros H. right. eauto.
    + intros [= <- <- <-]. left.
Qed.

Lemma replace_first_elem cs child sp m :
  m ∈ replace_first cs child sp -> m = sp \/ m ∈ cs.
Proof.
  induction cs as [|c0 cs IH]; simpl; [intros H; inversion H|].
  destruct (Nat.eqb c0 child).
  - intros H. apply elem_of_cons in H as [->|H]; [now left|].
    right. now right.
  - intros H. apply elem_of_cons in H as [->|H]; [right; now left|].
    destruct (IH H) as [->|Hm]; [now left | right; now right].
Qed.

(** ** The footprint of an insertion *)

Lemma store_route_frame h a rt h' :
  store_route h a rt = Done h' -> frame_ok h a h'.
Proof.
  unfold store_route. destruct (load h a) as [c| |]; simpl; try discriminate.
  intros [= <-]. unfold frame_ok. split; [now rewrite length_insert|].
  intros b Hb Hr. apply list_lookup_insert_ne. intros ->. apply Hr, reach_refl.
Qed.

(** The frame of an insertion below [m] is a frame of the node above. *)
Lemma frame_ok_below h n m h' :
  reach h n m -> frame_ok h m h' -> frame_ok h n h'.
Proof.
  intros Hm [Hlen Hf]. split; [exact Hlen|].
  intros a Ha Hr. apply Hf; auto. intros Hma. apply Hr.
  eapply reach_trans; eauto.
Qed.

(** The frame of an insertion into a store [h1] that was obtained from [h]
    by writing below [n] and allocating. *)
Lemma frame_ok_after h n h1 target h' :
  length h <= length h1 ->
  (forall a, a < length h -> ~ reach h n a -> h1 !! a = h !! a) ->
  (forall a, reach h1 target a -> length h <= a \/ reach h n a) ->
  frame_ok h1 target h' -> frame_ok h n h'.
Proof.
  intros Hlen Hsame Hreach [Hlen' Hf]. split; [lia|].
  intros a Ha Hr. rewrite Hf; auto; [lia|].
  intros H1. destruct (Hreach _ H1); [lia | auto].
Qed.

Lemma node_insert_frame fuel : forall h n path rt h',
  node_insert fuel h n path rt = Done h' -> frame_ok h n h'.
Proof.
  induction fuel as [|fuel IH]; intros h n path rt h'; [discriminate|].
  assert (Hcont : forall h1 target sub h2,
             continue_at fuel h1 target sub rt = Done h2 ->
             frame_ok h1 target h2).
  { intros h1 target sub h2. unfold continue_at.
    destruct (String.eqb sub ""); [apply store_route_frame | apply IH]. }
  rewrite store_insert_unfold.
  destruct (String.eqb path "/"); [apply store_route_frame|].
  destruct (next_segment (TrimPrefix path "/")) as [segment remaining].
  destruct (load h n) as [c| |] eqn:Hn; simpl; try discriminate.
  apply load_Done in Hn.
  pose proof (lookup_lt_Some _ _ _ Hn) as Hnlt.
  destruct (is_param (segment_type segment)).
  { unfold param_slot.
    destruct (c_paramChild c) as [pc|] eqn:Epc.
    - intros H. apply Hcont in H. eapply frame_ok_below; [|exact H].
      eapply reach_step; eauto using reach_refl.
    - intros H. apply Hcont in H.
      eapply frame_ok_after; [| | |exact H].
      + rewrite length_insert, length_app. simpl. lia.
      + intros a Ha Hr. rewrite list_lookup_insert_ne.
        * now apply lookup_app_l.
        * intros ->. apply Hr, reach_refl.
      + intros a Ha. left.
        match type of Ha with reach ?h1 _ _ =>
          assert (h1 !! length h
                  = Some (Cell param zero_byte segment (drop 1 segment)
                               None [] None)) as Hleaf
        end.
        { rewrite list_lookup_insert_ne by lia.
          rewrite lookup_app_r, Nat.sub_diag by lia. reflexivity. }
        rewrite (reach_leaf _ _ _ _ Hleaf eq_refl eq_refl Ha). lia. }
  destruct (find_common h segment (c_children c) 0)
    as [[[[i child] k]|]| |] eqn:Ef; simpl; try discriminate.
  - apply find_common_elem in Ef.
    assert (reach h n child) as Hchild.
    { eapply reach_step; eauto using reach_refl. }
    destruct (load h child) as [cc| |] eqn:Hc; simpl; try discriminate.
    apply load_Done in Hc.
    pose proof (lookup_lt_Some _ _ _ Hc) as Hclt.
    destruct (Nat.eqb k (String.length (c_prefix cc))).
    { intros H. apply Hcont in H. eapply frame_ok_below; eauto. }
    destruct (head (drop k (c_prefix cc))) as [l|]; [|discriminate].
    unfold split_store.
    destruct (load _ n) as [c2| |] eqn:Hn2; simpl; try discriminate.
    apply load_Done in Hn2.
    intros H. apply Hcont in H.
    (* the receiver as read after the child has been cut has the edges
       of the receiver as read before *)
    assert (c_children c2 = c_children c /\ c_paramChild c2 = c_paramChild c)
      as [Hc2c Hc2p].
    { destruct (decide (n = child)) as [->|Hne].
      - rewrite list_lookup_insert_eq in Hn2
          by (rewrite length_app; simpl; lia).
        injection Hn2 as <-. simpl. split; congruence.
      - rewrite list_lookup_insert_ne in Hn2 by congruence.
        rewrite lookup_app_l in Hn2 by lia. split; congruence. }
    eapply frame_ok_after; [| | |exact H].
    + rewrite !length_insert, length_app. simpl. lia.
    + intros a Ha Hr.
      rewrite !list_lookup_insert_ne.
      * now apply lookup_app_l.
      * intros ->. now apply Hr.
      * intros ->. apply Hr, reach_refl.
    + intros a Ha.
      apply (reach_closed (fun x => length h <= x \/ reach h n x)) in Ha;
        [exact Ha | left; lia |].
      intros x cx m [Hx|Hx] Hlx Hm.
      * (* an edge of the split node, or of nothing else *)
        assert (x = length h) as ->.
        { apply lookup_lt_Some in Hlx.
          rewrite !length_insert, length_app in Hlx. simpl in Hlx. lia. }
        rewrite !list_lookup_insert_ne in Hlx by lia.
        rewrite lookup_app_r, Nat.sub_diag in Hlx by lia.
        injection Hlx as <-. simpl in Hm.
        destruct Hm as [Hm|Hm]; [|discriminate].
        apply list_elem_of_singleton in Hm as ->. now right.
      * destruct (decide (x = n)) as [->|Hxn].
        -- rewrite list_lookup_insert_eq in Hlx
             by (rewrite length_insert, length_app; simpl; lia).
           injection Hlx as <-. simpl in Hm. rewrite Hc2c, Hc2p in Hm.
           destruct Hm as [Hm|Hm].
           ++ apply replace_first_elem in Hm as [->|Hm]; [left; lia|].
              right. eapply reach_step; eauto using reach_refl.
           ++ right. eapply reach_step; eauto using reach_refl.
        -- rewrite list_lookup_insert_ne in Hlx by congruence.
           destruct (decide (x = child)) as [->|Hxc].
           ++ rewrite list_lookup_insert_eq in Hlx
                by (rewrite length_app; simpl; lia).
              injection Hlx as <-. simpl in Hm.
              right. eapply reach_snoc; eauto.
           ++ rewrite list_lookup_insert_ne in Hlx by congruence.
              destruct (decide (x < length h)) as [Hxl|Hxl].
              ** rewrite lookup_app_l in Hlx by lia.
                 right. eapply reach_snoc; eauto.
              ** assert (x = length h) as ->.
                 { apply lookup_lt_Some in Hlx.
                   rewrite length_app in Hlx. simpl in Hlx. lia. }
                 rewrite lookup_app_r, Nat.sub_diag in Hlx by lia.
                 injection Hlx as <-. simpl in Hm.
                 destruct Hm as [Hm|Hm]; [|discriminate].
                 apply list_elem_of_singleton in Hm as ->. now right.
  - destruct (head segment) as [l|]; [|discriminate].
    destruct (continue_at _ _ _ _ _) as [h2| |] eqn:Ec; simpl;
      try discriminate.
    apply Hcont in Ec. destruct Ec as [Hlen2 Hf2].
    rewrite length_app in Hlen2. simpl in Hlen2.
    destruct (load h2 n) as [c'| |]; simpl; try discriminate.
    intros [= <-]. split; [rewrite length_insert; lia|].
    intros a Ha Hr. rewrite list_lookup_insert_ne.
    + rewrite Hf2.
      * now apply lookup_app_l.
      * rewrite length_app. simpl. lia.
      * intros Hra.
        match type of Hra with reach ?h1 _ _ =>
          assert (h1 !! length h = Some (Cell static l segment "" None [] None))
            as Hleaf
        end.
        { rewrite lookup_app_r, Nat.sub_diag by lia. reflexivity. }
        pose proof (reach_leaf _ _ _ _ Hleaf eq_refl eq_refl Hra). lia.
    + intros ->. apply Hr, reach_refl.
Qed.

(** ** A search reads the nodes below its receiver only *)

Lemma find_static_elem h segment cs child cc :
  find_static h segment cs = Done (Some (child, cc)) -> child ∈ cs.
Proof.
  induction cs as [|c0 cs IH]; simpl; [discriminate|].
  destruct (load h c0) as [c| |]; simpl; try discriminate.
  destruct (negb (is_static (c_nType c))); [intros H; right; auto|].
  destruct (_ && _); [intros [= <- <-]; left | intros H; right; auto].
Qed.

Lemma load_agree (h h' : list cell) a : h' !! a = h !! a -> load h' a = load h a.
Proof. unfold load. now intros ->. Qed.

Lemma find_static_agree h h' segment cs :
  (forall a, a ∈ cs -> h' !! a = h !! a) ->
  find_static h' segment cs = find_static h segment cs.
Proof.
  induction cs as [|c0 cs IH]; intros Hagree; [reflexivity|].
  cbn [find_static]. rewrite (load_agree h h' c0) by (apply Hagree; left).
  rewrite IH by (intros a Ha; apply Hagree; now right).
  reflexivity.
Qed.

Lemma node_search_agree fuel : forall h h' n path ps,
  (forall a, reach h n a -> h' !! a = h !! a) ->
  node_search fuel h' n path ps = node_search fuel h n path ps.
Proof.
  induction fuel as [|fuel IH]; intros h h' n path ps Hagree; [reflexivity|].
  cbn [node_search].
  rewrite (load_agree h h' n) by (apply Hagree, reach_refl).
  destruct (load h n) as [c| |] eqn:Hn; [|reflexivity|reflexivity].
  apply load_Done in Hn. cbn [mbind res_bind].
  destruct (_ || _); [reflexivity|].
  destruct (next_segment _) as [segment remaining].
  assert (Hedge : forall m, m ∈ c_children c \/ c_paramChild c = Some m ->
                            forall a, reach h m a -> h' !! a = h !! a).
  { intros m Hm a Ha. apply Hagree. eapply reach_step; eauto. }
  rewrite (find_static_agree h h').
  2:{ intros a Ha. apply (Hedge a); [now left | apply reach_refl]. }
  destruct (find_static h segment (c_children c)) as [[[child cc]|]| |] eqn:Ef;
    cbn [mbind res_bind]; try reflexivity.
  - apply find_static_elem in Ef.
    destruct (Nat.eqb _ _); [destruct (String.eqb _ _); [reflexivity|]|];
      apply IH, Hedge; now left.
  - destruct (c_paramChild c) as [pc|] eqn:Epc; [|reflexivity].
    rewrite (load_agree h h' pc) by (apply (Hedge pc); auto using reach_refl).
    destruct (load h pc) as [pcc| |]; cbn [mbind res_bind]; try reflexivity.
    destruct (String.eqb _ _); [reflexivity|].
    apply IH, Hedge. now right.
Qed.

(** C1, amended — Isolation of trees that share no node.  [tree.insert]
    updates its receiver in place; what it leaves intact is every tree of
    the store that shares no node with the receiver: no node reachable
    from the root of such a tree is written, and every path searched
    against it resolves as before, to the same route with the same
    parameter bindings. *)
Theorem insert_leaves_disjoint_tree_intact
    (h : list cell) (t1 t2 : tree) (path : string) (rt : Route)
    (h' : list cell) :
  (forall a, reach h (root t1) a -> a < length h) ->
  (forall a, reach h (root t1) a -> ~ reach h (root t2) a) ->
  tree_insert h t2 path rt = Done h' ->
  (forall a, reach h (root t1) a -> h' !! a = h !! a) /\
  (forall p, tree_search h' t1 p = tree_search h t1 p).
Proof.
  intros Hvalid Hdisj Hins.
  apply node_insert_frame in Hins as [_ Hframe].
  assert (forall a, reach h (root t1) a -> h' !! a = h !! a) as Hsame.
  { intros a Ha. apply Hframe; auto. }
  split; [exact Hsame|].
  intros p. unfold tree_search. now rewrite (node_search_agree _ h h').
Qed.

Lemma reach_cases h n a c :
  reach h n a -> h !! n = Some c ->
  a = n \/
  exists m, (m ∈ c_children c \/ c_paramChild c = Some m) /\ reach h m a.
Proof.
  intros Hr Hn. inversion Hr as [|x c0 m y H0 He Hm]; subst; [now left|].
  assert (c0 = c) as -> by congruence. right. eauto.
Qed.

Lemma reach_two_trees a : reach store_two_trees 0 a -> a < 3.
Proof.
  intros H0.
  destruct (reach_cases _ _ _ _ H0 eq_refl) as [->|(m & Hm & H1)]; [lia|].
  cbn [c_children c_paramChild] in Hm.
  destruct Hm as [Hm|Hm]; [|discriminate].
  apply list_elem_of_singleton in Hm as ->.
  destruct (reach_cases _ _ _ _ H1 eq_refl) as [->|(m & Hm & H2)]; [lia|].
  cbn [c_children c_paramChild] in Hm.
  destruct Hm as [Hm|Hm]; [inversion Hm|]. injection Hm as <-.
  rewrite (reach_leaf store_two_trees 2 _ a eq_refl eq_refl eq_refl H2). lia.
Qed.

Lemma insert_leaves_disjoint_tree_intact_witness :
  tree_insert store_two_trees (Tree 3) "/a" route_new
    = Done store_two_trees_after /\
  (forall a, reach store_two_trees 0 a ->
             store_two_trees_after !! a = store_two_trees !! a) /\
  (forall p,
      tree_search store_two_trees_after (Tree 0) p
      = tree_search store_two_trees (Tree 0) p) /\
  tree_search store_two_trees (Tree 0) "/a" = Done (Some route_old, None) /\
  tree_search store_two_trees (Tree 0) "/a/7"
    = Done (Some route_old_id, Some {["id" := "7"]}).
Proof.
  split; [reflexivity|].
  destruct (insert_leaves_disjoint_tree_intact store_two_trees (Tree 0)
              (Tree 3) "/a" route_new store_two_trees_after) as [H1 H2].
  - intros a Ha. apply reach_two_trees in Ha. simpl. lia.
  - intros a Ha Hb. apply reach_two_trees in Ha.
    pose proof (reach_leaf store_two_trees 3 _ a eq_refl eq_refl eq_refl Hb).
    lia.
  - reflexivity.
  - split; [exact H1|]. split; [exact H2|]. split; reflexivity.
Defined.

(** C1, as stated, fails: the tree [T1] rooted at 0 resolves "/a" to the
    old route; the insertion that should derive [T2] writes the node at 1,
    which is reachable from the root of [T1], and [T1] itself resolves "/a"
    to the new route afterwards. *)
Lemma insert_writes_shared_nodes :
  tree_insert (fst (newTree [])) (snd (newTree [])) "/a" route_old
    = Done store_a_old /\
  snd (newTree []) = Tree 0 /\
  tree_search store_a_old (Tree 0) "/a" = Done (Some route_old, None) /\
  tree_insert store_a_old (Tree 0) "/a" route_new = Done store_a_new /\
  reach store_a_old 0 1 /\
  store_a_new !! 1 <> store_a_old !! 1 /\
  tree_search store_a_new (Tree 0) "/a" = Done (Some route_new, None) /\
  tree_search store_a_new (Tree 0) "/a"
    <> tree_search store_a_old (Tree 0) "/a".
Proof.
  repeat split; try reflexivity; try discriminate.
  eapply reach_step; [reflexivity | left; left | apply reach_refl].
Qed.

End HeapProps.

(** * The tree in the store and the tree as a value

    [node.insert] and [node.search] on the store compute what the
    functions on nodes compute, on every store that holds the node without
    sharing: results stated for one model carry over to the other. *)

Module RefineProps.

Import Refine.

Local Open Scope list_scope.

#[local] Set Warnings "-clear-no-such-hyp".

(** ** Lists of footprints *)

Lemma Forall3_impl_lookup {A B C} (P Q : A -> B -> C -> Prop) l k k' :
  Forall3 P l k k' ->
  (forall i x y z, l !! i = Some x -> k !! i = Some y -> k' !! i = Some z ->
                   P x y z -> Q x y z) ->
  Forall3 Q l k k'.
Proof.
  induction 1 as [|x y z l k k' Hx _ IH]; intros HPQ; constructor.
  - apply (HPQ 0); auto.
  - apply IH. intros i. apply (HPQ (S i)).
Qed.

Lemma opt3_impl_strong {A B C} (P Q : A -> B -> C -> Prop) dflt o1 o2 c :
  opt3 P dflt o1 o2 c ->
  (forall a b, o1 = Some a -> o2 = Some b -> P a b c -> Q a b c) ->
  opt3 Q dflt o1 o2 c.
Proof. intros [|x y z Hxyz] HPQ; constructor; auto. Qed.

Lemma opt3_impl {A B C} (P Q : A -> B -> C -> Prop) dflt o1 o2 c :
  opt3 P dflt o1 o2 c -> (forall a b c, P a b c -> Q a b c) ->
  opt3 Q dflt o1 o2 c.
Proof. intros [|x y z Hxyz] HPQ; constructor; auto. Qed.

Lemma elem_of_union_list_lookup (Fs : list (gset nat)) i Fi x :
  Fs !! i = Some Fi -> x ∈ Fi -> x ∈ ⋃ Fs.
Proof.
  intros Hi Hx. apply elem_of_union_list. exists Fi. split; auto.
  eapply list_elem_of_lookup_2; eauto.
Qed.

(** ** The representation relation *)

Ltac repr_split :=
  split; [|split; [|split; [|split; [|split; [|split; [|split]]]]]].

Lemma repr_mono d : forall d' h a n F, d <= d' -> repr d h a n F -> repr d' h a n F.
Proof.
  induction d as [|d IH]; intros [|d'] h a n F Hd; try lia; [intros []| |].
  - intros [].
  - intros (c & Fs & Fp & Hl & Hm & Hcs & Hp & Ha & Hpd & Hdp & ->).
    exists c, Fs, Fp. repr_split; auto.
    + eapply Forall3_impl; [exact Hcs|]. intros x y z. apply IH. lia.
    + eapply opt3_impl; [exact Hp|]. intros x y z. apply IH. lia.
Qed.

Lemma repr_self d h a n F : repr d h a n F -> a ∈ F.
Proof.
  destruct d; [intros []|].
  intros (c & Fs & Fp & _ & _ & _ & _ & _ & _ & _ & ->). set_solver.
Qed.

Lemma repr_valid d : forall h a n F x, repr d h a n F -> x ∈ F -> x < length h.
Proof.
  induction d as [|d IH]; intros h a n F x; [intros []|].
  intros (c & Fs & Fp & Hl & Hm & Hcs & Hp & Ha & Hpd & Hdp & ->) Hx.
  apply elem_of_union in Hx as [Hx|Hx]; [apply elem_of_union in Hx as [Hx|Hx]|].
  - apply elem_of_singleton in Hx as ->. eapply lookup_lt_Some; eauto.
  - apply elem_of_union_list in Hx as (Fi & HFi & Hx).
    apply list_elem_of_lookup_1 in HFi as [i Hi].
    destruct (Forall3_lookup_r _ _ _ _ _ _ Hcs Hi) as (ci & ni & _ & _ & Hr).
    eapply IH; eauto.
  - destruct Hp as [|p pn Fp Hr]; [set_solver|]. eapply IH; eauto.
Qed.

Lemma repr_agree d : forall h h' a n F,
  repr d h a n F -> (forall x, x ∈ F -> h' !! x = h !! x) -> repr d h' a n F.
Proof.
  induction d as [|d IH]; intros h h' a n F; [intros []|].
  intros (c & Fs & Fp & Hl & Hm & Hcs & Hp & Ha & Hpd & Hdp & ->) Hag.
  exists c, Fs, Fp. repr_split; auto.
  - rewrite Hag; auto. set_solver.
  - eapply Forall3_impl_lookup; [exact Hcs|].
    intros i x y z _ _ Hz Hr. eapply IH; [exact Hr|].
    intros w Hw. apply Hag.
    pose proof (elem_of_union_list_lookup _ _ _ _ Hz Hw). set_solver.
  - destruct Hp as [|p pn Fp' Hr']; constructor.
    eapply IH; [exact Hr'|]. intros w Hw. apply Hag. set_solver.
Qed.

(** ** The loops over the children *)

Lemma repr_lookup d h a n F :
  repr d h a n F -> exists c, h !! a = Some c /\ cell_matches c n.
Proof.
  destruct d; [intros []|].
  intros (c & Fs & Fp & Hl & Hm & _). eauto.
Qed.

Lemma load_lookup (h : list Heap.cell) a c :
  h !! a = Some c -> Heap.load h a = Done c.
Proof. unfold Heap.load. now intros ->. Qed.

Lemma find_static_refines d h segment cas ns Fs :
  Forall3 (repr d h) cas ns Fs ->
  match find_static segment ns with
  | Some ni =>
      exists i ci cc Fi,
        cas !! i = Some ci /\ ns !! i = Some ni /\ Fs !! i = Some Fi /\
        h !! ci = Some cc /\ cell_matches cc ni /\
        Heap.find_static h segment cas = Done (Some (ci, cc))
  | None => Heap.find_static h segment cas = Done None
  end.
Proof.
  induction 1 as [|ci ni Fi cas ns Fs Hr _ IH]; [reflexivity|].
  destruct (repr_lookup _ _ _ _ _ Hr) as (cc & Hl & Hm).
  pose proof Hm as (Hty & _ & Hpre & _).
  assert (Heap.find_static h segment (ci :: cas) =
          if negb (is_static (nType ni)) then Heap.find_static h segment cas
          else if HasPrefix segment (prefix ni)
                  && (Nat.eqb (String.length segment) (String.length (prefix ni))
                      || Nat.ltb (String.length (prefix ni))
                                 (String.length segment))
               then Done (Some (ci, cc))
               else Heap.find_static h segment cas) as ->.
  { cbn [Heap.find_static]. rewrite (load_lookup _ _ _ Hl).
    cbn [mbind res_bind]. now rewrite Hty, Hpre. }
  cbn [find_static].
  destruct (negb (is_static (nType ni))).
  - destruct (find_static segment ns) as [nj|]; [|exact IH].
    destruct IH as (i & cj & cc' & Fj & H1 & H2 & H3 & H4 & H5 & H6).
    exists (S i), cj, cc', Fj. tauto.
  - destruct (_ && _).
    + exists 0, ci, cc, Fi. simpl. tauto.
    + destruct (find_static segment ns) as [nj|]; [|exact IH].
      destruct IH as (i & cj & cc' & Fj & H1 & H2 & H3 & H4 & H5 & H6).
      exists (S i), cj, cc', Fj. tauto.
Qed.

(** ** [node.search] on the store computes the search on the node *)

Lemma repr_child d h a n F c :
  repr (S d) h a n F -> h !! a = Some c ->
  exists Fs Fp,
    cell_matches c n /\
    Forall3 (repr d h) (Heap.c_children c) (children n) Fs /\
    opt3 (repr d h) ∅ (Heap.c_paramChild c) (paramChild n) Fp.
Proof.
  intros (c' & Fs & Fp & Hl & Hm & Hcs & Hp & _) Hc.
  assert (c' = c) as -> by congruence. eauto.
Qed.

Theorem node_search_refines fuel : forall d h a n F path ps,
  repr d h a n F ->
  Heap.node_search fuel h a path ps = node_search fuel n path ps.
Proof.
  induction fuel as [|fuel IH]; intros d h a n F path ps Hr; [reflexivity|].
  destruct d as [|d]; [destruct Hr|].
  destruct (repr_lookup _ _ _ _ _ Hr) as (c & Hl & Hm).
  destruct (repr_child _ _ _ _ _ _ Hr Hl) as (Fs & Fp & _ & Hcs & Hp).
  destruct Hm as (_ & _ & _ & _ & Hroute).
  cbn [Heap.node_search node_search]. rewrite (load_lookup _ _ _ Hl).
  cbn [mbind res_bind]. rewrite Hroute.
  destruct (_ || _); [reflexivity|].
  destruct (next_segment _) as [segment remaining].
  pose proof (find_static_refines _ _ segment _ _ _ Hcs) as Hfind.
  destruct (find_static segment (children n)) as [ni|].
  - destruct Hfind as (i & ci & cc & Fi & H1 & H2 & H3 & H4 & H5 & ->).
    cbn [mbind res_bind].
    destruct H5 as (_ & _ & Hpre & _ & Hrt). rewrite Hpre, Hrt.
    destruct (Forall3_lookup_l _ _ _ _ _ _ Hcs H1) as (ni' & Fi' & E2 & E3 & Hri).
    assert (ni' = ni) as -> by congruence.
    destruct (Nat.eqb _ _); [destruct (String.eqb _ _); [reflexivity|]|];
      eapply IH; eauto.
  - rewrite Hfind. cbn [mbind res_bind].
    destruct Hp as [|p pn Fp Hrp]; [reflexivity|].
    destruct (repr_lookup _ _ _ _ _ Hrp) as (cp & Hlp & Hmp).
    rewrite (load_lookup _ _ _ Hlp). cbn [mbind res_bind].
    destruct Hmp as (_ & _ & _ & Hkey & Hrt). rewrite Hkey, Hrt.
    destruct (String.eqb _ _); [reflexivity|]. eapply IH; eauto.
Qed.

Lemma Forall3_insert_impl {A B C} (P Q : A -> B -> C -> Prop) l k k' i x y z :
  Forall3 P l k k' ->
  (forall j xj yj zj, j <> i -> l !! j = Some xj -> k !! j = Some yj ->
                      k' !! j = Some zj -> P xj yj zj -> Q xj yj zj) ->
  Q x y z ->
  Forall3 Q (<[i:=x]> l) (<[i:=y]> k) (<[i:=z]> k').
Proof.
  intros H. revert i. induction H as [|x0 y0 z0 l k k' H0 Ht IH];
    intros i HPQ Hxyz; [destruct i; constructor|].
  destruct i as [|i]; simpl; constructor; auto.
  - eapply Forall3_impl_lookup; [exact Ht|].
    intros j xj yj zj H1 H2 H3. apply (HPQ (S j)); auto.
  - apply (HPQ 0); auto.
  - apply IH; auto. intros j xj yj zj Hj. apply (HPQ (S j)). lia.
Qed.

Lemma union_list_insert (Fs : list (gset nat)) i G x :
  x ∈ ⋃ (<[i:=G]> Fs) ->
  x ∈ G \/ exists j Fj, j <> i /\ Fs !! j = Some Fj /\ x ∈ Fj.
Proof.
  intros Hx. apply elem_of_union_list in Hx as (Fj & HFj & Hx).
  apply list_elem_of_lookup_1 in HFj as [j Hj].
  destruct (decide (j = i)) as [->|Hne].
  - left. destruct (decide (i < length Fs)) as [Hi|Hi].
    + rewrite list_lookup_insert_eq in Hj by exact Hi. congruence.
    + rewrite list_insert_ge in Hj by lia.
      apply lookup_lt_Some in Hj. lia.
  - right. rewrite list_lookup_insert_ne in Hj by congruence. eauto.
Qed.

Lemma children_valid d h cas ns Fs j Fj x :
  Forall3 (repr d h) cas ns Fs -> Fs !! j = Some Fj -> x ∈ Fj ->
  x < length h.
Proof.
  intros Hcs Hj Hx.
  destruct (Forall3_lookup_r _ _ _ _ _ _ Hcs Hj) as (cj & nj & _ & _ & Hr).
  eapply repr_valid; eauto.
Qed.

Lemma param_valid d h (p : option nat) (pn : option node) Fp x :
  opt3 (repr d h) ∅ p pn Fp -> x ∈ Fp -> x < length h.
Proof.
  intros [|p' pn' Fp' Hr] Hx; [set_solver|]. eapply repr_valid; eauto.
Qed.

Lemma set_route_refines d h a n F rt :
  repr d h a n F ->
  refines h a F (Done (set_route n (Some rt))) (Heap.store_route h a rt).
Proof.
  destruct d as [|d]; [intros []|].
  intros (c & Fs & Fp & Hl & Hm & Hcs & Hp & Ha & Hpd & Hdp & ->).
  pose proof (lookup_lt_Some _ _ _ Hl) as Hlt.
  unfold Heap.store_route. rewrite (load_lookup _ _ _ Hl). cbn [mbind res_bind].
  exists (<[a := Heap.with_route c (Some rt)]> h), (S d), ({[a]} ∪ ⋃ Fs ∪ Fp).
  split; [reflexivity|]. split; [|split].
  - exists (Heap.with_route c (Some rt)), Fs, Fp. repr_split; auto.
    + now apply list_lookup_insert_eq.
    + destruct Hm as (H1 & H2 & H3 & H4 & H5). repeat split; auto.
    + eapply Forall3_impl_lookup; [exact Hcs|].
      intros i x y z _ _ Hz Hr. eapply repr_agree; [exact Hr|].
      intros w Hw. apply list_lookup_insert_ne. intros ->. apply Ha.
      pose proof (elem_of_union_list_lookup _ _ _ _ Hz Hw). set_solver.
    + eapply opt3_impl_strong; [exact Hp|]. intros p pn _ _ Hr.
      eapply repr_agree; [exact Hr|].
      intros w Hw. apply list_lookup_insert_ne. intros ->. set_solver.
  - split; [now rewrite length_insert|].
    intros x Hx Hnot. apply list_lookup_insert_ne. set_solver.
  - intros x Hx. now left.
Qed.

(** ** Putting the receiver together again

    The receiver [a] holds [n] in [h]; an insertion has rewritten one of
    its subtrees, giving the store [hf], and has left the cells of the other
    subtrees alone. *)

Section Reassemble.

Variables (d : nat) (h : list Heap.cell) (a : nat) (n : node) (c : Heap.cell).
Variables (Fs : list (gset nat)) (Fp : gset nat).
Hypothesis Hl : h !! a = Some c.
Hypothesis Hm : cell_matches c n.
Hypothesis Hcs : Forall3 (repr d h) (Heap.c_children c) (children n) Fs.
Hypothesis Hp : opt3 (repr d h) ∅ (Heap.c_paramChild c) (paramChild n) Fp.
Hypothesis Ha : a ∉ ⋃ Fs ∪ Fp.
Hypothesis Hpd : pairwise_disjoint Fs.
Hypothesis Hdp : ⋃ Fs ## Fp.

Variables (hf : list Heap.cell) (d1 : nat) (t : nat) (tn' : node)
          (Ft' : gset nat).
Hypothesis Hnew : repr d1 hf t tn' Ft'.

Lemma a_valid : a < length h.
Proof. eapply lookup_lt_Some; eauto. Qed.

Lemma sibling_kept j cj nj Fj (G : gset nat) :
  Heap.c_children c !! j = Some cj -> children n !! j = Some nj ->
  Fs !! j = Some Fj -> repr d h cj nj Fj ->
  (forall x, x < length h -> x <> a -> x ∉ G -> hf !! x = h !! x) ->
  Fj ## G ->
  repr (Nat.max d d1) hf cj nj Fj.
Proof.
  intros H1 H2 H3 Hr Hag Hdisj.
  eapply repr_mono; [apply Nat.le_max_l|].
  eapply repr_agree; [exact Hr|].
  intros x Hx. apply Hag.
  - eapply repr_valid; eauto.
  - intros ->. apply Ha.
    pose proof (elem_of_union_list_lookup _ _ _ _ H3 Hx). set_solver.
  - set_solver.
Qed.

Lemma param_kept (G : gset nat) :
  (forall x, x < length h -> x <> a -> x ∉ G -> hf !! x = h !! x) ->
  Fp ## G ->
  opt3 (repr (Nat.max d d1) hf) ∅ (Heap.c_paramChild c) (paramChild n) Fp.
Proof.
  intros Hag Hdisj. eapply opt3_impl_strong; [exact Hp|].
  intros p pn _ _ Hr.
  eapply repr_mono; [apply Nat.le_max_l|].
  eapply repr_agree; [exact Hr|].
  intros x Hx. apply Hag.
  - eapply repr_valid; eauto.
  - intros ->. set_solver.
  - set_solver.
Qed.

(** The child at index [i] has been rewritten. *)
Lemma reassemble_child i Fi cf :
  Fs !! i = Some Fi ->
  hf !! a = Some cf -> cell_matches cf n ->
  Heap.c_children cf = <[i := t]> (Heap.c_children c) ->
  Heap.c_paramChild cf = Heap.c_paramChild c ->
  (forall x, x < length h -> x <> a -> x ∉ Fi -> hf !! x = h !! x) ->
  grows Fi h Ft' ->
  repr (S (Nat.max d d1)) hf a (set_children n (<[i := tn']> (children n)))
       ({[a]} ∪ ⋃ (<[i := Ft']> Fs) ∪ Fp) /\
  grows ({[a]} ∪ ⋃ Fs ∪ Fp) h ({[a]} ∪ ⋃ (<[i := Ft']> Fs) ∪ Fp).
Proof.
  intros Hi Hcf Hmf Hchildren Hparam Hag Hgrow.
  pose proof a_valid as Hav.
  assert (Hfresh : forall x, x ∈ Ft' -> x ∈ Fi \/ length h <= x) by exact Hgrow.
  assert (Hother : forall j Fj x, j <> i -> Fs !! j = Some Fj -> x ∈ Fj ->
                                  x ∉ Ft').
  { intros j Fj x Hj HFj Hx Hxt. destruct (Hfresh x Hxt) as [Hxi|Hxf].
    - specialize (Hpd j i Fj Fi HFj Hi Hj). set_solver.
    - pose proof (children_valid _ _ _ _ _ _ _ _ Hcs HFj Hx). lia. }
  split.
  - exists cf, (<[i := Ft']> Fs), Fp. repr_split; auto.
    + rewrite Hchildren. cbn [children set_children].
      eapply Forall3_insert_impl; [exact Hcs| |].
      * intros j cj nj Fj Hj H1 H2 H3 Hr.
        eapply (sibling_kept j cj nj Fj Fi); eauto.
      * eapply repr_mono; [apply Nat.le_max_r | exact Hnew].
    + rewrite Hparam. cbn [paramChild set_children].
      apply (param_kept Fi); auto.
      pose proof (fun x => elem_of_union_list_lookup _ _ _ x Hi). set_solver.
    + intros Hin. apply elem_of_union in Hin as [Hin|Hin]; [|set_solver].
      apply union_list_insert in Hin as [Hin|(j & Fj & Hj & HFj & Hin)].
      * destruct (Hfresh a Hin) as [H1|H1]; [|lia].
        pose proof (elem_of_union_list_lookup _ _ _ _ Hi H1). set_solver.
      * pose proof (elem_of_union_list_lookup _ _ _ _ HFj Hin). set_solver.
    + intros j k Fj Fk Hj Hk Hjk.
      destruct (decide (j = i)) as [->|Hji], (decide (k = i)) as [->|Hki];
        try congruence.
      * rewrite list_lookup_insert_eq in Hj
          by (eapply lookup_lt_Some; eauto).
        rewrite list_lookup_insert_ne in Hk by congruence.
        injection Hj as <-. intros x Hx1 Hx2.
        eapply (Hother k Fk x); eauto.
      * rewrite list_lookup_insert_eq in Hk
          by (eapply lookup_lt_Some; eauto).
        rewrite list_lookup_insert_ne in Hj by congruence.
        injection Hk as <-. intros x Hx1 Hx2.
        eapply (Hother j Fj x); eauto.
      * rewrite list_lookup_insert_ne in Hj, Hk by congruence.
        eapply Hpd; eauto.
    + intros x Hx1 Hx2.
      apply union_list_insert in Hx1 as [Hx1|(j & Fj & Hj & HFj & Hx1)].
      * destruct (Hfresh x Hx1) as [H1|H1].
        -- pose proof (elem_of_union_list_lookup _ _ _ _ Hi H1). set_solver.
        -- pose proof (param_valid _ _ _ _ _ _ Hp Hx2). lia.
      * pose proof (elem_of_union_list_lookup _ _ _ _ HFj Hx1). set_solver.
  - intros x Hx.
    apply elem_of_union in Hx as [Hx|Hx]; [|left; set_solver].
    apply elem_of_union in Hx as [Hx|Hx]; [left; set_solver|].
    apply union_list_insert in Hx as [Hx|(j & Fj & Hj & HFj & Hx)].
    + destruct (Hfresh x Hx) as [H1|H1]; [left|now right].
      pose proof (elem_of_union_list_lookup _ _ _ _ Hi H1). set_solver.
    + left. pose proof (elem_of_union_list_lookup _ _ _ _ HFj Hx). set_solver.
Qed.

(** The parameter child has been rewritten, or allocated. *)
Lemma reassemble_param cf :
  hf !! a = Some cf -> cell_matches cf n ->
  Heap.c_children cf = Heap.c_children c ->
  Heap.c_paramChild cf = Some t ->
  (forall x, x < length h -> x <> a -> x ∉ Fp -> hf !! x = h !! x) ->
  grows Fp h Ft' ->
  repr (S (Nat.max d d1)) hf a (set_paramChild n (Some tn'))
       ({[a]} ∪ ⋃ Fs ∪ Ft') /\
  grows ({[a]} ∪ ⋃ Fs ∪ Fp) h ({[a]} ∪ ⋃ Fs ∪ Ft').
Proof.
  intros Hcf Hmf Hchildren Hparam Hag Hgrow.
  pose proof a_valid as Hav.
  assert (Hfresh : forall x, x ∈ Ft' -> x ∈ Fp \/ length h <= x) by exact Hgrow.
  split.
  - exists cf, Fs, Ft'. repr_split; auto.
    + rewrite Hchildren. cbn [children set_paramChild].
      eapply Forall3_impl_lookup; [exact Hcs|].
      intros j cj nj Fj H1 H2 H3 Hr.
      eapply (sibling_kept j cj nj Fj Fp); eauto.
      pose proof (fun x => elem_of_union_list_lookup _ _ _ x H3). set_solver.
    + rewrite Hparam. cbn [paramChild set_paramChild]. constructor.
      eapply repr_mono; [apply Nat.le_max_r | exact Hnew].
    + intros Hin. apply elem_of_union in Hin as [Hin|Hin]; [set_solver|].
      destruct (Hfresh a Hin) as [H1|H1]; [set_solver|lia].
    + intros x Hx1 Hx2. destruct (Hfresh x Hx2) as [H1|H1]; [set_solver|].
      apply elem_of_union_list in Hx1 as (Fj & HFj & Hx1).
      apply list_elem_of_lookup_1 in HFj as [j Hj].
      pose proof (children_valid _ _ _ _ _ _ _ _ Hcs Hj Hx1). lia.
  - intros x Hx.
    apply elem_of_union in Hx as [Hx|Hx]; [left; set_solver|].
    destruct (Hfresh x Hx) as [H1|H1]; [left; set_solver|now right].
Qed.

(** A new child has been appended. *)
Lemma reassemble_append cf :
  hf !! a = Some cf -> cell_matches cf n ->
  Heap.c_children cf = Heap.c_children c ++ [t] ->
  Heap.c_paramChild cf = Heap.c_paramChild c ->
  (forall x, x < length h -> x <> a -> hf !! x = h !! x) ->
  grows ∅ h Ft' ->
  repr (S (Nat.max d d1)) hf a (set_children n (children n ++ [tn']))
       ({[a]} ∪ ⋃ (Fs ++ [Ft']) ∪ Fp) /\
  grows ({[a]} ∪ ⋃ Fs ∪ Fp) h ({[a]} ∪ ⋃ (Fs ++ [Ft']) ∪ Fp).
Proof.
  intros Hcf Hmf Hchildren Hparam Hag Hgrow.
  pose proof a_valid as Hav.
  assert (Hfresh : forall x, x ∈ Ft' -> length h <= x).
  { intros x Hx. destruct (Hgrow x Hx) as [H1|H1]; [set_solver|exact H1]. }
  assert (Hold : forall x, x ∈ ⋃ Fs -> x < length h).
  { intros x Hx. apply elem_of_union_list in Hx as (Fj & HFj & Hx).
    apply list_elem_of_lookup_1 in HFj as [j Hj].
    apply (children_valid _ _ _ _ _ _ _ _ Hcs Hj Hx). }
  assert (Hunion : ⋃ (Fs ++ [Ft']) ≡ ⋃ Fs ∪ Ft').
  { rewrite union_list_app. simpl. set_solver. }
  split.
  - exists cf, (Fs ++ [Ft']), Fp. repr_split; auto.
    + rewrite Hchildren. cbn [children set_children].
      apply Forall3_app.
      * eapply Forall3_impl_lookup; [exact Hcs|].
        intros j cj nj Fj H1 H2 H3 Hr.
        eapply (sibling_kept j cj nj Fj ∅); eauto. set_solver.
      * repeat constructor.
        eapply repr_mono; [apply Nat.le_max_r | exact Hnew].
    + rewrite Hparam. cbn [paramChild set_children].
      apply (param_kept ∅); [|set_solver].
      intros x Hx Hxa _. now apply Hag.
    + rewrite Hunion. intros Hin.
      apply elem_of_union in Hin as [Hin|Hin]; [|set_solver].
      apply elem_of_union in Hin as [Hin|Hin]; [set_solver|].
      specialize (Hfresh a Hin). lia.
    + intros j k Fj Fk Hj Hk Hjk.
      assert (Hlen : length Fs = length Fs) by reflexivity.
      destruct (decide (j < length Fs)) as [Hjl|Hjl],
               (decide (k < length Fs)) as [Hkl|Hkl].
      * rewrite lookup_app_l in Hj, Hk by assumption. eapply Hpd; eauto.
      * rewrite lookup_app_l in Hj by assumption.
        rewrite lookup_app_r in Hk by lia.
        destruct (k - length Fs) as [|?]; [|discriminate]. simpl in Hk.
        injection Hk as <-.
        intros x Hx1 Hx2. specialize (Hfresh x Hx2).
        pose proof (children_valid _ _ _ _ _ _ _ _ Hcs Hj Hx1). lia.
      * rewrite lookup_app_l in Hk by assumption.
        rewrite lookup_app_r in Hj by lia.
        destruct (j - length Fs) as [|?]; [|discriminate]. simpl in Hj.
        injection Hj as <-.
        intros x Hx1 Hx2. specialize (Hfresh x Hx1).
        pose proof (children_valid _ _ _ _ _ _ _ _ Hcs Hk Hx2). lia.
      * rewrite lookup_app_r in Hj, Hk by lia.
        destruct (j - length Fs) as [|?] eqn:E1; [|discriminate].
        destruct (k - length Fs) as [|?] eqn:E2; [|discriminate]. lia.
    + rewrite Hunion. intros x Hx1 Hx2.
      apply elem_of_union in Hx1 as [Hx1|Hx1]; [set_solver|].
      specialize (Hfresh x Hx1).
      pose proof (param_valid _ _ _ _ _ _ Hp Hx2). lia.
  - intros x Hx.
    apply elem_of_union in Hx as [Hx|Hx]; [|left; set_solver].
    apply elem_of_union in Hx as [Hx|Hx]; [left; set_solver|].
    apply Hunion in Hx.
    apply elem_of_union in Hx as [Hx|Hx]; [left; set_solver|].
    right. now apply Hfresh.
Qed.

End Reassemble.

(** A cell without successors holds a leaf. *)
Lemma repr_leaf (h : list Heap.cell) a c n :
  h !! a = Some c -> cell_matches c n ->
  Heap.c_children c = [] -> children n = [] ->
  Heap.c_paramChild c = None -> paramChild n = None ->
  repr 1 h a n {[a]}.
Proof.
  intros Hl Hm Hc1 Hc2 Hp1 Hp2. exists c, [], ∅.
  rewrite Hc1, Hc2, Hp1, Hp2. repr_split; auto.
  - constructor.
  - constructor.
  - simpl. set_solver.
  - intros i j Fi Fj Hi. destruct i; discriminate.
  - simpl. set_solver.
  - simpl. set_solver.
Qed.

(** ** The loop over the children of [node.insert] *)

Lemma find_common_refines d h segment cas ns Fs : forall i0,
  Forall3 (repr d h) cas ns Fs ->
  match find_common segment ns i0 with
  | Some (i, child, k) =>
      exists ci cc Fi,
        i0 <= i /\ cas !! (i - i0) = Some ci /\ ns !! (i - i0) = Some child /\
        Fs !! (i - i0) = Some Fi /\
        h !! ci = Some cc /\ cell_matches cc child /\ repr d h ci child Fi /\
        Heap.find_common h segment cas i0 = Done (Some (i, ci, k))
  | None => Heap.find_common h segment cas i0 = Done None
  end.
Proof.
  intros i0 H. revert i0.
  induction H as [|ca nd Fa cas ns Fs Hr _ IH]; intros i0; [reflexivity|].
  destruct (repr_lookup _ _ _ _ _ Hr) as (cc & Hl & Hm).
  cbn [find_common Heap.find_common].
  rewrite (load_lookup _ _ _ Hl). cbn [mbind res_bind].
  destruct Hm as (Ht & Hlab & Hpre & Hkey & Hrt).
  rewrite Ht, Hpre.
  destruct (negb (is_static (nType nd))).
  { specialize (IH (S i0)).
    destruct (find_common segment ns (S i0)) as [[[i child] k]|]; [|exact IH].
    destruct IH as (ci & cc' & Fi & Hle & H1 & H2 & H3 & H4 & H5 & H6 & H7).
    exists ci, cc', Fi.
    replace (i - i0) with (S (i - S i0)) by lia.
    split; [lia|].
    exact (conj H1 (conj H2 (conj H3 (conj H4 (conj H5 (conj H6 H7)))))). }
  cbn zeta.
  destruct (Nat.eqb (longestCommonPrefix segment (prefix nd)) 0).
  { specialize (IH (S i0)).
    destruct (find_common segment ns (S i0)) as [[[i child] k]|]; [|exact IH].
    destruct IH as (ci & cc' & Fi & Hle & H1 & H2 & H3 & H4 & H5 & H6 & H7).
    exists ci, cc', Fi.
    replace (i - i0) with (S (i - S i0)) by lia.
    split; [lia|].
    exact (conj H1 (conj H2 (conj H3 (conj H4 (conj H5 (conj H6 H7)))))). }
  exists ca, cc, Fa. rewrite Nat.sub_diag.
  split; [lia|].
  refine (conj eq_refl (conj eq_refl (conj eq_refl (conj Hl (conj _ (conj Hr eq_refl)))))).
  unfold cell_matches. auto.
Qed.

(** The children of a node are held at distinct addresses, so the loop
    that looks for the pointer [child] stops at its index. *)
Lemma replace_first_insert (cas : list nat) i ci sp :
  cas !! i = Some ci ->
  (forall j cj, j <> i -> cas !! j = Some cj -> cj <> ci) ->
  Heap.replace_first cas ci sp = <[i := sp]> cas.
Proof.
  revert i. induction cas as [|c0 cas IH]; intros i Hi Hne; [discriminate|].
  destruct i as [|i]; simpl in *.
  - injection Hi as ->. now rewrite Nat.eqb_refl.
  - destruct (Nat.eqb_spec c0 ci) as [E|E].
    + exfalso. apply (Hne 0 c0); auto.
    + f_equal. apply IH; [exact Hi|].
      intros j cj Hj Hcj. apply (Hne (S j) cj); auto.
Qed.

Lemma children_distinct d h cas ns Fs i j ci cj :
  Forall3 (repr d h) cas ns Fs -> pairwise_disjoint Fs ->
  cas !! i = Some ci -> cas !! j = Some cj -> j <> i -> cj <> ci.
Proof.
  intros Hcs Hpd Hi Hj Hne ->.
  destruct (Forall3_lookup_l _ _ _ _ _ _ Hcs Hi) as (ni & Fi & _ & HFi & Hri).
  destruct (Forall3_lookup_l _ _ _ _ _ _ Hcs Hj) as (nj & Fj & _ & HFj & Hrj).
  apply repr_self in Hri, Hrj.
  specialize (Hpd j i Fj Fi HFj HFi Hne). set_solver.
Qed.

(** ** The split

    After the split of the child at [ci], the cell allocated at the end of
    the store holds the split node, with the cut child below it. *)
Lemma split_repr d (h : list Heap.cell) a ci cc child Fi k l cf :
  a < length h -> a ∉ Fi ->
  h !! ci = Some cc -> repr d h ci child Fi ->
  repr (S d)
    (<[a := cf]>
       (<[ci := Heap.with_prefix cc l (drop k (Heap.c_prefix cc))]>
          (h ++ [Heap.Cell static (Heap.c_label cc)
                           (take k (Heap.c_prefix cc)) "" None [ci] None])))
    (length h) (split_node child k l) ({[length h]} ∪ Fi).
Proof.
  intros Ha HaF Hl Hr.
  assert (Hci : ci ∈ Fi) by (eapply repr_self; eauto).
  assert (Hlt : ci < length h) by (eapply lookup_lt_Some; eauto).
  assert (Hne : a <> ci) by (intros ->; auto).
  assert (Hcut : repr d
    (<[a := cf]>
       (<[ci := Heap.with_prefix cc l (drop k (Heap.c_prefix cc))]>
          (h ++ [Heap.Cell static (Heap.c_label cc)
                           (take k (Heap.c_prefix cc)) "" None [ci] None])))
    ci (cut_child child k l) Fi).
  { destruct d as [|d]; [destruct Hr|].
    destruct Hr as (c0 & Fs & Fp & Hl0 & Hm & Hcs & Hp & Hni & Hpd & Hdp & ->).
    assert (c0 = cc) as -> by congruence.
    assert (Hag : forall x, x ∈ ⋃ Fs ∪ Fp ->
      (<[a := cf]>
         (<[ci := Heap.with_prefix cc l (drop k (Heap.c_prefix cc))]>
            (h ++ [Heap.Cell static (Heap.c_label cc)
                             (take k (Heap.c_prefix cc)) "" None [ci] None])))
        !! x = h !! x).
    { intros x Hx.
      assert (x < length h).
      { apply elem_of_union in Hx as [Hx|Hx].
        - apply elem_of_union_list in Hx as (Fj & HFj & Hx).
          apply list_elem_of_lookup_1 in HFj as [j Hj].
          apply (children_valid _ _ _ _ _ _ _ _ Hcs Hj Hx).
        - apply (param_valid _ _ _ _ _ _ Hp Hx). }
      rewrite list_lookup_insert_ne by (intros ->; set_solver).
      rewrite list_lookup_insert_ne by (intros ->; set_solver).
      now apply lookup_app_l. }
    exists (Heap.with_prefix cc l (drop k (Heap.c_prefix cc))), Fs, Fp.
    repr_split; auto.
    - rewrite list_lookup_insert_ne by exact Hne.
      apply list_lookup_insert_eq. rewrite length_app. lia.
    - destruct Hm as (H1 & H2 & H3 & H4 & H5).
      unfold cell_matches, cut_child; simpl. rewrite H3. auto.
    - eapply Forall3_impl_lookup; [exact Hcs|].
      intros j x y z _ _ Hz Hrj. eapply repr_agree; [exact Hrj|].
      intros w Hw. apply Hag.
      pose proof (elem_of_union_list_lookup _ _ _ _ Hz Hw). set_solver.
    - eapply opt3_impl_strong; [exact Hp|]. intros p pn _ _ Hrp.
      eapply repr_agree; [exact Hrp|].
      intros w Hw. apply Hag. set_solver. }
  destruct (repr_lookup _ _ _ _ _ Hr) as (c0 & Hl0 & Hm).
  assert (c0 = cc) as -> by congruence.
  exists (Heap.Cell static (Heap.c_label cc) (take k (Heap.c_prefix cc)) ""
                    None [ci] None), [Fi], ∅.
  repr_split.
  - rewrite list_lookup_insert_ne by lia.
    rewrite list_lookup_insert_ne by lia.
    rewrite lookup_app_r by lia. now rewrite Nat.sub_diag.
  - destruct Hm as (H1 & H2 & H3 & H4 & H5).
    unfold cell_matches, split_node; simpl. rewrite H2, H3. auto.
  - simpl. repeat constructor. exact Hcut.
  - constructor.
  - simpl. intros Hin.
    assert (length h ∈ Fi) as Hin' by set_solver.
    pose proof (repr_valid _ _ _ _ _ _ Hr Hin'). lia.
  - intros i j Gi Gj Hi Hj Hij.
    destruct i as [|i], j as [|j]; try discriminate. lia.
  - simpl. set_solver.
  - simpl. set_solver.
Qed.

(** ** [node.insert] *)

Lemma refines_Done h a F n' h' d' F' :
  repr d' h' a n' F' -> ext h F h' -> grows F h F' ->
  refines h a F (Done n') (Done h').
Proof. intros. exists h', d', F'. auto. Qed.

Section Step.

Variable fuel : nat.
Hypothesis IH : forall d h a n F path rt,
  repr d h a n F ->
  refines h a F (node_insert fuel n path rt) (Heap.node_insert fuel h a path rt).

Lemma continue_refines d h t tn Ft sub rt :
  repr d h t tn Ft ->
  refines h t Ft (continue_insert fuel tn sub rt)
          (Heap.continue_at fuel h t sub rt).
Proof.
  intros Hr. unfold continue_insert, Heap.continue_at.
  destruct (String.eqb sub ""); [eapply set_route_refines | eapply IH]; eauto.
Qed.

Lemma param_step d h a n F c segment remaining rt :
  repr d h a n F -> h !! a = Some c ->
  refines h a F
    (pc' ← continue_insert fuel (param_target n segment) remaining rt;
     Done (set_paramChild n (Some pc')))
    (let '(h1, pc) := Heap.param_slot h a c segment in
     Heap.continue_at fuel h1 pc remaining rt).
Proof.
  destruct d as [|d]; [intros []|].
  intros (c0 & Fs & Fp & Hl & Hm & Hcs & Hp & Ha & Hpd & Hdp & ->) Hc.
  assert (c0 = c) as -> by congruence.
  pose proof (lookup_lt_Some _ _ _ Hl) as Hlt.
  unfold Heap.param_slot, param_target.
  inversion Hp as [Hp1 Hp2 Hp0 | p pn Fp0 Hrp Hp1 Hp2 Hp0].
  - (* the parameter child is allocated *)
    subst Fp.
    set (nc := Heap.Cell param zero_byte segment (drop 1 segment) None [] None).
    set (h1 := <[a := Heap.with_paramChild c (Some (length h))]> (h ++ [nc])).
    assert (Hh1 : length h1 = S (length h)).
    { unfold h1. rewrite length_insert, length_app. simpl. lia. }
    assert (Hleaf : repr 1 h1 (length h)
              (Node param zero_byte segment (drop 1 segment) None [] None)
              {[length h]}).
    { apply (repr_leaf h1 (length h) nc); try reflexivity.
      - unfold h1. rewrite list_lookup_insert_ne by lia.
        rewrite lookup_app_r by lia. now rewrite Nat.sub_diag.
      - unfold cell_matches; simpl; auto. }
    pose proof (continue_refines _ _ _ _ _ remaining rt Hleaf) as Hk.
    destruct (continue_insert fuel _ remaining rt) as [pn'| |];
      cbn [mbind res_bind]; [|exact Hk|exact Hk].
    destruct Hk as (h' & d' & Fp' & -> & Hr' & [Hlen Hext] & Hgrow).
    assert (Ha' : h' !! a = Some (Heap.with_paramChild c (Some (length h)))).
    { rewrite Hext;
        [|rewrite Hh1; lia|apply not_elem_of_singleton; lia].
      unfold h1. apply list_lookup_insert_eq. rewrite length_app. lia. }
    assert (Hag : forall x, x < length h -> x <> a -> h' !! x = h !! x).
    { intros x Hx Hxa. rewrite Hext;
        [|rewrite Hh1; lia|apply not_elem_of_singleton; lia].
      unfold h1. rewrite list_lookup_insert_ne by congruence.
      now apply lookup_app_l. }
    assert (Hg : grows ∅ h Fp').
    { intros x Hx. right. destruct (Hgrow x Hx) as [H1|H1]; [|lia].
      apply elem_of_singleton in H1. lia. }
    destruct (reassemble_param d h a n c Fs ∅ Hl Hm Hcs Hp Ha Hpd Hdp
                h' d' (length h) pn' Fp' Hr' _ Ha') as [Hrepr Hgr]; auto.
    eapply refines_Done; [exact Hrepr| |exact Hgr].
    split; [lia|]. intros x Hx Hnot. apply Hag; [exact Hx|set_solver].
  - (* the parameter child is there *)
    subst Fp0. rewrite <- ?Hp1, <- ?Hp2.
    pose proof (continue_refines _ _ _ _ _ remaining rt Hrp) as Hk.
    destruct (continue_insert fuel pn remaining rt) as [pn'| |];
      cbn [mbind res_bind]; [|exact Hk|exact Hk].
    destruct Hk as (h' & d' & Fp' & -> & Hr' & [Hlen Hext] & Hgrow).
    assert (Ha' : h' !! a = Some c).
    { rewrite Hext; [exact Hl|exact Hlt|set_solver]. }
    destruct (reassemble_param d h a n c Fs Fp Hl Hm Hcs Hp Ha Hpd Hdp
                h' d' p pn' Fp' Hr' c Ha') as [Hrepr Hgr]; auto.
    eapply refines_Done; [exact Hrepr| |exact Hgr].
    split; [lia|]. intros x Hx Hnot. apply Hext; [exact Hx|set_solver].
Qed.

Lemma append_step d h a n F c l segment remaining rt :
  repr d h a n F -> h !! a = Some c ->
  refines h a F
    (target' ← continue_insert fuel (new_child l segment) remaining rt;
     Done (set_children n (children n ++ [target'])))
    (h2 ← Heap.continue_at fuel
            (h ++ [Heap.Cell static l segment "" None [] None])
            (length h) remaining rt;
     c' ← Heap.load h2 a;
     Done (<[a := Heap.with_children c' (Heap.c_children c' ++ [length h])]> h2)).
Proof.
  destruct d as [|d]; [intros []|].
  intros (c0 & Fs & Fp & Hl & Hm & Hcs & Hp & Ha & Hpd & Hdp & ->) Hc.
  assert (c0 = c) as -> by congruence.
  pose proof (lookup_lt_Some _ _ _ Hl) as Hlt.
  set (nc := Heap.Cell static l segment "" None [] None).
  assert (Hh1 : length (h ++ [nc]) = S (length h)).
  { rewrite length_app. simpl. lia. }
  assert (Hleaf : repr 1 (h ++ [nc]) (length h) (new_child l segment)
                       {[length h]}).
  { apply (repr_leaf _ (length h) nc); try reflexivity.
    - rewrite lookup_app_r by lia. now rewrite Nat.sub_diag.
    - unfold cell_matches; simpl; auto. }
  pose proof (continue_refines _ _ _ _ _ remaining rt Hleaf) as Hk.
  destruct (continue_insert fuel _ remaining rt) as [tn'| |];
    cbn [mbind res_bind];
    [|simpl in Hk; rewrite Hk; reflexivity|simpl in Hk; rewrite Hk; reflexivity].
  destruct Hk as (h2 & d' & Ft' & -> & Hr' & [Hlen Hext] & Hgrow).
  cbn [mbind res_bind].
  assert (Hold : forall x, x < length h -> h2 !! x = h !! x).
  { intros x Hx.
    rewrite Hext; [|rewrite Hh1; lia|apply not_elem_of_singleton; lia].
    now apply lookup_app_l. }
  rewrite (load_lookup h2 a c) by (rewrite Hold; auto).
  cbn [mbind res_bind].
  assert (Hfresh : forall x, x ∈ Ft' -> length h <= x).
  { intros x Hx. destruct (Hgrow x Hx) as [H1|H1]; [|lia].
    apply elem_of_singleton in H1. lia. }
  set (cf := Heap.with_children c (Heap.c_children c ++ [length h])).
  assert (Hr2 : repr d' (<[a := cf]> h2) (length h) tn' Ft').
  { eapply repr_agree; [exact Hr'|].
    intros x Hx. apply list_lookup_insert_ne.
    specialize (Hfresh x Hx). lia. }
  destruct (reassemble_append d h a n c Fs Fp Hl Hm Hcs Hp Ha Hpd Hdp
              (<[a := cf]> h2) d' (length h) tn' Ft' Hr2 cf) as [Hrepr Hgr];
    auto.
  - apply list_lookup_insert_eq. lia.
  - intros x Hx Hxa. rewrite list_lookup_insert_ne by congruence. auto.
  - intros x Hx. right. auto.
  - eapply refines_Done; [exact Hrepr| |exact Hgr].
    split; [rewrite length_insert; lia|].
    intros x Hx Hnot.
    rewrite list_lookup_insert_ne by set_solver. auto.
Qed.

Lemma child_step d h a n c Fs Fp i ci cc child Fi k segment remaining rt :
  h !! a = Some c -> cell_matches c n ->
  Forall3 (repr d h) (Heap.c_children c) (children n) Fs ->
  opt3 (repr d h) ∅ (Heap.c_paramChild c) (paramChild n) Fp ->
  a ∉ ⋃ Fs ∪ Fp -> pairwise_disjoint Fs -> ⋃ Fs ## Fp ->
  Heap.c_children c !! i = Some ci -> children n !! i = Some child ->
  Fs !! i = Some Fi -> h !! ci = Some cc -> cell_matches cc child ->
  repr d h ci child Fi ->
  refines h a ({[a]} ∪ ⋃ Fs ∪ Fp)
    (match static_target child k with
     | None => Panic
     | Some target =>
         target' ← continue_insert fuel target
                     (rest_path k segment remaining) rt;
         Done (set_children n (<[i := target']> (children n)))
     end)
    (if Nat.eqb k (String.length (Heap.c_prefix cc)) then
       Heap.continue_at fuel h ci (rest_path k segment remaining) rt
     else
       match head (drop k (Heap.c_prefix cc)) with
       | None => Panic
       | Some l =>
           h3 ← Heap.split_store h a ci cc k l;
           Heap.continue_at fuel h3 (length h)
             (rest_path k segment remaining) rt
       end).
Proof.
  intros Hl Hm Hcs Hp Ha Hpd Hdp Hci Hni HFi Hlc Hmc Hri.
  pose proof (lookup_lt_Some _ _ _ Hl) as Hlt.
  pose proof (lookup_lt_Some _ _ _ Hlc) as Hltc.
  assert (Hsub : forall x, x ∈ Fi -> x ∈ ⋃ Fs).
  { intros x. apply elem_of_union_list_lookup with (i := i). exact HFi. }
  assert (HaFi : a ∉ Fi) by (intros Hin; apply Ha; set_solver).
  assert (Hcin : ci ∈ Fi) by (eapply repr_self; eauto).
  assert (Hne : a <> ci) by (intros ->; auto).
  unfold static_target.
  replace (Heap.c_prefix cc) with (prefix child)
    by (destruct Hmc as (_ & _ & H3 & _); auto).
  destruct (Nat.eqb k (String.length (prefix child))).
  - (* the child is entered *)
    pose proof (continue_refines _ _ _ _ _ (rest_path k segment remaining) rt
                  Hri) as Hk.
    destruct (continue_insert fuel child _ rt) as [tn'| |];
      cbn [mbind res_bind]; [|exact Hk|exact Hk].
    destruct Hk as (h' & d' & Ft' & -> & Hr' & [Hlen Hext] & Hgrow).
    assert (Ha' : h' !! a = Some c) by (rewrite Hext; auto).
    destruct (reassemble_child d h a n c Fs Fp Hl Hm Hcs Hp Ha Hpd Hdp
                h' d' ci tn' Ft' Hr' i Fi c HFi Ha') as [Hrepr Hgr]; auto.
    { symmetry. now apply list_insert_id. }
    eapply refines_Done; [exact Hrepr| |exact Hgr].
    split; [lia|]. intros x Hx Hnot. apply Hext; [exact Hx|set_solver].
  - (* the child is split *)
    destruct (head (drop k (prefix child))) as [l|]; [|reflexivity].
    unfold Heap.split_store.
    set (sp := Heap.Cell static (Heap.c_label cc) (take k (Heap.c_prefix cc))
                         "" None [ci] None).
    set (h2 := <[ci := Heap.with_prefix cc l (drop k (Heap.c_prefix cc))]>
                 (h ++ [sp])).
    assert (Hh2 : length h2 = S (length h)).
    { unfold h2. rewrite length_insert, length_app. simpl. lia. }
    assert (Hl2 : h2 !! a = Some c).
    { unfold h2. rewrite list_lookup_insert_ne by congruence.
      rewrite lookup_app_l by exact Hlt. exact Hl. }
    rewrite (load_lookup _ _ _ Hl2). cbn [mbind res_bind].
    rewrite (replace_first_insert _ i ci (length h) Hci)
      by (intros j cj Hj Hcj;
          apply (children_distinct _ _ _ _ _ _ _ _ _ Hcs Hpd Hci Hcj Hj)).
    set (cf := Heap.with_children c (<[i := length h]> (Heap.c_children c))).
    pose proof (split_repr d h a ci cc child Fi k l cf Hlt HaFi Hlc Hri) as Hsp.
    fold sp in Hsp. fold h2 in Hsp.
    pose proof (continue_refines _ _ _ _ _ (rest_path k segment remaining) rt
                  Hsp) as Hk.
    destruct (continue_insert fuel _ _ rt) as [tn'| |];
      cbn [mbind res_bind]; [|exact Hk|exact Hk].
    destruct Hk as (h' & d' & Ft' & -> & Hr' & [Hlen Hext] & Hgrow).
    rewrite length_insert, Hh2 in Hlen, Hext.
    assert (Ha' : h' !! a = Some cf).
    { rewrite Hext; [|lia|].
      - apply list_lookup_insert_eq. lia.
      - intros Hin. apply elem_of_union in Hin as [Hin|Hin]; [|auto].
        apply elem_of_singleton in Hin. lia. }
    assert (Hag : forall x, x < length h -> x <> a -> x ∉ Fi ->
                            h' !! x = h !! x).
    { intros x Hx Hxa HxF. rewrite Hext; [|lia|].
      - rewrite list_lookup_insert_ne by congruence.
        unfold h2. rewrite list_lookup_insert_ne by (intros ->; auto).
        now apply lookup_app_l.
      - intros Hin. apply elem_of_union in Hin as [Hin|Hin]; [|auto].
        apply elem_of_singleton in Hin. lia. }
    assert (Hg : grows Fi h Ft').
    { intros x Hx. destruct (Hgrow x Hx) as [H1|H1].
      - apply elem_of_union in H1 as [H1|H1]; [|now left].
        apply elem_of_singleton in H1. right. lia.
      - right. rewrite length_insert, Hh2 in H1. lia. }
    destruct (reassemble_child d h a n c Fs Fp Hl Hm Hcs Hp Ha Hpd Hdp
                h' d' (length h) tn' Ft' Hr' i Fi cf HFi Ha') as [Hrepr Hgr];
      auto.
    eapply refines_Done; [exact Hrepr| |exact Hgr].
    split; [lia|]. intros x Hx Hnot. apply Hag; [exact Hx|set_solver|set_solver].
Qed.

End Step.

(** [node.insert] on the store computes [node_insert] on the node that the
    store holds at the receiver: both return, panic or run out of budget
    together, and the store returned holds the node returned. Cells outside
    the receiver's footprint are left alone. *)
Theorem node_insert_refines fuel : forall d h a n F path rt,
  repr d h a n F ->
  refines h a F (node_insert fuel n path rt)
          (Heap.node_insert fuel h a path rt).
Proof.
  induction fuel as [|fuel IH]; intros d h a n F path rt Hr; [reflexivity|].
  rewrite node_insert_unfold, HeapProps.store_insert_unfold.
  destruct (String.eqb path "/"); [eapply set_route_refines; eauto|].
  destruct (next_segment (TrimPrefix path "/")) as [segment remaining].
  destruct (repr_lookup _ _ _ _ _ Hr) as (c & Hl & Hm).
  rewrite (load_lookup _ _ _ Hl). cbn [mbind res_bind].
  destruct (is_param (segment_type segment)).
  { eapply param_step; eauto. }
  destruct d as [|d]; [destruct Hr|].
  pose proof Hr as Hr0.
  destruct Hr as (c0 & Fs & Fp & Hl0 & _ & Hcs & Hp & Ha & Hpd & Hdp & ->).
  assert (c0 = c) as -> by congruence.
  pose proof (find_common_refines d h segment _ _ _ 0 Hcs) as Hfc.
  destruct (find_common segment (children n) 0) as [[[i child] k]|].
  - destruct Hfc as (ci & cc & Fi & _ & H1 & H2 & H3 & H4 & H5 & H6 & ->).
    rewrite Nat.sub_0_r in H1, H2, H3.
    cbn [mbind res_bind]. rewrite (load_lookup _ _ _ H4).
    cbn [mbind res_bind].
    eapply child_step; eauto.
  - rewrite Hfc. cbn [mbind res_bind].
    destruct (head segment) as [l|]; [|reflexivity].
    eapply append_step; eauto.
Qed.

(** ** Trees *)

Lemma newTree_holds (h : list Heap.cell) :
  holds (Heap.newTree h).1 (Heap.newTree h).2 newTree.
Proof.
  exists 1, {[length h]}. cbn [Heap.newTree fst snd Heap.root root newTree].
  apply (repr_leaf _ (length h) (Heap.Cell static zero_byte "" "" None [] None));
    try reflexivity.
  - rewrite lookup_app_r by lia. now rewrite Nat.sub_diag.
  - unfold cell_matches; simpl; auto.
Qed.

Theorem tree_insert_refines h th t path rt :
  holds h th t ->
  match tree_insert t path rt with
  | Done t' =>
      exists h', Heap.tree_insert h th path rt = Done h' /\ holds h' th t'
  | Panic => Heap.tree_insert h th path rt = Panic
  | Timeout => Heap.tree_insert h th path rt = Timeout
  end.
Proof.
  intros (d & F & Hr). unfold tree_insert, Heap.tree_insert.
  pose proof (node_insert_refines (budget (normalize path)) _ _ _ _ _
                (normalize path) rt Hr) as H.
  destruct (node_insert _ (root t) _ rt) as [n'| |]; cbn [mbind res_bind];
    [|exact H|exact H].
  destruct H as (h' & d' & F' & -> & Hr' & _).
  exists h'. split; [reflexivity|]. exists d', F'. exact Hr'.
Qed.

Theorem tree_search_refines h th t path :
  holds h th t -> Heap.tree_search h th path = tree_search t path.
Proof.
  intros (d & F & Hr). unfold tree_search, Heap.tree_search.
  now rewrite (node_search_refines _ _ _ _ _ _ _ _ Hr).
Qed.

Theorem insert_all_refines ops : forall h th t,
  holds h th t ->
  match insert_all t ops with
  | Done t' =>
      exists h', store_insert_all h th ops = Done h' /\ holds h' th t' /\
                 forall p, Heap.tree_search h' th p = tree_search t' p
  | Panic => store_insert_all h th ops = Panic
  | Timeout => store_insert_all h th ops = Timeout
  end.
Proof.
  induction ops as [|[p r] ops IH]; intros h th t Hh; simpl.
  - exists h. split; [reflexivity|]. split; [exact Hh|].
    intros q. now apply tree_search_refines.
  - pose proof (tree_insert_refines h th t p r Hh) as H.
    destruct (tree_insert t p r) as [t1| |]; cbn [mbind res_bind].
    + destruct H as (h1 & -> & Hh1). cbn [mbind res_bind]. now apply IH.
    + now rewrite H.
    + now rewrite H.
Qed.


(** The trees built by the same registrations from the empty tree, on the
    store and as a value, answer every search alike. *)
Corollary registrations_refine ops t :
  insert_all newTree ops = Done t ->
  exists h',
    store_insert_all (Heap.newTree []).1 (Heap.newTree []).2 ops = Done h' /\
    forall p, Heap.tree_search h' (Heap.newTree []).2 p = tree_search t p.
Proof.
  intros H.
  pose proof (insert_all_refines ops _ _ _ (newTree_holds [])) as Hr.
  rewrite H in Hr. destruct Hr as (h' & H1 & _ & H2). eauto.
Qed.

End RefineProps.

Module TreeProps.

Local Open Scope list_scope.

(** * The longest common prefix *)

Lemma lcp_take a : forall b,
  take (longestCommonPrefix a b) a = take (longestCommonPrefix a b) b.
Proof.
  induction a as [|x a IH]; intros [|y b]; simpl; try reflexivity.
  destruct (Ascii.eqb_spec x y) as [->|Hne]; simpl; [|reflexivity].
  now rewrite IH.
Qed.

Lemma lcp_comm a : forall b, longestCommonPrefix a b = longestCommonPrefix b a.
Proof.
  induction a as [|x a IH]; intros [|y b]; simpl; try reflexivity.
  rewrite (Ascii.eqb_sym y x).
  destruct (Ascii.eqb x y); [now rewrite IH|reflexivity].
Qed.

Lemma lcp_maximal a : forall b j,
  longestCommonPrefix a b < j -> j <= String.length a -> j <= String.length b ->
  take j a <> take j b.
Proof.
  induction a as [|x a IH]; intros [|y b] j; simpl; try lia.
  destruct (Ascii.eqb_spec x y) as [->|Hne].
  - intros Hlt Ha Hb. destruct j as [|j]; [lia|]. simpl.
    intros H. injection H as H. revert H. apply IH; lia.
  - intros Hlt Ha Hb. destruct j as [|j]; [lia|]. simpl. congruence.
Qed.

(** X1 — [longestCommonPrefix a b] is the length of the longest string that
    starts both [a] and [b]; the order of the arguments does not matter. *)
Theorem longestCommonPrefix_longest (a b : string) :
  longestCommonPrefix a b <= String.length a /\
  longestCommonPrefix a b <= String.length b /\
  take (longestCommonPrefix a b) a = take (longestCommonPrefix a b) b /\
  (forall j, longestCommonPrefix a b < j ->
             j <= String.length a -> j <= String.length b ->
             take j a <> take j b) /\
  longestCommonPrefix b a = longestCommonPrefix a b.
Proof.
  split; [apply lcp_le_l|]. split; [apply lcp_le_r|].
  split; [apply lcp_take|]. split; [apply lcp_maximal|].
  apply lcp_comm.
Qed.

(** * The routes collected from a tree *)

Lemma range_collect_app cs : forall routes,
  (forall c, c ∈ cs -> forall acc,
      node_collectRoutes c acc = acc ++ node_collectRoutes c []) ->
  (fix range (cs : list node) (routes : list Route) : list Route :=
     match cs with
     | [] => routes
     | child :: cs' => range cs' (node_collectRoutes child routes)
     end) cs routes
  = routes ++ flat_map (fun c => node_collectRoutes c []) cs.
Proof.
  induction cs as [|c cs IH]; intros routes H; simpl.
  - now rewrite app_nil_r.
  - rewrite IH by (intros c' Hc'; apply H; now right).
    rewrite (H c) by now left. now rewrite <- app_assoc.
Qed.

Lemma node_ind_nested (P : node -> Prop) :
  (forall t l p k r cs pc,
      Forall P cs -> (forall x, pc = Some x -> P x) ->
      P (Node t l p k r cs pc)) ->
  forall n, P n.
Proof.
  intros H. fix IH 1. intros [t l p k r cs pc]. apply H.
  - induction cs as [|c cs IHcs]; constructor; [apply IH|exact IHcs].
  - destruct pc as [x|]; intros y Hy; [|discriminate].
    replace y with x by congruence. apply IH.
Qed.

Lemma node_collectRoutes_acc n : forall acc,
  node_collectRoutes n acc = acc ++ node_collectRoutes n [].
Proof.
  induction n as [t l p k r cs pc IHcs IHpc] using node_ind_nested.
  intros acc. cbn [node_collectRoutes].
  rewrite Forall_forall in IHcs.
  rewrite !range_collect_app by (intros c Hc; apply IHcs; exact Hc).
  destruct pc as [x|].
  - rewrite (IHpc x eq_refl).
    rewrite (IHpc x eq_refl (_ ++ flat_map _ cs)).
    destruct r; simpl; now rewrite <- ?app_assoc.
  - destruct r; simpl; now rewrite <- ?app_assoc.
Qed.

(** The slice built by [node.collectRoutes]. *)
Lemma node_collectRoutes_eq n :
  node_collectRoutes n [] =
    own_route n ++ flat_map (fun c => node_collectRoutes c []) (children n)
    ++ match paramChild n with
       | Some p => node_collectRoutes p []
       | None => []
       end.
Proof.
  destruct n as [t l p k r cs pc]. cbn [node_collectRoutes].
  rewrite range_collect_app by (intros; apply node_collectRoutes_acc).
  unfold own_route; simpl.
  destruct pc as [x|].
  - rewrite node_collectRoutes_acc. destruct r; simpl; now rewrite <- ?app_assoc.
  - destruct r; simpl; now rewrite ?app_nil_r.
Qed.

Lemma own_route_set_route n r : own_route (set_route n (Some r)) = [r].
Proof. reflexivity. Qed.

Lemma collect_same_fields n1 n2 :
  route n1 = route n2 -> children n1 = children n2 ->
  paramChild n1 = paramChild n2 ->
  node_collectRoutes n1 [] = node_collectRoutes n2 [].
Proof.
  intros H1 H2 H3. rewrite (node_collectRoutes_eq n1), (node_collectRoutes_eq n2).
  unfold own_route. now rewrite H1, H2, H3.
Qed.

Lemma collect_split_node child k c :
  node_collectRoutes (split_node child k c) [] = node_collectRoutes child [].
Proof.
  rewrite node_collectRoutes_eq.
  change ((node_collectRoutes (cut_child child k c) [] ++ []) ++ []
          = node_collectRoutes child []).
  rewrite !app_nil_r. now apply collect_same_fields.
Qed.

Lemma collect_static_target child k target :
  static_target child k = Some target ->
  node_collectRoutes target [] = node_collectRoutes child [].
Proof.
  unfold static_target.
  destruct (Nat.eqb k (String.length (prefix child))); [congruence|].
  destruct (head (drop k (prefix child))); [|discriminate].
  intros [= <-]. apply collect_split_node.
Qed.

Lemma elem_of_flat_map {A B} (f : A -> list B) (l : list A) y :
  y ∈ flat_map f l <-> exists x, x ∈ l /\ y ∈ f x.
Proof.
  induction l as [|a l IH]; simpl.
  - split; [intros H; inversion H|intros (x & H & _); inversion H].
  - rewrite elem_of_app, IH. split.
    + intros [H|(x & H1 & H2)]; [exists a|exists x]; split; auto;
        [now left|now right].
    + intros (x & H1 & H2). apply elem_of_cons in H1 as [->|H1]; eauto.
Qed.

(** ** A route found by the search is a collected route *)

Lemma node_search_collected fuel : forall n path ps r ps',
  node_search fuel n path ps = Done (Some r, ps') ->
  r ∈ node_collectRoutes n [].
Proof.
  induction fuel as [|fuel IH]; intros n path ps r ps'; [discriminate|].
  assert (Hcont : forall m sub qs,
            continue_search fuel m sub qs = Done (Some r, ps') ->
            r ∈ node_collectRoutes m []).
  { intros m sub qs. unfold continue_search.
    destruct (String.eqb sub "").
    - intros [= Hr _]. rewrite node_collectRoutes_eq. unfold own_route.
      rewrite Hr. set_solver.
    - apply IH. }
  rewrite node_search_unfold.
  destruct (String.eqb path "/" || String.eqb path "").
  { intros [= Hr _]. rewrite node_collectRoutes_eq. unfold own_route.
    rewrite Hr. set_solver. }
  destruct (next_segment (TrimPrefix path "/")) as [segment remaining].
  destruct (find_static segment (children n)) as [child|] eqn:Hfs.
  - intros H. apply Hcont in H.
    apply find_static_Some in Hfs as (Hin & _).
    rewrite node_collectRoutes_eq.
    apply elem_of_app. right. apply elem_of_app. left.
    apply elem_of_flat_map. exists child. split; assumption.
  - destruct (paramChild n) as [pc|] eqn:Hpc; [|discriminate].
    intros H. apply Hcont in H.
    rewrite node_collectRoutes_eq, Hpc.
    apply elem_of_app. right. apply elem_of_app. now right.
Qed.

(** X2 — [tree.search] returns only routes that [tree.collectRoutes] lists, on
    every tree and for every path. *)
Theorem tree_search_collected (t : tree) (path : string) (r : Route)
    (ps : params) :
  tree_search t path = Done (Some r, ps) ->
  r ∈ tree_collectRoutes t.
Proof.
  intros H. apply tree_search_node in H.
  eapply node_search_collected; eauto.
Qed.

Lemma tree_search_collected_witness :
  tree_search tree_users "/users/me" = Done (Some route_me, None) /\
  route_me ∈ tree_collectRoutes tree_users.
Proof.
  split; [reflexivity|].
  apply (tree_search_collected tree_users "/users/me" route_me None).
  reflexivity.
Defined.

(** ** An insertion changes one slot of the collected routes *)

Lemma one_slot_ctx a b old new rt :
  one_slot old new rt -> one_slot (a ++ old ++ b) (a ++ new ++ b) rt.
Proof.
  intros (l1 & l2 & -> & H). exists (a ++ l1), (l2 ++ b). split.
  - now rewrite <- !app_assoc.
  - destruct H as [->|[r0 ->]]; [left|right; exists r0];
      now rewrite <- !app_assoc.
Qed.

Lemma one_slot_mid a b c d old new rt :
  one_slot old new rt ->
  one_slot (a ++ (b ++ old ++ c) ++ d) (a ++ (b ++ new ++ c) ++ d) rt.
Proof.
  intros H.
  replace (a ++ (b ++ old ++ c) ++ d) with ((a ++ b) ++ old ++ (c ++ d))
    by (now rewrite <- !app_assoc).
  replace (a ++ (b ++ new ++ c) ++ d) with ((a ++ b) ++ new ++ (c ++ d))
    by (now rewrite <- !app_assoc).
  now apply one_slot_ctx.
Qed.

Lemma one_slot_set_route n rt :
  one_slot (node_collectRoutes n []) (node_collectRoutes (set_route n (Some rt)) [])
           rt.
Proof.
  rewrite (node_collectRoutes_eq n), (node_collectRoutes_eq (set_route n _)).
  rewrite own_route_set_route. cbn [children paramChild set_route].
  exists [], (flat_map (fun c => node_collectRoutes c []) (children n) ++
              match paramChild n with
              | Some p => node_collectRoutes p []
              | None => []
              end).
  split; [reflexivity|]. unfold own_route.
  destruct (route n) as [r0|]; [right; exists r0|left]; reflexivity.
Qed.

Lemma flat_map_lookup {A B} (f : A -> list B) (l : list A) i x :
  l !! i = Some x ->
  flat_map f l = flat_map f (firstn i l) ++ f x ++ flat_map f (skipn (S i) l) /\
  forall y, flat_map f (<[i := y]> l)
            = flat_map f (firstn i l) ++ f y ++ flat_map f (skipn (S i) l).
Proof.
  revert i. induction l as [|a l IH]; intros [|i] H; simpl in *; try discriminate.
  - injection H as ->. split; [reflexivity|]. intros y. reflexivity.
  - destruct (IH i H) as [H1 H2]. split.
    + rewrite H1 at 1. now rewrite <- !app_assoc.
    + intros y. rewrite H2. now rewrite <- !app_assoc.
Qed.

Lemma node_insert_collect fuel : forall n path rt n',
  node_insert fuel n path rt = Done n' ->
  one_slot (node_collectRoutes n []) (node_collectRoutes n' []) rt.
Proof.
  induction fuel as [|fuel IH]; intros n path rt n'; [discriminate|].
  assert (Hcont : forall m sub m',
            continue_insert fuel m sub rt = Done m' ->
            one_slot (node_collectRoutes m []) (node_collectRoutes m' []) rt).
  { intros m sub m'. unfold continue_insert.
    destruct (String.eqb sub "").
    - intros [= <-]. apply one_slot_set_route.
    - apply IH. }
  rewrite node_insert_unfold.
  destruct (String.eqb path "/").
  { intros [= <-]. apply one_slot_set_route. }
  destruct (next_segment (TrimPrefix path "/")) as [segment remaining].
  destruct (is_param (segment_type segment)).
  { destruct (continue_insert fuel (param_target n segment) remaining rt)
      as [pc'| |] eqn:Hc; try discriminate.
    cbn [mbind res_bind]. intros [= <-]. apply Hcont in Hc.
    rewrite (node_collectRoutes_eq n), (node_collectRoutes_eq (set_paramChild _ _)).
    cbn [children paramChild set_paramChild].
    change (own_route (set_paramChild n (Some pc'))) with (own_route n).
    replace (match paramChild n with
             | Some p => node_collectRoutes p []
             | None => []
             end) with (node_collectRoutes (param_target n segment) [])
      by (unfold param_target; destruct (paramChild n); reflexivity).
    pose proof (one_slot_ctx
                  (own_route n
                   ++ flat_map (fun c => node_collectRoutes c []) (children n))
                  [] _ _ _ Hc) as H.
    rewrite !app_nil_r, <- !app_assoc in H. exact H. }
  destruct (find_common segment (children n) 0) as [[[i child] k]|] eqn:Hfc.
  - destruct (static_target child k) as [target|] eqn:Hst; [|discriminate].
    destruct (continue_insert fuel target _ rt) as [target'| |] eqn:Hc;
      try discriminate.
    cbn [mbind res_bind]. intros [= <-]. apply Hcont in Hc.
    rewrite (collect_static_target _ _ _ Hst) in Hc.
    apply find_common_Some in Hfc as (_ & Hi & _).
    rewrite Nat.sub_0_r in Hi.
    rewrite (node_collectRoutes_eq n), (node_collectRoutes_eq (set_children _ _)).
    cbn [children paramChild set_children].
    change (own_route (set_children n (<[i:=target']> (children n))))
      with (own_route n).
    destruct (flat_map_lookup (fun c => node_collectRoutes c []) _ _ _ Hi)
      as [H1 H2].
    rewrite H1, H2. now apply one_slot_mid.
  - destruct (head segment) as [c|]; [|discriminate].
    destruct (continue_insert fuel (new_child c segment) remaining rt)
      as [target'| |] eqn:Hc; try discriminate.
    cbn [mbind res_bind]. intros [= <-]. apply Hcont in Hc.
    rewrite (node_collectRoutes_eq n), (node_collectRoutes_eq (set_children _ _)).
    cbn [children paramChild set_children].
    change (own_route (set_children n (children n ++ [target'])))
      with (own_route n).
    rewrite flat_map_app.
    change (node_collectRoutes (new_child c segment) []) with (@nil Route) in Hc.
    apply (one_slot_mid (own_route n)
             (flat_map (fun c => node_collectRoutes c []) (children n)) []
             match paramChild n with
             | Some p => node_collectRoutes p []
             | None => []
             end) in Hc.
    simpl in Hc. rewrite !app_nil_r in Hc. simpl. rewrite !app_nil_r.
    exact Hc.
Qed.

(** X3 — A registration that returns puts its route into one slot of the
    collected routes: the route is added, or it takes the place of one
    route; the other routes stay, in their order. *)
Theorem insert_changes_one_slot (t : tree) (path : string) (rt : Route)
    (t' : tree) :
  tree_insert t path rt = Done t' ->
  exists before after,
    tree_collectRoutes t' = before ++ rt :: after /\
    (tree_collectRoutes t = before ++ after \/
     exists old, tree_collectRoutes t = before ++ old :: after).
Proof.
  intros H. apply tree_insert_Done in H.
  apply node_insert_collect in H. exact H.
Qed.

Lemma insert_changes_one_slot_witness :
  exists before after,
    tree_collectRoutes tree_ab_ac = before ++ route_ac :: after /\
    (tree_collectRoutes tree_ab = before ++ after \/
     exists old,
       tree_collectRoutes tree_ab = before ++ old :: after).
Proof.
  apply (insert_changes_one_slot tree_ab "/ac" route_ac).
  reflexivity.
Defined.

(** ** The collected routes of a tree built by registrations *)

Lemma one_slot_elem old new rt r :
  one_slot old new rt -> r ∈ new -> r = rt \/ r ∈ old.
Proof.
  intros (l1 & l2 & -> & H) Hr.
  apply elem_of_app in Hr as [Hr|Hr].
  - right. destruct H as [->|[r0 ->]]; apply elem_of_app; now left.
  - apply elem_of_cons in Hr as [->|Hr]; [now left|right].
    destruct H as [->|[r0 ->]]; apply elem_of_app; right; [exact Hr|].
    now right.
Qed.

Lemma one_slot_length old new rt :
  one_slot old new rt -> length new <= S (length old).
Proof.
  intros (l1 & l2 & -> & [->|[r0 ->]]); rewrite !length_app; simpl; lia.
Qed.

Lemma insert_all_collect ops : forall t t',
  insert_all t ops = Done t' ->
  (forall r, r ∈ tree_collectRoutes t' ->
             r ∈ tree_collectRoutes t \/ r ∈ ops.*2) /\
  length (tree_collectRoutes t') <= length (tree_collectRoutes t) + length ops.
Proof.
  induction ops as [|[p rt] ops IH]; intros t t'; simpl.
  - intros [= <-]. split; [auto|lia].
  - destruct (tree_insert t p rt) as [t1| |] eqn:Hins; try discriminate.
    cbn [mbind res_bind]. intros H. destruct (IH _ _ H) as [H1 H2].
    apply tree_insert_Done, node_insert_collect in Hins.
    fold (tree_collectRoutes t) (tree_collectRoutes t1) in Hins.
    split.
    + intros r Hr. destruct (H1 r Hr) as [Hr1|Hr1].
      * destruct (one_slot_elem _ _ _ _ Hins Hr1) as [->|Hr2]; [|now left].
        right. now left.
      * right. now right.
    + apply one_slot_length in Hins. lia.
Qed.

(** X4 — In a tree built from the empty tree by registrations, every collected
    route is a registered route, there are at most as many of them as
    registrations, and a search returns a registered route if it returns
    one. *)
Theorem collected_routes_registered (ops : list (string * Route)) (t : tree) :
  insert_all newTree ops = Done t ->
  (forall r, r ∈ tree_collectRoutes t -> r ∈ ops.*2) /\
  length (tree_collectRoutes t) <= length ops /\
  (forall path r ps, tree_search t path = Done (Some r, ps) -> r ∈ ops.*2).
Proof.
  intros H. destruct (insert_all_collect _ _ _ H) as [H1 H2].
  assert (Hsub : forall r, r ∈ tree_collectRoutes t -> r ∈ ops.*2).
  { intros r Hr. destruct (H1 r Hr) as [Hr'|Hr']; [inversion Hr'|exact Hr']. }
  split; [exact Hsub|]. split; [exact H2|].
  intros path r ps Hs. apply Hsub. apply tree_search_node in Hs.
  eapply node_search_collected; eauto.
Qed.

Lemma collected_routes_registered_witness :
  (forall r, r ∈ tree_collectRoutes tree_ab_ac ->
             r ∈ [("/ab", route_ab); ("/ac", route_ac)].*2) /\
  length (tree_collectRoutes tree_ab_ac) <= 2 /\
  (forall path r ps, tree_search tree_ab_ac path = Done (Some r, ps) ->
                     r ∈ [("/ab", route_ab); ("/ac", route_ac)].*2).
Proof.
  apply (collected_routes_registered [("/ab", route_ab); ("/ac", route_ac)]).
  reflexivity.
Defined.

(** * Forms of a path *)

Lemma last_byte_app a b : b <> "" -> last_byte (a +:+ b) = last_byte b.
Proof.
  intros Hb. induction a as [|c a IH]; [reflexivity|].
  rewrite append_cons. cbn [last_byte]. rewrite IH.
  destruct (a +:+ b) eqn:E; [|reflexivity].
  destruct a; [|discriminate]. now rewrite append_nil in E.
Qed.

Lemma last_byte_noslash s :
  has_byte "/" s = false -> last_byte s <> Some "/"%char.
Proof.
  induction s as [|c s IH]; [discriminate|].
  cbn [has_byte]. intros H. apply orb_false_iff in H as [Hc Hs].
  destruct s; [|now apply IH].
  simpl. intros [= ->]. discriminate.
Qed.

Lemma last_byte_snoc a c : last_byte (a +:+ String c "") = Some c.
Proof. now rewrite last_byte_app. Qed.

Lemma append_assoc (a b c : string) : (a +:+ b) +:+ c = a +:+ (b +:+ c).
Proof.
  induction a as [|x a IH]; [reflexivity|].
  rewrite !append_cons. now rewrite IH.
Qed.

Lemma append_eq_nil (a b : string) : a +:+ b = "" -> a = "" /\ b = "".
Proof. destruct a; [now rewrite append_nil|discriminate]. Qed.

Lemma IndexByte_app s c t :
  IndexByte (s +:+ t) c =
    match IndexByte s c with
    | Some i => Some i
    | None => match IndexByte t c with
              | Some i => Some (String.length s + i)
              | None => None
              end
    end.
Proof.
  induction s as [|x s IH]; [rewrite append_nil; simpl; now destruct IndexByte|].
  rewrite append_cons. cbn [IndexByte String.length].
  destruct (Ascii.eqb x c); [reflexivity|]. rewrite IH.
  destruct (IndexByte s c); [reflexivity|]. now destruct (IndexByte t c).
Qed.

Lemma take_app_le n : forall (s t : string),
  n <= String.length s -> take n (s +:+ t) = take n s.
Proof.
  induction n as [|n IH]; intros s t H.
  - first [reflexivity | destruct s; reflexivity].
  - destruct s as [|x s]; simpl in H; [lia|].
    rewrite append_cons. simpl. f_equal. apply IH. lia.
Qed.

Lemma drop_app_le n : forall (s t : string),
  n <= String.length s -> drop n (s +:+ t) = drop n s +:+ t.
Proof.
  induction n as [|n IH]; intros s t H.
  - first [reflexivity | destruct s; reflexivity].
  - destruct s as [|x s]; simpl in H; [lia|].
    rewrite append_cons. simpl. apply IH. lia.
Qed.

Lemma take_all s n : String.length s <= n -> take n s = s.
Proof.
  revert n. induction s as [|x s IH]; intros [|n] H; simpl in *; try lia;
    try reflexivity.
  f_equal. apply IH. lia.
Qed.

(** A slash appended to the path goes to the end of what remains after
    the first segment. *)
Lemma next_segment_snoc q segment remaining :
  next_segment q = (segment, remaining) ->
  next_segment (q +:+ "/") = (segment, remaining +:+ "/").
Proof.
  unfold next_segment. rewrite IndexByte_app.
  destruct (IndexByte q "/") as [i|] eqn:E.
  - intros [= <- <-]. apply IndexByte_Some in E as [Hi _].
    now rewrite take_app_le, drop_app_le by lia.
  - intros [= <- <-]. simpl. rewrite Nat.add_0_r.
    rewrite take_app_le, drop_app_le by lia.
    rewrite take_all by lia. now rewrite str_drop_all by lia.
Qed.

Lemma eqb_false_ne (a b : string) : a <> b -> String.eqb a b = false.
Proof. intros H. apply not_true_iff_false. now rewrite string_eqb_eq. Qed.

Lemma snoc_not_nil (a : string) c : a +:+ String c "" <> "".
Proof. destruct a; discriminate. Qed.

Lemma snoc_slash_is_root a : a +:+ "/" = "/" -> a = "".
Proof.
  destruct a as [|x a]; [reflexivity|]. rewrite append_cons.
  intros [= _ H]. now destruct (snoc_not_nil a "/").
Qed.

(** What is left of the path after the leading slash, when a slash is
    appended to the path. *)
Lemma TrimPrefix_snoc p :
  p <> "" -> p <> "/" ->
  TrimPrefix (p +:+ "/") "/" = TrimPrefix p "/" +:+ "/" /\
  TrimPrefix p "/" <> "" /\
  last_byte (TrimPrefix p "/") = last_byte p.
Proof.
  intros H1 H2. rewrite !TrimPrefix_slash.
  destruct p as [|c p]; [congruence|]. rewrite append_cons.
  destruct (Ascii.eqb_spec c "/") as [->|Hc].
  - split; [reflexivity|]. split; [intros ->; congruence|].
    destruct p; [congruence|reflexivity].
  - assert (forall (x y : string),
              match c with "/"%char => x | _ => y end = y) as E.
    { intros x y.
      destruct c as [[] [] [] [] [] [] [] []]; try reflexivity. congruence. }
    rewrite !E. now rewrite append_cons.
Qed.

Lemma rest_path_snoc k segment remaining :
  rest_path k segment (remaining +:+ "/")
  = rest_path k segment remaining +:+ "/".
Proof.
  unfold rest_path. destruct (Nat.eqb k (String.length segment)); [reflexivity|].
  now rewrite append_cons, append_nil, !append_cons, append_nil, append_assoc.
Qed.

Lemma rest_path_last k segment remaining child :
  HasPrefix segment (prefix child) = true -> k = String.length (prefix child) ->
  has_byte "/" segment = false ->
  last_byte remaining <> Some "/"%char ->
  last_byte (rest_path k segment remaining) <> Some "/"%char.
Proof.
  intros Hp -> Hns Hl. unfold rest_path.
  destruct (Nat.eqb_spec (String.length (prefix child)) (String.length segment))
    as [E|E]; [exact Hl|].
  assert (String.length (prefix child) <= String.length segment).
  { rewrite <- (prefix_lcp _ _ Hp). apply lcp_le_l. }
  destruct (decide (remaining = "")) as [->|Hr].
  - rewrite append_nil_r, last_byte_app.
    + apply last_byte_noslash. now apply has_byte_drop.
    + intros E'. apply (f_equal String.length) in E'.
      rewrite str_length_drop in E'. simpl in E'. lia.
  - rewrite <- append_assoc, last_byte_app by exact Hr. exact Hl.
Qed.

(** ** A slash at the end of the path *)

Lemma node_search_trailing fuel : forall n p ps x,
  last_byte p <> Some "/"%char ->
  node_search fuel n p ps = Done x ->
  node_search (S fuel) n (p +:+ "/") ps = Done x.
Proof.
  induction fuel as [|fuel IH]; intros n p ps x Hl; [discriminate|].
  assert (Hcont : forall m sub qs,
            last_byte sub <> Some "/"%char ->
            continue_search fuel m sub qs = Done x ->
            continue_search (S fuel) m (sub +:+ "/") qs = Done x).
  { intros m sub qs Hs. unfold continue_search.
    rewrite (eqb_false_ne (sub +:+ "/") "") by apply snoc_not_nil.
    destruct (String.eqb_spec sub "") as [->|Hne].
    - intros [= <-]. reflexivity.
    - now apply IH. }
  destruct (decide (p = "")) as [->|Hne]; [intros [= <-]; reflexivity|].
  assert (Hroot : p <> "/") by (intros ->; now apply Hl).
  rewrite (node_search_unfold (S fuel)), (node_search_unfold fuel).
  rewrite (eqb_false_ne p "/"), (eqb_false_ne p "") by assumption.
  rewrite (eqb_false_ne (p +:+ "/") "/")
    by (intros E; now apply snoc_slash_is_root in E).
  rewrite (eqb_false_ne (p +:+ "/") "") by apply snoc_not_nil.
  cbn [orb].
  destruct (TrimPrefix_snoc p Hne Hroot) as (-> & Hq & Hlq).
  destruct (next_segment (TrimPrefix p "/")) as [segment remaining] eqn:Hns.
  rewrite (next_segment_snoc _ _ _ Hns).
  assert (Hrem : last_byte remaining <> Some "/"%char).
  { destruct (decide (remaining = "")) as [->|Hr]; [discriminate|].
    rewrite (next_segment_app _ _ _ Hns), last_byte_app in Hlq by exact Hr.
    congruence. }
  destruct (find_static segment (children n)) as [child|] eqn:Hfs.
  - rewrite rest_path_snoc. apply Hcont.
    apply find_static_Some in Hfs as (_ & _ & Hp).
    eapply rest_path_last; eauto. eapply next_segment_noslash; eauto.
  - destruct (paramChild n) as [pc|]; [|auto]. now apply Hcont.
Qed.

(** X5 — [tree.search] ignores a slash at the end of the path. *)
Theorem search_ignores_trailing_slash (ops : list (string * Route))
    (t : tree) (p : string) :
  insert_all newTree ops = Done t ->
  last_byte p <> Some "/"%char ->
  tree_search t (p +:+ "/") = tree_search t p.
Proof.
  intros Hops Hl. apply insert_all_newTree_inv in Hops.
  destruct (decide (p = "")) as [->|Hne]; [reflexivity|].
  unfold tree_search.
  rewrite (eqb_false_ne p "") by exact Hne.
  rewrite (eqb_false_ne (p +:+ "/") "") by apply snoc_not_nil.
  destruct (node_search_fuel (budget p) (budget p) (root t) p None Hops
              (weight_budget p) (weight_budget p)) as [_ Hnt].
  pose proof (node_search_no_panic (budget p) (root t) p None) as Hnp.
  destruct (node_search (budget p) (root t) p None) as [x| |] eqn:Hs;
    try congruence.
  replace (budget (p +:+ "/")) with (S (budget p))
    by (unfold budget; rewrite str_length_app; simpl; lia).
  now rewrite (node_search_trailing _ _ _ _ _ Hl Hs).
Qed.

Lemma search_ignores_trailing_slash_witness :
  tree_search tree_users ("/users/me" +:+ "/") = tree_search tree_users "/users/me".
Proof.
  apply (search_ignores_trailing_slash
           [("/users/:id", route_user); ("/users/me", route_me)]).
  - reflexivity.
  - discriminate.
Defined.

Lemma bind_not_Timeout {A B} (m : res A) (k : A -> res B) :
  (x ← m; k x) <> Timeout -> m <> Timeout.
Proof. destruct m; simpl; congruence. Qed.

Lemma node_insert_trailing fuel : forall n p rt,
  p <> "" -> last_byte p <> Some "/"%char ->
  node_insert fuel n p rt <> Timeout ->
  node_insert (S fuel) n (p +:+ "/") rt = node_insert fuel n p rt.
Proof.
  induction fuel as [|fuel IH]; intros n p rt Hne Hl; [simpl; congruence|].
  assert (Hcont : forall m sub,
            last_byte sub <> Some "/"%char ->
            continue_insert fuel m sub rt <> Timeout ->
            continue_insert (S fuel) m (sub +:+ "/") rt
            = continue_insert fuel m sub rt).
  { intros m sub Hs. unfold continue_insert.
    rewrite (eqb_false_ne (sub +:+ "/") "") by apply snoc_not_nil.
    destruct (String.eqb_spec sub "") as [->|Hsub]; [reflexivity|].
    now apply IH. }
  assert (Hroot : p <> "/") by (intros ->; now apply Hl).
  rewrite (node_insert_unfold (S fuel)), (node_insert_unfold fuel).
  rewrite (eqb_false_ne p "/") by assumption.
  rewrite (eqb_false_ne (p +:+ "/") "/")
    by (intros E; now apply snoc_slash_is_root in E).
  destruct (TrimPrefix_snoc p Hne Hroot) as (-> & Hq & Hlq).
  destruct (next_segment (TrimPrefix p "/")) as [segment remaining] eqn:Hns.
  rewrite (next_segment_snoc _ _ _ Hns).
  assert (Hrem : last_byte remaining <> Some "/"%char).
  { destruct (decide (remaining = "")) as [->|Hr]; [discriminate|].
    rewrite (next_segment_app _ _ _ Hns), last_byte_app in Hlq by exact Hr.
    congruence. }
  destruct (is_param (segment_type segment)).
  { intros H. apply bind_not_Timeout in H. now rewrite Hcont. }
  destruct (find_common segment (children n) 0) as [[[i child] k]|] eqn:Hfc.
  - destruct (static_target child k) as [target|] eqn:Hst; [|reflexivity].
    intros H. apply bind_not_Timeout in H.
    rewrite rest_path_snoc. rewrite Hcont; [reflexivity| |exact H].
    unfold rest_path.
    destruct (Nat.eqb_spec k (String.length segment)) as [E|E]; [exact Hrem|].
    apply find_common_Some in Hfc as (_ & _ & _ & -> & _).
    pose proof (lcp_le_l segment (prefix child)).
    destruct (decide (remaining = "")) as [->|Hr].
    + rewrite append_nil_r, last_byte_app.
      * apply last_byte_noslash, has_byte_drop.
        eapply next_segment_noslash; eauto.
      * intros E'. apply (f_equal String.length) in E'.
        rewrite str_length_drop in E'. simpl in E'. lia.
    + rewrite <- append_assoc, last_byte_app by exact Hr. exact Hrem.
  - destruct (head segment) as [c|]; [|reflexivity].
    intros H. apply bind_not_Timeout in H. now rewrite Hcont.
Qed.

Lemma normalize_snoc p :
  p <> "" -> normalize (p +:+ "/") = normalize p +:+ "/".
Proof.
  intros Hne. unfold normalize.
  rewrite (eqb_false_ne p "") by exact Hne.
  rewrite (eqb_false_ne (p +:+ "/") "") by apply snoc_not_nil.
  destruct p as [|c p]; [congruence|]. rewrite append_cons. simpl.
  destruct (Ascii.eqb c "/"); now rewrite ?append_cons.
Qed.

(** X6 — [tree.insert] ignores a slash at the end of the pattern: the
    registration has the same outcome, a panic included. *)
Theorem insert_ignores_trailing_slash (t : tree) (p : string) (rt : Route) :
  last_byte p <> Some "/"%char ->
  tree_insert t (p +:+ "/") rt = tree_insert t p rt.
Proof.
  intros Hl. destruct (decide (p = "")) as [->|Hne]; [reflexivity|].
  unfold tree_insert. rewrite normalize_snoc by exact Hne.
  assert (Hn : normalize p <> "").
  { pose proof (weight_normalize p) as H. intros E. now rewrite E in H. }
  assert (Hln : last_byte (normalize p) <> Some "/"%char).
  { destruct (normalize_cases p) as [[-> _]|[[_ ->]|(c & s0 & _ & _ & ->)]];
      [congruence|exact Hl|].
    now rewrite last_byte_app. }
  replace (budget (normalize p +:+ "/")) with (S (budget (normalize p)))
    by (unfold budget; rewrite str_length_app; simpl; lia).
  rewrite node_insert_trailing; auto using node_insert_budget.
Qed.

Lemma insert_ignores_trailing_slash_witness :
  tree_insert tree_ab ("/ac" +:+ "/") route_ac = tree_insert tree_ab "/ac" route_ac.
Proof.
  apply (insert_ignores_trailing_slash tree_ab "/ac" route_ac). discriminate.
Defined.

(** ** The slash in front of the path *)

Lemma node_search_leading fuel n p ps :
  p <> "" -> head p <> Some "/"%char ->
  node_search (S fuel) n ("/" +:+ p) ps = node_search (S fuel) n p ps.
Proof.
  intros Hne Hh. rewrite !node_search_unfold.
  rewrite trim_slash_app.
  assert (p <> "/") by (intros ->; now apply Hh).
  rewrite (eqb_false_ne p "/"), (eqb_false_ne p "") by assumption.
  rewrite (eqb_false_ne ("/" +:+ p) "/")
    by (rewrite append_cons, append_nil; congruence).
  rewrite (eqb_false_ne ("/" +:+ p) "")
    by (rewrite append_cons; discriminate).
  cbn [orb]. rewrite TrimPrefix_slash.
  destruct p as [|c p]; [congruence|].
  destruct (Ascii.eqb_spec c "/") as [->|Hc]; [now destruct Hh|].
  replace (match c with "/"%char => p | _ => String c p end) with (String c p);
    [reflexivity|].
  destruct c as [[] [] [] [] [] [] [] []]; try reflexivity. congruence.
Qed.

(** X7 — A path without the slash in front is searched, and registered, as the
    path with it. *)
Theorem leading_slash_optional (ops : list (string * Route)) (t : tree)
    (p : string) :
  insert_all newTree ops = Done t ->
  p <> "" -> head p <> Some "/"%char ->
  tree_search t p = tree_search t ("/" +:+ p) /\
  forall rt, tree_insert t p rt = tree_insert t ("/" +:+ p) rt.
Proof.
  intros Hops Hne Hh. apply insert_all_newTree_inv in Hops. split.
  - unfold tree_search.
    rewrite (eqb_false_ne p "") by exact Hne.
    rewrite (eqb_false_ne ("/" +:+ p) "")
      by (rewrite append_cons; discriminate).
    assert (Hw : weight ("/" +:+ p) < budget p).
    { rewrite weight_slash. unfold budget. lia. }
    destruct (node_search_fuel (budget ("/" +:+ p)) (budget p) (root t)
                ("/" +:+ p) None Hops (weight_budget _) Hw) as [-> _].
    unfold budget at 2. now rewrite node_search_leading.
  - intros rt. unfold tree_insert.
    assert (E : normalize p = "/" +:+ p).
    { destruct (normalize_cases p) as [[-> _]|[[Hp _]|(c & s0 & _ & _ & ->)]];
        [congruence|contradiction|reflexivity]. }
    rewrite E. unfold normalize.
    now rewrite append_cons, append_nil.
Qed.

Lemma leading_slash_optional_witness :
  tree_search tree_users "users/me" = tree_search tree_users ("/" +:+ "users/me") /\
  forall rt, tree_insert tree_users "users/me" rt
             = tree_insert tree_users ("/" +:+ "users/me") rt.
Proof.
  apply (leading_slash_optional
           [("/users/:id", route_user); ("/users/me", route_me)]).
  - reflexivity.
  - discriminate.
  - discriminate.
Defined.

(** ** Empty segments *)

Lemma double_slash_cons c s :
  double_slash (String c s) =
    (Ascii.eqb c "/" && match head s with
                        | Some b => Ascii.eqb b "/"
                        | None => false
                        end) || double_slash s.
Proof. reflexivity. Qed.

Lemma double_slash_segment segment : forall remaining,
  has_byte "/" segment = false ->
  remaining = "" \/ head remaining = Some "/"%char ->
  double_slash (segment +:+ remaining) = double_slash remaining.
Proof.
  induction segment as [|c s IH]; intros remaining Hs Hr;
    [now rewrite append_nil|].
  rewrite append_cons, double_slash_cons.
  cbn [has_byte] in Hs. apply orb_false_iff in Hs as [Hc Hs].
  rewrite Hc. cbn [andb orb]. now apply IH.
Qed.

Lemma double_slash_path segment remaining :
  segment <> "" -> has_byte "/" segment = false ->
  remaining = "" \/ head remaining = Some "/"%char ->
  double_slash ("/" +:+ segment +:+ remaining) = double_slash remaining.
Proof.
  intros Hne Hs Hr. rewrite append_cons, append_nil, double_slash_cons.
  rewrite double_slash_segment by assumption.
  destruct segment as [|c s]; [congruence|]. rewrite append_cons.
  cbn [has_byte] in Hs. apply orb_false_iff in Hs as [Hc _].
  cbn [head]. now rewrite Hc.
Qed.

Lemma find_common_empty cs : forall i, find_common "" cs i = None.
Proof.
  induction cs as [|c cs IH]; intros i; [reflexivity|].
  cbn [find_common]. destruct (negb (is_static (nType c))); [apply IH|].
  cbn [longestCommonPrefix Nat.eqb]. apply IH.
Qed.

Lemma static_target_Some child k segment :
  k = longestCommonPrefix segment (prefix child) ->
  exists target, static_target child k = Some target.
Proof.
  intros ->. unfold static_target.
  destruct (Nat.eqb_spec (longestCommonPrefix segment (prefix child))
              (String.length (prefix child))) as [E|E]; [eauto|].
  pose proof (lcp_le_r segment (prefix child)).
  destruct (head (drop _ (prefix child))) eqn:Hh; [eauto|].
  apply head_None in Hh. apply (f_equal String.length) in Hh.
  rewrite str_length_drop in Hh. simpl in Hh. lia.
Qed.

Lemma node_insert_outcome fuel : forall n p rt,
  head p = Some "/"%char -> weight p < fuel ->
  if double_slash p then node_insert fuel n p rt = Panic
  else exists n', node_insert fuel n p rt = Done n'.
Proof.
  induction fuel as [|fuel IH]; intros n p rt Hh Hw; [lia|].
  rewrite node_insert_unfold.
  destruct (String.eqb_spec p "/") as [->|Hroot]; [simpl; eauto|].
  assert (Hne : p <> "") by (intros ->; discriminate).
  destruct (next_segment (TrimPrefix p "/")) as [segment remaining] eqn:Hns.
  pose proof (next_segment_app _ _ _ Hns) as Happ.
  pose proof (next_segment_noslash _ _ _ Hns) as Hnoslash.
  pose proof (next_segment_remaining _ _ _ Hns) as Hrem.
  assert (Hp : p = "/" +:+ segment +:+ remaining).
  { rewrite <- Happ. rewrite TrimPrefix_slash.
    destruct p as [|c p]; [congruence|]. injection Hh as ->.
    now rewrite append_cons, append_nil. }
  destruct (decide (segment = "")) as [->|Hseg].
  { (* an empty segment *)
    rewrite append_nil in Hp.
    assert (Hds : double_slash p = true).
    { destruct Hrem as [->|Hr]; [now destruct Hroot|]. rewrite Hp.
      rewrite append_cons, append_nil, double_slash_cons, Hr. reflexivity. }
    rewrite Hds. cbn [segment_type head is_param].
    now rewrite find_common_empty. }
  assert (Hds : double_slash p = double_slash remaining).
  { rewrite Hp. now apply double_slash_path. }
  rewrite Hds.
  assert (Hcont : forall m sub,
            sub = remaining \/
            (exists k, 0 < k /\ k < String.length segment /\
                       sub = "/" +:+ drop k segment +:+ remaining) ->
            if double_slash remaining
            then continue_insert fuel m sub rt = Panic
            else exists m', continue_insert fuel m sub rt = Done m').
  { intros m sub Hsub. unfold continue_insert.
    destruct (String.eqb_spec sub "") as [->|Hsne].
    - destruct Hsub as [<-|(k & _ & _ & E)]; [simpl; eauto|].
      rewrite append_cons in E. discriminate.
    - destruct Hsub as [->|(k & Hk0 & Hk & ->)].
      + destruct Hrem as [?|Hr]; [congruence|].
        apply IH; [exact Hr|].
        pose proof (weight_remaining p segment remaining Hne Hns Hsne). lia.
      + assert (Hd : drop k segment <> "").
        { intros E. apply (f_equal String.length) in E.
          rewrite str_length_drop in E. simpl in E. lia. }
        pose proof (IH m ("/" +:+ drop k segment +:+ remaining) rt) as H.
        rewrite double_slash_path in H;
          [|exact Hd|now apply has_byte_drop|exact Hrem].
        apply H; [now rewrite append_cons|].
        pose proof (weight_rest p segment remaining k Hne Hroot Hns Hk0) as Hwr.
        unfold rest_path in Hwr.
        rewrite (proj2 (Nat.eqb_neq k (String.length segment))) in Hwr by lia.
        specialize (Hwr ltac:(lia) Hsne). lia. }
  assert (Hbind : forall (m : res node) (g : node -> node),
            (if double_slash remaining then m = Panic
             else exists m', m = Done m') ->
            if double_slash remaining
            then (x ← m; Done (g x)) = Panic
            else exists n', (x ← m; Done (g x)) = Done n').
  { intros m g. destruct (double_slash remaining).
    - intros ->. reflexivity.
    - intros [m' ->]. simpl. eauto. }
  destruct (is_param (segment_type segment)).
  { apply Hbind, Hcont. now left. }
  destruct (find_common segment (children n) 0) as [[[i child] k]|] eqn:Hfc.
  - apply find_common_Some in Hfc as (_ & _ & _ & Hk & Hk0 & _).
    destruct (static_target_Some child k segment Hk) as [target ->].
    apply Hbind, Hcont. unfold rest_path.
    destruct (Nat.eqb_spec k (String.length segment)) as [E|E]; [now left|].
    right. exists k. pose proof (lcp_le_l segment (prefix child)).
    repeat split; auto; lia.
  - destruct (head segment) as [c|] eqn:Hhd.
    + apply Hbind, Hcont. now left.
    + apply head_None in Hhd. congruence.
Qed.

Lemma double_slash_normalize p : double_slash (normalize p) = double_slash p.
Proof.
  destruct (normalize_cases p) as [[-> _]|[[_ ->]|(c & s0 & -> & Hc & ->)]];
    try reflexivity.
  rewrite append_cons, append_nil, double_slash_cons. cbn [head].
  now rewrite (proj2 (Ascii.eqb_neq c "/") Hc).
Qed.

(** X8 — [tree.insert] panics exactly on the patterns with an empty segment
    before the end (two slashes in a row), on every tree; on every other
    pattern it returns. *)
Theorem insert_panics_on_empty_segment (t : tree) (p : string) (rt : Route) :
  (double_slash p = true -> tree_insert t p rt = Panic) /\
  (double_slash p = false -> exists t', tree_insert t p rt = Done t').
Proof.
  unfold tree_insert.
  pose proof (node_insert_outcome (budget (normalize p)) (root t) (normalize p)
                rt (weight_normalize p) (weight_budget _)) as H.
  rewrite double_slash_normalize in H.
  destruct (double_slash p); split; try discriminate; intros _.
  - now rewrite H.
  - destruct H as [n' ->]. simpl. eauto.
Qed.

(** * One pattern, and the paths that it matches *)

Lemma pattern_of_head sgs :
  pattern_of sgs = "" \/ head (pattern_of sgs) = Some "/"%char.
Proof. destruct sgs as [|[s|k v] sgs]; [now left|right|right]; reflexivity. Qed.

Lemma path_of_head sgs :
  path_of sgs = "" \/ head (path_of sgs) = Some "/"%char.
Proof. destruct sgs as [|[s|k v] sgs]; [now left|right|right]; reflexivity. Qed.

Lemma pattern_of_nil sgs : pattern_of sgs = "" -> sgs = [].
Proof. destruct sgs as [|[s|k v] sgs]; [reflexivity|discriminate|discriminate]. Qed.

Lemma path_of_nil sgs : path_of sgs = "" -> sgs = [].
Proof. destruct sgs as [|[s|k v] sgs]; [reflexivity|discriminate|discriminate]. Qed.

(** The first step of [node.insert] and of [node.search] on a path
    "/" + segment + rest. *)
Lemma step_path segment rest :
  segment <> "" -> has_byte "/" segment = false ->
  rest = "" \/ head rest = Some "/"%char ->
  String.eqb ("/" +:+ segment +:+ rest) "/" = false /\
  String.eqb ("/" +:+ segment +:+ rest) "" = false /\
  next_segment (TrimPrefix ("/" +:+ segment +:+ rest) "/") = (segment, rest).
Proof.
  intros Hne Hs Hr. rewrite trim_slash_app.
  rewrite next_segment_parts by assumption.
  rewrite append_cons, append_nil.
  destruct segment as [|c s]; [congruence|]. now rewrite append_cons.
Qed.

Lemma weight_step segment rest :
  rest = "" \/ head rest = Some "/"%char ->
  segment <> "" ->
  weight rest < weight ("/" +:+ segment +:+ rest).
Proof.
  intros Hr Hne. rewrite weight_slash, str_length_app.
  apply nonempty_length in Hne.
  destruct Hr as [->|Hr]; [simpl; lia|].
  rewrite (weight_head_slash _ Hr). lia.
Qed.

Lemma find_static_exact child segment :
  nType child = static -> prefix child = segment ->
  find_static segment [child] = Some child.
Proof.
  intros Ht Hp. cbn [find_static]. rewrite Ht, Hp. cbn [is_static negb].
  now rewrite HasPrefix_refl, Nat.eqb_refl.
Qed.

Lemma single_route (r : Route) (sgs : list matched_segment) :
  Forall segment_ok sgs -> sgs <> [] ->
  forall n fuel, leaf n -> weight (pattern_of sgs) < fuel ->
  exists n',
    node_insert fuel n (pattern_of sgs) r = Done n' /\
    forall fs ps, weight (path_of sgs) < fs ->
      node_search fs n' (path_of sgs) ps = Done (Some r, bindings sgs ps).
Proof.
  induction 1 as [|sg sgs Hok Hoks IH]; intros Hnil n fuel [Hcs Hpc] Hw;
    [congruence|].
  destruct fuel as [|fuel]; [lia|].
  clear Hnil.
  (* what the continuation does on the node allocated for the segment *)
  assert (Hcont : forall m, leaf m ->
            weight (pattern_of sgs) < fuel \/ pattern_of sgs = "" ->
            exists m',
              continue_insert fuel m (pattern_of sgs) r = Done m' /\
              same_header m m' /\
              forall fs ps, weight (path_of sgs) < fs \/ path_of sgs = "" ->
                continue_search fs m' (path_of sgs) ps
                = Done (Some r, bindings sgs ps)).
  { intros m Hm Hfuel. unfold continue_insert, continue_search.
    destruct sgs as [|sg' sgs'].
    - exists (set_route m (Some r)). simpl. repeat split; auto.
    - destruct Hfuel as [Hfuel|E];
        [|apply pattern_of_nil in E; discriminate].
      destruct (IH ltac:(discriminate) m fuel Hm Hfuel) as (m' & Hi & Hs).
      exists m'.
      rewrite (eqb_false_ne (pattern_of (sg' :: sgs')) "")
        by (intros E; apply pattern_of_nil in E; discriminate).
      rewrite (eqb_false_ne (path_of (sg' :: sgs')) "")
        by (intros E; apply path_of_nil in E; discriminate).
      split; [exact Hi|]. split; [eapply node_insert_header; eauto|].
      intros fs ps [Hfs|E]; [now apply Hs|].
      apply path_of_nil in E. discriminate. }
  rewrite node_insert_unfold.
  destruct sg as [s|k v]; cbn [pattern_of path_of bindings segment_ok] in *.
  - (* a literal segment *)
    destruct Hok as (Hne & Hns & Hcolon).
    destruct (step_path s (pattern_of sgs) Hne Hns (pattern_of_head sgs))
      as (-> & _ & ->).
    assert (Hst : is_param (segment_type s) = false).
    { apply not_true_iff_false. now rewrite is_param_head. }
    rewrite Hst, Hcs. cbn [find_common].
    destruct (head s) as [c|] eqn:Hh; [|apply head_None in Hh; congruence].
    destruct (Hcont (new_child c s)) as (m' & -> & (Ht & _ & Hp & _) & Hs).
    { split; reflexivity. }
    { pose proof (weight_step s (pattern_of sgs) (pattern_of_head sgs) Hne).
      left. lia. }
    cbn [mbind res_bind]. eexists. split; [reflexivity|].
    intros fs ps Hfs. destruct fs as [|fs]; [lia|].
    rewrite node_search_unfold.
    destruct (step_path s (path_of sgs) Hne Hns (path_of_head sgs))
      as (-> & -> & ->).
    cbn [orb children set_children app].
    rewrite (find_static_exact m' s Ht Hp).
    rewrite Hp, rest_path_refl. apply Hs.
    pose proof (weight_step s (path_of sgs) (path_of_head sgs) Hne).
    left. lia.
  - (* a parameter *)
    destruct Hok as (Hk & Hv & Hvs).
    assert (Hseg : has_byte "/" (":" +:+ k) = false).
    { rewrite append_cons, append_nil. exact Hk. }
    destruct (step_path (":" +:+ k) (pattern_of sgs)
                ltac:(rewrite append_cons; discriminate) Hseg
                (pattern_of_head sgs)) as (-> & _ & ->).
    assert (Hst : is_param (segment_type (":" +:+ k)) = true)
      by (now apply is_param_head).
    rewrite Hst. unfold param_target. rewrite Hpc.
    destruct (Hcont (Node param zero_byte (":" +:+ k) (drop 1 (":" +:+ k))
                          None [] None))
      as (m' & -> & (_ & _ & _ & Hkey) & Hs).
    { split; reflexivity. }
    { pose proof (weight_step (":" +:+ k) (pattern_of sgs) (pattern_of_head sgs)
                    ltac:(rewrite append_cons; discriminate)).
      left. lia. }
    cbn [mbind res_bind]. eexists. split; [reflexivity|].
    intros fs ps Hfs. destruct fs as [|fs]; [lia|].
    rewrite node_search_unfold.
    destruct (step_path v (path_of sgs) Hv Hvs (path_of_head sgs))
      as (-> & -> & ->).
    cbn [orb children paramChild set_paramChild].
    rewrite Hcs. cbn [find_static]. rewrite Hkey.
    cbn [paramKey]. apply Hs.
    pose proof (weight_step v (path_of sgs) (path_of_head sgs) Hv).
    left. lia.
Qed.

(** X9 — Round trip for one pattern: after the registration of a pattern in
    the empty tree, every path that has the literal segments of the pattern
    and a value (not empty, without slash) in the place of each parameter
    is resolved to the route, with each value bound to the name of its
    parameter. *)
Theorem single_pattern_round_trip (r : Route) (sgs : list matched_segment) :
  Forall segment_ok sgs -> sgs <> [] ->
  exists t,
    tree_insert newTree (pattern_of sgs) r = Done t /\
    tree_search t (path_of sgs) = Done (Some r, bindings sgs None).
Proof.
  intros Hok Hne.
  assert (Hp : normalize (pattern_of sgs) = pattern_of sgs).
  { destruct sgs as [|[s|k v] sgs]; [congruence|reflexivity|reflexivity]. }
  destruct (single_route r sgs Hok Hne (root newTree)
              (budget (pattern_of sgs)) ltac:(split; reflexivity)
              (weight_budget _)) as (n' & Hi & Hs).
  exists (Tree n'). unfold tree_insert, tree_search. rewrite Hp, Hi.
  split; [reflexivity|]. cbn [root].
  rewrite (eqb_false_ne (path_of sgs) "")
    by (intros E; apply path_of_nil in E; congruence).
  rewrite (Hs _ None (weight_budget _)). reflexivity.
Qed.

Lemma single_pattern_round_trip_witness :
  exists t,
    tree_insert newTree "/files/:name/raw" route_ab = Done t /\
    tree_search t "/files/a.txt/raw"
    = Done (Some route_ab, Some {[ "name" := "a.txt" ]}).
Proof.
  apply (single_pattern_round_trip route_ab
           [Lit "files"; Par "name" "a.txt"; Lit "raw"]).
  - repeat constructor; discriminate.
  - discriminate.
Defined.

(** * A slash between two literal segments *)

Lemma HasPrefix_app s t p : HasPrefix s p = true -> HasPrefix (s +:+ t) p = true.
Proof.
  revert p. induction s as [|x s IH]; intros [|y p];
    try (intros _; apply HasPrefix_nil).
  - unfold HasPrefix at 1. simpl. discriminate.
  - rewrite append_cons, !HasPrefix_cons. intros H.
    apply andb_true_iff in H as [-> H]. now apply IH.
Qed.

Lemma next_segment_app_slash q X segment remaining :
  next_segment q = (segment, remaining) -> remaining <> "" ->
  next_segment (q +:+ X) = (segment, remaining +:+ X).
Proof.
  unfold next_segment. rewrite IndexByte_app.
  destruct (IndexByte q "/") as [i|] eqn:E.
  - intros [= <- <-] _. apply IndexByte_Some in E as [Hi _].
    now rewrite take_app_le, drop_app_le by lia.
  - intros [= <- <-]. congruence.
Qed.

Lemma next_segment_glue q w b rem_w :
  next_segment q = (q, "") -> next_segment w = (b, rem_w) ->
  next_segment (q +:+ w) = (q +:+ b, rem_w).
Proof.
  unfold next_segment. rewrite IndexByte_app.
  destruct (IndexByte q "/") as [i|] eqn:E.
  { intros [= H1 H2]. apply IndexByte_Some in E as [Hi _].
    apply (f_equal String.length) in H2. rewrite str_length_drop in H2.
    simpl in H2. lia. }
  intros _. destruct (IndexByte w "/") as [j|] eqn:Ew.
  - intros [= <- <-]. apply IndexByte_Some in Ew as [Hj _].
    rewrite <- (str_take_drop (String.length q) (q +:+ w)) at 1.
    rewrite <- (str_take_drop j w) at 1.
    f_equal.
    + clear. revert j. induction q as [|x q IH]; intros j;
        [now rewrite !append_nil|].
      rewrite !append_cons. simpl. f_equal. apply IH.
    + clear. revert j. induction q as [|x q IH]; intros j;
        [now rewrite !append_nil|].
      rewrite !append_cons. simpl. apply IH.
  - intros [= <- <-]. reflexivity.
Qed.

Lemma drop_app_length (a b : string) : drop (String.length a) (a +:+ b) = b.
Proof. induction a as [|x a IH]; [now rewrite append_nil|]. now rewrite append_cons. Qed.

Lemma continue_search_ne fuel m sub ps :
  sub <> "" -> continue_search fuel m sub ps = node_search fuel m sub ps.
Proof. intros H. unfold continue_search. now rewrite eqb_false_ne. Qed.

Lemma node_search_glued fuel : forall n u w c d r,
  node_inv n ->
  last_byte u = Some c -> c <> "/"%char ->
  head w = Some d -> d <> "/"%char ->
  node_search fuel n (u +:+ "/" +:+ w) None = Done (Some r, None) ->
  node_search fuel n (u +:+ w) None = Done (Some r, None).
Proof.
  induction fuel as [|fuel IH]; intros n u w c d r Hinv Hu Hc Hw Hd;
    [discriminate|].
  assert (Hune : u <> "") by (intros ->; discriminate).
  assert (Huroot : u <> "/") by (intros ->; injection Hu as <-; congruence).
  assert (Hwne : w <> "") by (intros ->; discriminate).
  rewrite !node_search_unfold.
  assert (Hq : forall X, X <> "" ->
            String.eqb (u +:+ X) "/" || String.eqb (u +:+ X) "" = false /\
            TrimPrefix (u +:+ X) "/" = TrimPrefix u "/" +:+ X).
  { intros X HX. destruct u as [|x u]; [congruence|].
    rewrite append_cons. split.
    - apply orb_false_iff. split; apply eqb_false_ne; [|discriminate].
      intros [= -> E]. apply append_eq_nil in E as [_ ?]. congruence.
    - rewrite !TrimPrefix_slash.
      destruct (Ascii.eqb_spec x "/") as [->|Hx]; [reflexivity|].
      replace (match x with "/"%char => u +:+ X | _ => String x (u +:+ X) end)
        with (String x (u +:+ X))
        by (destruct x as [[] [] [] [] [] [] [] []]; try reflexivity;
            congruence).
      replace (match x with "/"%char => u | _ => String x u end)
        with (String x u)
        by (destruct x as [[] [] [] [] [] [] [] []]; try reflexivity;
            congruence).
      now rewrite append_cons. }
  destruct (Hq ("/" +:+ w) ltac:(rewrite append_cons; discriminate))
    as [-> ->].
  destruct (Hq w Hwne) as [-> ->].
  destruct (TrimPrefix_snoc u Hune Huroot) as (_ & Htu & Hltu).
  set (tu := TrimPrefix u "/") in *.
  rewrite Hu in Hltu.
  destruct (next_segment tu) as [segment remaining] eqn:Hns.
  pose proof (next_segment_app _ _ _ Hns) as Happ.
  pose proof (next_segment_noslash _ _ _ Hns) as Hnoslash.
  destruct (decide (remaining = "")) as [->|Hrem].
  - (* the slash ends the first segment *)
    rewrite append_nil_r in Happ. subst segment.
    rewrite (next_segment_parts tu ("/" +:+ w) Hnoslash)
      by (right; now rewrite append_cons).
    destruct (next_segment w) as [b rem_w] eqn:Hnw.
    rewrite (next_segment_glue tu w b rem_w Hns Hnw).
    assert (Hb : b <> "").
    { intros ->. pose proof (next_segment_app _ _ _ Hnw) as E.
      rewrite append_nil in E. subst rem_w.
      unfold next_segment in Hnw.
      destruct (IndexByte w "/") as [j|] eqn:Ej; [|congruence].
      injection Hnw as H1 H2. destruct j as [|j].
      - apply IndexByte_Some in Ej as [_ Ej]. simpl in Ej. congruence.
      - destruct w; discriminate. }
    destruct (find_static tu (children n)) as [child|] eqn:Hfs.
    + apply find_static_Some in Hfs as (Hin & _ & Hp).
      rewrite (find_static_inv n (tu +:+ b) child Hinv Hin)
        by (now apply HasPrefix_app).
      destruct (node_inv_child _ _ Hinv Hin) as (_ & Hpne & Hcinv).
      assert (Hle : String.length (prefix child) <= String.length tu).
      { rewrite <- (prefix_lcp _ _ Hp). apply lcp_le_l. }
      pose proof (next_segment_app _ _ _ Hnw) as Ew.
      unfold rest_path.
      rewrite (proj2 (Nat.eqb_neq (String.length (prefix child))
                        (String.length (tu +:+ b))))
        by (rewrite str_length_app; apply nonempty_length in Hb; lia).
      rewrite (continue_search_ne _ _ ("/" +:+ _ +:+ rem_w))
        by (rewrite append_cons; discriminate).
      destruct (Nat.eqb_spec (String.length (prefix child)) (String.length tu))
        as [E|E].
      * rewrite continue_search_ne by (rewrite append_cons; discriminate).
        rewrite E, drop_app_length, <- Ew. auto.
      * rewrite continue_search_ne by (rewrite append_cons; discriminate).
        rewrite drop_app_le by exact Hle.
        rewrite append_assoc, <- Ew.
        rewrite <- (append_assoc "/" (drop _ tu) ("/" +:+ w)).
        rewrite <- (append_assoc "/" (drop _ tu) w).
        apply (IH child _ w c d r Hcinv); auto.
        rewrite last_byte_app.
        -- rewrite <- Hltu. clear -Hle E.
           revert Hle E. generalize (String.length (prefix child)).
           induction tu as [|x tu IHt]; intros k Hle E; simpl in *; [lia|].
           destruct k as [|k]; [reflexivity|]. simpl.
           destruct tu as [|y tu]; [simpl in *; lia|].
           rewrite (IHt k) by (simpl in *; lia). reflexivity.
        -- intros E'. apply (f_equal String.length) in E'.
           rewrite str_length_drop in E'. simpl in E'. lia.
    + destruct (paramChild n) as [pc|]; [|discriminate].
      intros H. apply continue_search_allocated in H. congruence.
  - (* the slash comes later *)
    rewrite (next_segment_app_slash tu ("/" +:+ w) _ _ Hns Hrem).
    rewrite (next_segment_app_slash tu w _ _ Hns Hrem).
    assert (Hlrem : last_byte remaining = Some c).
    { rewrite Happ, last_byte_app in Hltu by exact Hrem. exact Hltu. }
    destruct (find_static segment (children n)) as [child|] eqn:Hfs.
    + apply find_static_Some in Hfs as (Hin & _ & Hp).
      destruct (node_inv_child _ _ Hinv Hin) as (_ & Hpne & Hcinv).
      unfold rest_path.
      destruct (Nat.eqb (String.length (prefix child)) (String.length segment)).
      * rewrite !continue_search_ne
          by (intros E; apply append_eq_nil in E as [? _]; congruence).
        apply (IH child remaining w c d r Hcinv); auto.
      * rewrite !continue_search_ne by (rewrite append_cons; discriminate).
        rewrite <- (append_assoc (drop _ segment) remaining ("/" +:+ w)).
        rewrite <- (append_assoc "/" (drop _ segment +:+ remaining) ("/" +:+ w)).
        rewrite <- (append_assoc (drop _ segment) remaining w).
        rewrite <- (append_assoc "/" (drop _ segment +:+ remaining) w).
        apply (IH child _ w c d r Hcinv); auto.
        rewrite <- append_assoc, last_byte_app by exact Hrem. exact Hlrem.
    + destruct (paramChild n) as [pc|]; [|discriminate].
      intros H. apply continue_search_allocated in H. congruence.
Qed.

(** X10 — A path that is resolved through literal segments alone (the parameter
    map stays nil) is resolved to the same route when a slash between two
    of its segments is left out: "/a/b" is found as "/ab" too. *)
Theorem slash_between_segments_optional (ops : list (string * Route))
    (t : tree) (u w : string) (c d : ascii) (r : Route) :
  insert_all newTree ops = Done t ->
  last_byte u = Some c -> c <> "/"%char ->
  head w = Some d -> d <> "/"%char ->
  tree_search t (u +:+ "/" +:+ w) = Done (Some r, None) ->
  tree_search t (u +:+ w) = Done (Some r, None).
Proof.
  intros Hops Hu Hc Hw Hd Hs. apply insert_all_newTree_inv in Hops.
  assert (Hune : u <> "") by (intros ->; discriminate).
  apply tree_search_node in Hs. unfold search_path in Hs.
  rewrite (eqb_false_ne (u +:+ "/" +:+ w) "") in Hs
    by (intros E; apply append_eq_nil in E as [? _]; congruence).
  apply (node_search_glued _ _ _ _ c d) in Hs; auto.
  unfold tree_search.
  rewrite (eqb_false_ne (u +:+ w) "")
    by (intros E; apply append_eq_nil in E as [? _]; congruence).
  assert (Hw' : weight (u +:+ w) < budget (u +:+ "/" +:+ w)).
  { pose proof (weight_budget (u +:+ w)). unfold budget in *.
    rewrite !str_length_app in *. simpl. lia. }
  destruct (node_search_fuel (budget (u +:+ w)) (budget (u +:+ "/" +:+ w))
              (root t) (u +:+ w) None Hops (weight_budget _) Hw') as [-> _].
  now rewrite Hs.
Qed.

Lemma slash_between_segments_optional_witness :
  tree_search tree_a_slash_b ("/a" +:+ "b") = Done (Some route_ab, None).
Proof.
  apply (slash_between_segments_optional [("/a/b", route_ab)] tree_a_slash_b
           "/a" "b" "a" "b" route_ab); try reflexivity; discriminate.
Defined.

(** * Registration and search of literal patterns *)

(** X11 — Round trip for literal patterns: in a tree built by registrations,
    once a pattern without ":" has been registered, the search for it
    returns the route of that registration, with a nil parameter map. *)
Theorem literal_round_trip (ops : list (string * Route)) (t t' : tree)
    (p : string) (r : Route) :
  insert_all newTree ops = Done t ->
  colon_free p ->
  tree_insert t p r = Done t' ->
  tree_search t' p = Done (Some r, None).
Proof.
  intros Hops Hp Hins. apply insert_all_newTree_inv in Hops.
  apply colon_free_normalize in Hp.
  pose proof (tree_insert_inv _ _ _ _ Hops Hins) as Hinv.
  apply tree_insert_Done in Hins.
  apply tree_search_from_node; [exact Hinv|]. intros fs Hfs.
  eapply (node_search_inserted _ (root t)); eauto.
Qed.

Lemma literal_round_trip_witness :
  tree_search tree_ab_ac "/ac" = Done (Some route_ac, None).
Proof.
  apply (literal_round_trip [("/ab", route_ab)] tree_ab tree_ab_ac "/ac"
           route_ac); reflexivity.
Defined.

(** X12 — On a tree built by registrations, [tree.search] returns for every
    path: it does not panic, its recursion ends within the budget of the
    model, and it returns a nil map when it returns no route. *)
Theorem search_always_returns (ops : list (string * Route)) (t : tree)
    (path : string) :
  insert_all newTree ops = Done t ->
  exists rt ps,
    tree_search t path = Done (rt, ps) /\ (rt = None -> ps = None).
Proof.
  intros Hops. apply insert_all_newTree_inv in Hops.
  destruct (tree_search_total t path Hops) as (rt & ps & H).
  exists rt, ps. split; [exact H|]. intros ->.
  unfold tree_search in H.
  destruct (node_search _ _ _ _) as [[[r|] qs]| |]; simpl in H; congruence.
Qed.

Lemma search_always_returns_witness :
  exists rt ps,
    tree_search tree_users "/users/mexico" = Done (rt, ps) /\
    (rt = None -> ps = None).
Proof.
  apply (search_always_returns
           [("/users/:id", route_user); ("/users/me", route_me)]).
  reflexivity.
Defined.

(** * Registering a pattern again *)

Lemma find_common_app_None segment cs1 cs2 : forall i0,
  find_common segment cs1 i0 = None ->
  find_common segment (cs1 ++ cs2) i0
  = find_common segment cs2 (i0 + length cs1).
Proof.
  induction cs1 as [|c cs1 IH]; intros i0; simpl.
  - intros _. now rewrite Nat.add_0_r.
  - destruct (negb (is_static (nType c))).
    + intros H. rewrite IH by exact H. f_equal. lia.
    + destruct (Nat.eqb (longestCommonPrefix segment (prefix c)) 0);
        [|discriminate].
      intros H. rewrite IH by exact H. f_equal. lia.
Qed.

Lemma find_common_replace segment cs : forall i0 i child k c',
  find_common segment cs i0 = Some (i, child, k) ->
  nType c' = static ->
  longestCommonPrefix segment (prefix c') = k ->
  find_common segment (<[i - i0 := c']> cs) i0 = Some (i, c', k).
Proof.
  induction cs as [|c cs IH]; intros i0 i child k c'; simpl; [discriminate|].
  destruct (is_static (nType c)) eqn:Est; cbn [negb].
  - destruct (Nat.eqb_spec (longestCommonPrefix segment (prefix c)) 0) as [E|E].
    + intros H Ht Hk.
      pose proof (find_common_Some _ _ _ _ _ _ H) as (Hle & _).
      replace (i - i0) with (S (i - S i0)) by lia.
      cbn [insert list_insert find_common]. rewrite Est. cbn [negb].
      rewrite (proj2 (Nat.eqb_eq _ 0) E). now apply (IH (S i0) i child).
    + intros [= <- <- <-] Ht Hk. rewrite Nat.sub_diag.
      cbn [insert list_insert find_common]. rewrite Ht. cbn [is_static negb].
      rewrite Hk. now rewrite (proj2 (Nat.eqb_neq _ 0) E).
  - intros H Ht Hk.
    pose proof (find_common_Some _ _ _ _ _ _ H) as (Hle & _).
    replace (i - i0) with (S (i - S i0)) by lia.
    cbn [insert list_insert find_common]. rewrite Est. cbn [negb].
    now apply (IH (S i0) i child).
Qed.

Lemma lcp_prefix_full s : longestCommonPrefix s s = String.length s.
Proof.
  induction s as [|c s IH]; [reflexivity|]. simpl.
  now rewrite Ascii.eqb_refl, IH.
Qed.

Lemma lcp_take_self segment p :
  longestCommonPrefix segment (take (longestCommonPrefix segment p) p)
  = longestCommonPrefix segment p.
Proof.
  revert p. induction segment as [|x s IH]; intros [|y p]; try reflexivity.
  simpl. destruct (Ascii.eqb x y) eqn:E; [|reflexivity].
  simpl. now rewrite E, IH.
Qed.

Lemma static_target_header child k segment target :
  is_static (nType child) = true ->
  k = longestCommonPrefix segment (prefix child) ->
  static_target child k = Some target ->
  nType target = static /\
  longestCommonPrefix segment (prefix target) = k /\
  k = String.length (prefix target).
Proof.
  intros Hst -> . unfold static_target.
  destruct (Nat.eqb_spec (longestCommonPrefix segment (prefix child))
              (String.length (prefix child))) as [E|E].
  - intros [= <-]. repeat split; auto.
    destruct (nType child); try discriminate; reflexivity.
  - destruct (head (drop _ (prefix child))); [|discriminate].
    intros [= <-]. cbn [split_node nType prefix].
    split; [reflexivity|]. rewrite lcp_take_self. split; [reflexivity|].
    rewrite str_length_take. pose proof (lcp_le_r segment (prefix child)). lia.
Qed.

Lemma static_target_self target k :
  k = String.length (prefix target) -> static_target target k = Some target.
Proof. intros ->. unfold static_target. now rewrite Nat.eqb_refl. Qed.

Lemma set_children_twice n cs1 cs2 :
  set_children (set_children n cs1) cs2 = set_children n cs2.
Proof. reflexivity. Qed.

Lemma node_insert_again fuel : forall n path r r' n1,
  node_insert fuel n path r = Done n1 ->
  node_insert fuel n1 path r' = node_insert fuel n path r'.
Proof.
  induction fuel as [|fuel IH]; intros n path r r' n1; [discriminate|].
  assert (Hcont : forall m sub m1,
            continue_insert fuel m sub r = Done m1 ->
            continue_insert fuel m1 sub r' = continue_insert fuel m sub r').
  { intros m sub m1. unfold continue_insert.
    destruct (String.eqb sub "").
    - intros [= <-]. reflexivity.
    - apply IH. }
  rewrite !node_insert_unfold.
  destruct (String.eqb path "/").
  { intros [= <-]. reflexivity. }
  destruct (next_segment (TrimPrefix path "/")) as [segment remaining].
  destruct (is_param (segment_type segment)).
  { destruct (continue_insert fuel (param_target n segment) remaining r)
      as [pc1| |] eqn:Hc; try discriminate.
    cbn [mbind res_bind]. intros [= <-].
    unfold param_target at 1. cbn [paramChild set_paramChild].
    rewrite (Hcont _ _ _ Hc).
    destruct (continue_insert fuel (param_target n segment) remaining r');
      reflexivity. }
  destruct (find_common segment (children n) 0) as [[[i child] k]|] eqn:Hfc.
  - destruct (static_target child k) as [target|] eqn:Hst; [|discriminate].
    destruct (continue_insert fuel target _ r) as [target1| |] eqn:Hc;
      try discriminate.
    cbn [mbind res_bind]. intros [= <-].
    pose proof (find_common_Some _ _ _ _ _ _ Hfc) as (_ & Hi & Hstat & Hk & Hk0 & _).
    destruct (static_target_header _ _ _ _ Hstat Hk Hst) as (Ht & Hl & Hlen).
    pose proof (continue_insert_header _ _ _ _ _ Hc) as (Ht1 & _ & Hp1 & _).
    cbn [children set_children].
    rewrite <- (Nat.sub_0_r i) at 1.
    rewrite (find_common_replace segment (children n) 0 i child k target1 Hfc)
      by (rewrite ?Hp1; congruence).
    rewrite (static_target_self target1 k) by congruence.
    rewrite (Hcont _ _ _ Hc).
    destruct (continue_insert fuel target _ r') as [target2| |]; try reflexivity.
    cbn [mbind res_bind]. f_equal.
    rewrite list_insert_insert_eq. reflexivity.
  - destruct (head segment) as [c|] eqn:Hh; [|discriminate].
    destruct (continue_insert fuel (new_child c segment) remaining r)
      as [c1| |] eqn:Hc; try discriminate.
    cbn [mbind res_bind]. intros [= <-].
    pose proof (continue_insert_header _ _ _ _ _ Hc) as (Ht1 & _ & Hp1 & _).
    cbn [nType prefix new_child] in Ht1, Hp1.
    cbn [children set_children].
    rewrite (find_common_app_None _ _ _ _ Hfc). cbn [find_common].
    rewrite Ht1, Hp1. cbn [is_static negb].
    rewrite lcp_prefix_full.
    rewrite (proj2 (Nat.eqb_neq (String.length segment) 0))
      by (destruct segment; [discriminate|simpl; lia]).
    rewrite (static_target_self c1) by congruence.
    rewrite rest_path_refl, (Hcont _ _ _ Hc).
    destruct (continue_insert fuel (new_child c segment) remaining r')
      as [c2| |]; try reflexivity.
    cbn [mbind res_bind]. f_equal. unfold set_children. cbn. f_equal.
    rewrite insert_app_r_alt, Nat.sub_diag by lia. reflexivity.
Qed.

(** X13 — A registration of a pattern that has been registered before gives
    the tree that this registration alone would have given: the route of
    the earlier registration is replaced, and nothing else of it is
    left.  Registering the same route twice is the same as once. *)
Theorem insert_overwrites (t t1 : tree) (p : string) (r r' : Route) :
  tree_insert t p r = Done t1 ->
  tree_insert t1 p r' = tree_insert t p r' /\
  tree_insert t1 p r = Done t1.
Proof.
  intros H. pose proof (tree_insert_Done _ _ _ _ H) as Hn.
  assert (E : forall r2, tree_insert t1 p r2 = tree_insert t p r2).
  { intros r2. unfold tree_insert.
    now rewrite (node_insert_again _ _ _ _ r2 _ Hn). }
  split; [apply E|]. now rewrite E.
Qed.

Lemma insert_overwrites_witness :
  tree_insert tree_ab_ac "/ac" route_ab = tree_insert tree_ab "/ac" route_ab /\
  tree_insert tree_ab_ac "/ac" route_ac = Done tree_ab_ac.
Proof.
  apply (insert_overwrites tree_ab tree_ab_ac "/ac" route_ac route_ab).
  reflexivity.
Defined.

(** * Registering a pattern with a parameter *)

(** X14 — The registration of a pattern with a parameter segment leaves every
    path that is resolved through literal segments alone (to a route, with
    a nil parameter map) resolved to the same route. *)
Theorem param_registration_keeps_static_hits (ops : list (string * Route))
    (t t' : tree) (q path : string) (rq r : Route) :
  insert_all newTree ops = Done t ->
  has_param_segment (normalize q) = true ->
  tree_insert t q rq = Done t' ->
  tree_search t path = Done (Some r, None) ->
  tree_search t' path = Done (Some r, None).
Proof.
  intros Hops Hq Hins Hs. apply insert_all_newTree_inv in Hops.
  pose proof (tree_insert_inv _ _ _ _ Hops Hins) as Hinv.
  apply tree_insert_Done in Hins.
  apply tree_search_from_node; [exact Hinv|]. intros fs Hfs.
  eapply (static_hit_preserved _ (root t)); eauto.
  eapply tree_search_to_node; eauto.
Qed.

Lemma param_registration_keeps_static_hits_witness :
  tree_search tree_users "/users/me" = Done (Some route_me, None).
Proof.
  apply (param_registration_keeps_static_hits [("/users/me", route_me)]
           (Tree (Node static zero_byte "" "" None
                    [Node static "u" "users" "" None
                       [Node static "m" "me" "" (Some route_me) [] None] None]
                    None))
           tree_users "/users/:id" "/users/me" route_user route_me);
    reflexivity.
Defined.

Lemma insert_panics_on_empty_segment_witness :
  tree_insert tree_ab "/a//b" route_ac = Panic /\
  exists t', tree_insert tree_ab "/a/b/" route_ac = Done t'.
Proof.
  split.
  - apply (proj1 (insert_panics_on_empty_segment tree_ab "/a//b" route_ac)).
    reflexivity.
  - apply (proj2 (insert_panics_on_empty_segment tree_ab "/a/b/" route_ac)).
    reflexivity.
Defined.

End TreeProps.

(** * Further properties of the middleware chain *)

Module ChainProps.

Import Middleware MiddlewareProps.

Local Open Scope list_scope.

(** X15 — Chains compose: the chain of two lists put together is the chain of
    the first applied to the chain of the second, a chain of chains is the
    chain of the lists put together, and the chain of one middleware is
    that middleware. *)
Theorem Chain_append (H : Type) (xs ys : list (@MiddlewareFunc H)) (h : H) :
  Chain (xs ++ ys) h = Chain xs (Chain ys h) /\
  Chain [Chain xs; Chain ys] h = Chain (xs ++ ys) h /\
  forall mw : @MiddlewareFunc H, Chain [mw] h = mw h.
Proof.
  assert (E : Chain (xs ++ ys) h = Chain xs (Chain ys h)).
  { rewrite !Chain_nested. unfold nested. now rewrite foldr_app. }
  split; [exact E|]. split; [now rewrite E|reflexivity].
Qed.

End ChainProps.

(** * Further properties of the recovery middlewares *)

Module DetailedRecoveryProps.

Import Middleware MiddlewareProps RecoveryMiddleware DetailedRecoveryMiddleware.

Local Open Scope list_scope.

Section Details.

Context {Context value foreign_error : Type}.

Variable panic_line : @panic_value value -> string.
Variable panic_text : @panic_value value -> string.

Abbreviation Handler := (@RecoveryMiddleware.Handler Context value foreign_error).

(** X16 — [DetailedRecovery] passes the results of a returning handler through,
    and turns a panic into (nil, 500, an APIError with the code
    "internal_server_error") whose message names the panic value. *)
Theorem DetailedRecovery_reports_panic (next : Handler) (ctx : Context)
    (out : list string) :
  (forall r out',
      next ctx out = (Returns r, out') ->
      DetailedRecovery panic_line panic_text next ctx out = (Returns r, out')) /\
  (forall v out',
      next ctx out = (Panics v, out') ->
      exists e,
        DetailedRecovery panic_line panic_text next ctx out
        = (Returns (None, 500%Z, Some (api_error e)), out' ++ [panic_line v]) /\
        Code e = "internal_server_error" /\
        Error e = "Panic recovered: " +:+ panic_text v).
Proof.
  split.
  - intros r out' H. unfold DetailedRecovery. now rewrite H.
  - intros v out' H. unfold DetailedRecovery. rewrite H.
    eexists. repeat split.
Qed.




(** X18 — Of two recovery middlewares around a handler, the inner one answers
    the panic; the outer one adds nothing, no log line either. *)
Theorem inner_recovery_answers (next : Handler) (ctx : Context)
    (out : list string) :
  Recovery panic_line (Recovery panic_line next) ctx out
  = Recovery panic_line next ctx out /\
  Recovery panic_line (DetailedRecovery panic_line panic_text next) ctx out
  = DetailedRecovery panic_line panic_text next ctx out /\
  DetailedRecovery panic_line panic_text (Recovery panic_line next) ctx out
  = Recovery panic_line next ctx out.
Proof.
  unfold Recovery, DetailedRecovery.
  destruct (next ctx out) as [[r|v] out']; simpl; auto.
Qed.

End Details.

Lemma DetailedRecovery_reports_panic_witness :
  exists e,
    DetailedRecovery (fun _ => "PANIC") (fun _ => "nil") sample_handler 1 []
    = (Returns (None, 500%Z, Some (api_error e)), ["working"; "PANIC"]) /\
    Code e = "internal_server_error" /\
    Error e = "Panic recovered: nil".
Proof.
  apply (proj2 (DetailedRecovery_reports_panic (fun _ => "PANIC")
                  (fun _ => "nil") sample_handler 1 []) PanicNilError
               ["working"]).
  reflexivity.
Defined.

End DetailedRecoveryProps.

(** * Properties of the rate limiter *)

Module RateLimitProps.

Import RateLimit.

Local Open Scope Z_scope.

Lemma wrap_in_range z : min_int <= z <= max_int -> wrap z = z.
Proof.
  unfold wrap, min_int, max_int. intros H.
  rewrite Z.mod_small by lia. lia.
Qed.

Lemma wrap_range z : min_int <= wrap z <= max_int.
Proof.
  unfold wrap, min_int, max_int.
  pose proof (Z.mod_pos_bound (z + 2 ^ 63) (2 ^ 64) ltac:(lia)). lia.
Qed.

Lemma min_le_l a b : min a b <= a.
Proof. unfold min. destruct (Z.ltb_spec a b); lia. Qed.

Lemma min_le_r a b : min a b <= b.
Proof. unfold min. destruct (Z.ltb_spec a b); lia. Qed.

Lemma min_cases a b : (min a b = a /\ a <= b) \/ (min a b = b /\ b <= a).
Proof. unfold min. destruct (Z.ltb_spec a b); lia. Qed.

Section LimiterProps.

Context {time : Type}.
Variable refill_of : time -> time -> Z -> Z.

Abbreviation RateLimiter := (@RateLimit.RateLimiter time).

(** X19 — A call of [allow] for a key, on a limiter whose capacity is an
    [int], leaves the buckets of the other keys, the rate and the capacity
    as they are, and the bucket of the key holds afterwards the clock
    reading of the call.  If the key had a bucket, or the capacity is
    above the least [int], the bucket holds at most [capacity] tokens,
    fewer if the request was allowed.  The first request of a key on a
    limiter whose capacity is the least [int] is allowed and leaves the
    greatest [int] in the bucket: [capacity - 1] wraps around. *)
Theorem allow_updates_one_bucket (rl : RateLimiter) (now : time)
    (key : string) (ok : bool) (rl' : RateLimiter) :
  min_int <= capacity rl <= max_int ->
  allow refill_of rl now key = (ok, rl') ->
  rate rl' = rate rl /\ capacity rl' = capacity rl /\
  (forall k, k <> key -> buckets rl' !! k = buckets rl !! k) /\
  exists b, buckets rl' !! key = Some b /\ lastSeen b = now /\
            (min_int < capacity rl \/ is_Some (buckets rl !! key) ->
             tokens b <= capacity rl /\
             (ok = true -> tokens b < capacity rl)) /\
            (capacity rl = min_int -> buckets rl !! key = None ->
             ok = true /\ tokens b = max_int).
Proof.
  intros Hcap. unfold allow.
  destruct (buckets rl !! key) as [b|] eqn:Hb.
  - pose proof (min_le_l (capacity rl)
                  (wrap (tokens b + refill_of now (lastSeen b) (rate rl)))).
    destruct (Z.ltb_spec 0 (min (capacity rl)
                (wrap (tokens b + refill_of now (lastSeen b) (rate rl)))))
      as [Hpos|Hneg]; intros [= <- <-];
      cbn [rate capacity buckets with_buckets];
      (split; [reflexivity|]; split; [reflexivity|]; split;
       [intros k Hk; now rewrite lookup_insert_ne by congruence|]);
      eexists; rewrite lookup_insert_eq; (split; [reflexivity|]);
      cbn [lastSeen tokens]; (split; [reflexivity|]);
      (split; [intros _|discriminate]).
    + rewrite wrap_in_range by (unfold min_int, max_int in *; lia). lia.
    + split; [lia|discriminate].
  - intros [= <- <-]. cbn [rate capacity buckets with_buckets].
    split; [reflexivity|]. split; [reflexivity|]. split.
    + intros k Hk. now rewrite lookup_insert_ne by congruence.
    + eexists. rewrite lookup_insert_eq. split; [reflexivity|].
      cbn [lastSeen tokens]. split; [reflexivity|]. split.
      * intros [Hlt|[b Hsome]]; [|discriminate].
        rewrite wrap_in_range by (unfold min_int, max_int in *; lia). lia.
      * intros -> _. split; reflexivity.
Qed.

(** ** Requests that arrive without refill *)

Lemma allowed_cons (ok : bool) (oks : list bool) :
  allowed (ok :: oks) = ((if ok then 1 else 0) + allowed oks)%nat.
Proof. reflexivity. Qed.

Lemma requests_existing (key : string) (times : list time) :
  forall (rl : RateLimiter) (b : bucket),
  (forall now last, refill_of now last (rate rl) = 0) ->
  min_int <= capacity rl <= max_int ->
  buckets rl !! key = Some b -> min_int <= tokens b <= max_int ->
  allowed (requests refill_of rl key times).1
  = Nat.min (length times) (Z.to_nat (min (capacity rl) (tokens b))).
Proof.
  induction times as [|now times IH]; intros rl b Hno Hcap Hb Ht;
    [reflexivity|].
  cbn [requests]. unfold allow. rewrite Hb, Hno, Z.add_0_r.
  rewrite (wrap_in_range (tokens b)) by exact Ht.
  set (m := min (capacity rl) (tokens b)).
  assert (Hm : (m = capacity rl /\ capacity rl <= tokens b) \/
               (m = tokens b /\ tokens b <= capacity rl))
    by apply min_cases.
  destruct (Z.ltb_spec 0 m) as [Hpos|Hneg].
  - set (rl1 := with_buckets rl _).
    specialize (IH rl1 (Bucket (wrap (m - 1)) now) Hno Hcap
                  ltac:(apply lookup_insert_eq) (wrap_range _)).
    destruct (requests refill_of rl1 key times) as [oks rl2].
    cbn [fst] in *. rewrite allowed_cons, IH.
    cbn [capacity with_buckets rl1 tokens length].
    rewrite (wrap_in_range (m - 1)) by (unfold min_int, max_int in *; lia).
    assert (E : min (capacity rl) (m - 1) = m - 1).
    { unfold min. destruct (Z.ltb_spec (capacity rl) (m - 1)); lia. }
    rewrite E. lia.
  - set (rl1 := with_buckets rl _).
    specialize (IH rl1 (Bucket m now) Hno Hcap
                  ltac:(apply lookup_insert_eq)
                  ltac:(cbn [tokens]; unfold min_int, max_int in *; lia)).
    destruct (requests refill_of rl1 key times) as [oks rl2].
    cbn [fst] in *. rewrite allowed_cons, IH.
    cbn [capacity with_buckets rl1 tokens length].
    assert (E : min (capacity rl) m = m).
    { unfold min. destruct (Z.ltb_spec (capacity rl) m); lia. }
    rewrite E. lia.
Qed.

(** X20 — The burst: when no tokens are refilled between the requests (the rate
    is 0, or the requests come faster than one token takes), a key that
    has no bucket yet gets [capacity] requests through, and one if the
    capacity is less than one; every further request is refused. *)
Theorem burst_is_capacity (rl : RateLimiter) (key : string)
    (times : list time) :
  (forall now last, refill_of now last (rate rl) = 0) ->
  min_int <= capacity rl <= max_int ->
  buckets rl !! key = None ->
  allowed (requests refill_of rl key times).1
  = Nat.min (length times) (Z.to_nat (Z.max 1 (capacity rl))).
Proof.
  intros Hno Hcap Hb. destruct times as [|now times]; [reflexivity|].
  cbn [requests]. unfold allow. rewrite Hb.
  set (rl1 := with_buckets rl _).
  pose proof (requests_existing key times rl1
                (Bucket (wrap (capacity rl - 1)) now) Hno Hcap
                ltac:(apply lookup_insert_eq) (wrap_range _)) as H.
  destruct (requests refill_of rl1 key times) as [oks rl2].
  cbn [fst] in *. rewrite allowed_cons, H.
  cbn [capacity with_buckets rl1 tokens length].
  destruct (decide (capacity rl = min_int)) as [E|E].
  - rewrite E. change (wrap (min_int - 1)) with max_int.
    change (min min_int max_int) with min_int.
    change (Z.to_nat min_int) with 0%nat.
    change (Z.to_nat (Z.max 1 min_int)) with 1%nat. lia.
  - rewrite (wrap_in_range (capacity rl - 1))
      by (unfold min_int, max_int in *; lia).
    assert (E1 : min (capacity rl) (capacity rl - 1) = capacity rl - 1).
    { unfold min. destruct (Z.ltb_spec (capacity rl) (capacity rl - 1)); lia. }
    rewrite E1. lia.
Qed.

End LimiterProps.

Lemma allow_updates_one_bucket_witness :
  allow refill_by_seconds limiter_two_clients 7%nat "10.0.0.1"
    = (true,
       mkRateLimiter (<["10.0.0.1" := Bucket 4 7%nat]>
                        (<["10.0.0.2" := Bucket 4 1%nat]> ∅)) 2 5) /\
  (forall k, k <> "10.0.0.1" ->
     (<["10.0.0.1" := Bucket 4 7%nat]> (<["10.0.0.2" := Bucket 4 1%nat]> ∅)
        : gmap string bucket) !! k
     = buckets limiter_two_clients !! k) /\
  exists b,
    (<["10.0.0.1" := Bucket 4 7%nat]> (<["10.0.0.2" := Bucket 4 1%nat]> ∅)
       : gmap string bucket) !! "10.0.0.1" = Some b /\
    lastSeen b = 7%nat /\ tokens b <= 5 /\ tokens b < 5.
Proof.
  assert (Hrun : allow refill_by_seconds limiter_two_clients 7%nat "10.0.0.1"
                 = (true,
                    mkRateLimiter (<["10.0.0.1" := Bucket 4 7%nat]>
                                     (<["10.0.0.2" := Bucket 4 1%nat]> ∅)) 2 5))
    by (vm_compute; reflexivity).
  split; [exact Hrun|].
  destruct (allow_updates_one_bucket refill_by_seconds limiter_two_clients
              7%nat "10.0.0.1" true _ ltac:(unfold min_int, max_int; simpl; lia)
              Hrun)
    as (_ & _ & Hk & b & Hb & Hl & Hbound & _).
  split; [exact Hk|]. exists b. split; [exact Hb|]. split; [exact Hl|].
  destruct Hbound as [H1 H2]; [left; unfold min_int; simpl; lia|].
  split; [exact H1|exact (H2 eq_refl)].
Defined.

Lemma burst_is_capacity_witness :
  allowed (requests (fun (now last : nat) (rate : Z) => Z.of_nat (now - last) * rate)
                    (mkRateLimiter ∅ 0 3) "10.0.0.1" [1; 2; 3; 4; 5]%nat).1
  = 3%nat.
Proof.
  apply (burst_is_capacity
           (fun (now last : nat) (rate : Z) => Z.of_nat (now - last) * rate)
           (mkRateLimiter ∅ 0 3) "10.0.0.1" [1; 2; 3; 4; 5]%nat).
  - intros now last. simpl. lia.
  - unfold min_int, max_int. simpl. lia.
  - reflexivity.
Defined.

End RateLimitProps.

(** * Properties of the request identifiers *)

Module RequestIDProps.

Import RequestID.

Local Open Scope Z_scope.

Lemma version_nibble b :
  0 <= b < 256 ->
  Z.lor (Z.land b 15) 64 / 16 = 4 /\
  0 <= Z.lor (Z.land b 15) 64 < 256 /\
  Z.lor (Z.land b 15) 64 mod 16 = b mod 16.
Proof.
  intros H.
  assert (Hall : forallb (fun b =>
            (Z.lor (Z.land b 15) 64 / 16 =? 4) &&
            (0 <=? Z.lor (Z.land b 15) 64) && (Z.lor (Z.land b 15) 64 <? 256) &&
            (Z.lor (Z.land b 15) 64 mod 16 =? b mod 16))
          (map Z.of_nat (seq 0 256)) = true) by (vm_compute; reflexivity).
  rewrite forallb_forall in Hall.
  specialize (Hall b). rewrite in_map_iff in Hall.
  specialize (Hall ltac:(exists (Z.to_nat b); split; [lia|apply in_seq; lia])).
  apply andb_true_iff in Hall as [Hall H4].
  apply andb_true_iff in Hall as [Hall H3].
  apply andb_true_iff in Hall as [H1 H2].
  lia.
Qed.

Lemma variant_bits b :
  0 <= b < 256 ->
  8 <= Z.lor (Z.land b 63) 128 / 16 <= 11 /\
  0 <= Z.lor (Z.land b 63) 128 < 256.
Proof.
  intros H.
  assert (Hall : forallb (fun b =>
            (8 <=? Z.lor (Z.land b 63) 128 / 16) &&
            (Z.lor (Z.land b 63) 128 / 16 <=? 11) &&
            (0 <=? Z.lor (Z.land b 63) 128) && (Z.lor (Z.land b 63) 128 <? 256))
          (map Z.of_nat (seq 0 256)) = true) by (vm_compute; reflexivity).
  rewrite forallb_forall in Hall.
  specialize (Hall b). rewrite in_map_iff in Hall.
  specialize (Hall ltac:(exists (Z.to_nat b); split; [lia|apply in_seq; lia])).
  apply andb_true_iff in Hall as [Hall H4].
  apply andb_true_iff in Hall as [Hall H3].
  apply andb_true_iff in Hall as [H1 H2].
  lia.
Qed.

Lemma hex_digit_is_hex n : is_hex_digit (hex_digit n) = true.
Proof.
  destruct n as [|p|p]; try reflexivity.
  do 4 (destruct p as [p|p|]; try reflexivity).
Qed.

(** X21 — The identifier made from 16 random bytes has the form of a version 4
    UUID: 36 bytes, dashes after the groups of 8, 4, 4 and 4 digits, the
    digit "4" in front of the third group and one of "8", "9", "a", "b"
    in front of the fourth; every other byte is a digit of [%x]. *)
Theorem generateRequestID_is_uuid_v4 (bs : list Z) (fallback : Z) :
  length bs = 16%nat -> Forall (fun b => 0 <= b < 256) bs ->
  String.length (generateRequestID (Some bs) fallback) = 36%nat /\
  byte_at 14 (generateRequestID (Some bs) fallback) = Some "4"%char /\
  (exists v, byte_at 19 (generateRequestID (Some bs) fallback) = Some v /\
             In v ["8"; "9"; "a"; "b"]%char) /\
  forall i c, byte_at i (generateRequestID (Some bs) fallback) = Some c ->
    if bool_decide (i ∈ [8; 13; 18; 23]%nat) then c = "-"%char
    else is_hex_digit c = true.
Proof.
  intros Hlen Hb.
  destruct bs as [|b0 bs]; [discriminate|].
  destruct bs as [|b1 bs]; [discriminate|].
  destruct bs as [|b2 bs]; [discriminate|].
  destruct bs as [|b3 bs]; [discriminate|].
  destruct bs as [|b4 bs]; [discriminate|].
  destruct bs as [|b5 bs]; [discriminate|].
  destruct bs as [|b6 bs]; [discriminate|].
  destruct bs as [|b7 bs]; [discriminate|].
  destruct bs as [|b8 bs]; [discriminate|].
  destruct bs as [|b9 bs]; [discriminate|].
  destruct bs as [|b10 bs]; [discriminate|].
  destruct bs as [|b11 bs]; [discriminate|].
  destruct bs as [|b12 bs]; [discriminate|].
  destruct bs as [|b13 bs]; [discriminate|].
  destruct bs as [|b14 bs]; [discriminate|].
  destruct bs as [|b15 bs]; [discriminate|].
  destruct bs; [|discriminate].
  assert (H6 : 0 <= b6 < 256).
  { rewrite Forall_forall in Hb. apply Hb.
    now apply (list_elem_of_lookup_2 _ 6%nat). }
  assert (H8 : 0 <= b8 < 256).
  { rewrite Forall_forall in Hb. apply Hb.
    now apply (list_elem_of_lookup_2 _ 8%nat). }
  cbn [generateRequestID lookup_total insert list_insert list_lookup_total
       slice firstn skipn Nat.sub hex].
  unfold "+:+". cbn [String.append].
  split; [reflexivity|]. split.
  - cbn [byte_at]. f_equal.
    destruct (version_nibble b6 H6) as [-> _]. reflexivity.
  - split.
    + cbn [byte_at]. eexists. split; [reflexivity|].
      destruct (variant_bits b8 H8) as [Hv _].
      assert (E : Z.lor (Z.land b8 63) 128 / 16 = 8 \/
                  Z.lor (Z.land b8 63) 128 / 16 = 9 \/
                  Z.lor (Z.land b8 63) 128 / 16 = 10 \/
                  Z.lor (Z.land b8 63) 128 / 16 = 11) by lia.
      destruct E as [-> | [-> | [-> | ->]]]; simpl; auto.
    + intros i c.
      do 36 (destruct i as [|i];
             [cbn [byte_at]; intros [= <-];
              first [reflexivity | apply hex_digit_is_hex]|]).
      destruct i; cbn [byte_at]; discriminate.
Qed.

Lemma generateRequestID_is_uuid_v4_witness :
  String.length (generateRequestID (Some (replicate 16 255)) 0) = 36%nat /\
  byte_at 14 (generateRequestID (Some (replicate 16 255)) 0) = Some "4"%char.
Proof.
  destruct (generateRequestID_is_uuid_v4 (replicate 16 255) 0) as (H1 & H2 & _).
  - reflexivity.
  - repeat constructor; lia.
  - split; assumption.
Defined.

End RequestIDProps.

(** * Properties of the middlewares on the request context *)

Module ContextMiddlewareProps.

Import RecoveryMiddleware ContextMiddleware.

Local Open Scope list_scope.

Lemma SplitN2_bearer (s : string) :
  match SplitN2 s " " with
  | [scheme; token] => s = scheme +:+ " " +:+ token /\ has_byte " " scheme = false
  | [whole] => whole = s /\ has_byte " " s = false
  | _ => False
  end.
Proof.
  unfold SplitN2. destruct (IndexByte s " ") as [m|] eqn:E.
  - split; [|now apply IndexByte_take].
    apply IndexByte_Some in E as [Hm Hh].
    rewrite <- (str_take_drop m s) at 1. f_equal.
    rewrite <- (str_take_drop 1 (drop m s)).
    rewrite str_drop_drop. replace (m + 1) with (S m) by lia. f_equal.
    destruct (drop m s) as [|c r]; [discriminate|].
    injection Hh as ->. now destruct r.
  - split; [reflexivity|]. now apply IndexByte_None.
Qed.

Section AuthProps.

Context {Ctx value foreign_error : Type}.

Variable GetHeader : Ctx -> string -> string.
Variable SetValue : Ctx -> string -> option value -> Ctx.
Variable error_text : foreign_error -> string.

Abbreviation CtxHandler := (@ContextMiddleware.CtxHandler Ctx value foreign_error).

Variable validateToken :
  string -> option value * option (@error_value foreign_error).

(** X22 — [Auth] lets a request through exactly when its Authorization header
    is "Bearer ", followed by a token that [validateToken] accepts; the
    token is everything after the first space.  The wrapped handler then
    runs on the context with the user stored under "user".  Every other
    request is answered with 401 and an APIError with the code
    "unauthorized"; the wrapped handler is not called and the context is
    left as it is. *)
Theorem Auth_decides (next : CtxHandler) (ctx : Ctx) :
  (forall token user,
      GetHeader ctx "Authorization" = "Bearer " +:+ token ->
      validateToken token = (user, None) ->
      Auth GetHeader SetValue error_text validateToken next ctx
      = next (SetValue ctx "user" user)) /\
  (forall token user err,
      GetHeader ctx "Authorization" = "Bearer " +:+ token ->
      validateToken token = (user, Some err) ->
      Auth GetHeader SetValue error_text validateToken next ctx
      = ((None, 401%Z,
          Some (api_error (NewAPIError "unauthorized"
                             (error_message error_text err)))), ctx)) /\
  ((forall token, GetHeader ctx "Authorization" <> "Bearer " +:+ token) ->
   exists e,
     Auth GetHeader SetValue error_text validateToken next ctx
     = ((None, 401%Z, Some (api_error e)), ctx) /\
     Code e = "unauthorized").
Proof.
  assert (Hsplit : forall token,
            SplitN2 ("Bearer " +:+ token) " " = ["Bearer"; token]).
  { intros token. reflexivity. }
  unfold Auth. repeat split.
  - intros token user Hh Hv. rewrite Hh, Hsplit, Hv. reflexivity.
  - intros token user err Hh Hv. rewrite Hh, Hsplit, Hv. reflexivity.
  - intros Hno.
    destruct (String.eqb (GetHeader ctx "Authorization") "");
      [eexists; split; reflexivity|].
    pose proof (SplitN2_bearer (GetHeader ctx "Authorization")) as Hs.
    destruct (SplitN2 (GetHeader ctx "Authorization") " ")
      as [|scheme [|token [|? ?]]]; try (eexists; split; reflexivity).
    destruct Hs as [Hs _].
    destruct (String.eqb_spec scheme "Bearer") as [->|Hne];
      [|eexists; split; reflexivity].
    now destruct (Hno token).
Qed.

End AuthProps.

Lemma Auth_decides_witness :
  Auth (fun (ctx : string * option nat) _ => ctx.1)
       (fun ctx _ user => (ctx.1, user))
       (fun e : string => e)
       (fun token => (Some (String.length token), None))
       (fun ctx => ((ctx.2, 200%Z, None), ctx))
       ("Bearer a b", None)
  = ((Some 3, 200%Z, None), ("Bearer a b", Some 3)).
Proof.
  apply (proj1 (Auth_decides (fun (ctx : string * option nat) _ => ctx.1)
                  (fun ctx _ user => (ctx.1, user)) (fun e : string => e)
                  (fun token => (Some (String.length token), None))
                  (fun ctx => ((ctx.2, 200%Z, None), ctx))
                  ("Bearer a b", None)) "a b" (Some 3)); reflexivity.
Defined.

Section CORSProps.

Context {Ctx value foreign_error : Type}.

Variable GetHeader : Ctx -> string -> string.
Variable Header : Ctx -> string -> string -> Ctx.
Variable Method : Ctx -> string.

(** Setting a response header does not change the method of the
    request. *)
Hypothesis Method_Header : forall ctx key v, Method (Header ctx key v) = Method ctx.

Abbreviation Handler := (@ContextMiddleware.CtxHandler Ctx value foreign_error).

Lemma Method_set_if b ctx key v : Method (set_if Header b ctx key v) = Method ctx.
Proof. destruct b; simpl; auto. Qed.

(** X23 — The origin allowed for a request: "*" when the first entry of the
    list is "*", the origin of the request when the list holds it, and
    none otherwise; a "*" further down the list allows nothing but the
    origin "*" itself. *)
Theorem allowed_origin_cases (config : CORSConfig) (origin : string) :
  (AllowOrigins config !! 0 = Some "*" ->
     allowed_origin config origin = "*") /\
  (AllowOrigins config !! 0 <> Some "*" -> origin ∈ AllowOrigins config ->
     allowed_origin config origin = origin) /\
  (AllowOrigins config !! 0 <> Some "*" -> origin ∉ AllowOrigins config ->
     allowed_origin config origin = "").
Proof.
  assert (Hloop : forall os,
            (origin ∈ os -> match_origin os origin = origin) /\
            (origin ∉ os -> match_origin os origin = "")).
  { induction os as [|o os [IH1 IH2]]; split; simpl.
    - intros H. inversion H.
    - reflexivity.
    - intros H. destruct (String.eqb_spec o origin); [reflexivity|].
      apply IH1. apply elem_of_cons in H as [->|H]; [congruence|exact H].
    - intros H. destruct (String.eqb_spec o origin) as [->|Hne].
      + destruct H. now left.
      + apply IH2. intros Hin. apply H. now right. }
  unfold allowed_origin.
  destruct (AllowOrigins config) as [|first os] eqn:E; cbn [lookup list_lookup].
  - repeat split; try congruence. intros _ H. inversion H.
  - destruct (String.eqb_spec first "*") as [->|Hne].
    + repeat split; congruence.
    + repeat split; try congruence; intros _ H; now apply Hloop.
Qed.

(** X24 — A preflight request (method OPTIONS) is answered by [CORS] itself
    with status 204, no data and no error: the wrapped handler is not
    called. *)
Theorem CORS_answers_preflight (configs : list CORSConfig)
    (next : Handler) (ctx : Ctx) :
  Method ctx = "OPTIONS" ->
  exists ctx',
    CORS GetHeader Header Method configs next ctx
    = ((None, 204%Z, None), ctx') /\
    forall next' : Handler, CORS GetHeader Header Method configs next' ctx
                  = ((None, 204%Z, None), ctx').
Proof.
  intros Hm. unfold CORS. rewrite !Method_set_if, Hm.
  eexists. split; reflexivity.
Qed.

(** X25 — A request that is no preflight and whose origin is not allowed goes
    to the wrapped handler with the context untouched, when the
    configuration asks for no credentials and exposes no headers. *)
Theorem CORS_passes_through (config : CORSConfig) (next : Handler)
    (ctx : Ctx) :
  Method ctx <> "OPTIONS" ->
  allowed_origin config (GetHeader ctx "Origin") = "" ->
  AllowCredentials config = false -> ExposeHeaders config = [] ->
  CORS GetHeader Header Method [config] next ctx = next ctx.
Proof.
  intros Hm Ho Hc He. unfold CORS. rewrite Ho, Hc, He. cbn [set_if negb length Nat.ltb String.eqb].
  simpl. destruct (String.eqb_spec (Method ctx) "OPTIONS"); congruence.
Qed.

End CORSProps.

Import SampleContext.

Lemma allowed_origin_cases_witness :
  allowed_origin (mkCORSConfig ["https://a.example"; "*"] [] [] [] false 0)
                 "https://b.example" = "".
Proof.
  apply (proj2 (proj2 (allowed_origin_cases
           (mkCORSConfig ["https://a.example"; "*"] [] [] [] false 0)
           "https://b.example"))).
  - discriminate.
  - cbn [AllowOrigins]. intros H.
    apply elem_of_cons in H as [H|H]; [discriminate|].
    apply elem_of_cons in H as [H|H]; [discriminate|]. inversion H.
Defined.

Lemma CORS_answers_preflight_witness :
  exists ctx',
    CORS sample_GetHeader sample_Header s_method []
         (fun ctx => ((Some 1%nat, 200%Z, @None (@error_value string)), ctx))
         (mkSample "OPTIONS" "https://a.example" [])
    = ((None, 204%Z, None), ctx') /\
    forall next' : @CtxHandler sample_ctx nat string,
      CORS sample_GetHeader sample_Header s_method [] next'
           (mkSample "OPTIONS" "https://a.example" [])
      = ((None, 204%Z, None), ctx').
Proof.
  apply (CORS_answers_preflight sample_GetHeader sample_Header s_method).
  - reflexivity.
  - reflexivity.
Defined.

Lemma CORS_passes_through_witness :
  CORS sample_GetHeader sample_Header s_method
       [mkCORSConfig ["https://a.example"; "*"] [] [] [] false 0]
       (fun ctx => ((Some 1%nat, 200%Z, @None (@error_value string)), ctx))
       (mkSample "GET" "https://b.example" [])
  = ((Some 1%nat, 200%Z, None), mkSample "GET" "https://b.example" []).
Proof.
  apply (CORS_passes_through sample_GetHeader sample_Header s_method
           (mkCORSConfig ["https://a.example"; "*"] [] [] [] false 0));
    try reflexivity.
  discriminate.
Defined.

End ContextMiddlewareProps.
